(** * tshttpurl: the IPv6 address model and the HttpURL normalizer

    A shallow embedding of [src/IPv6.ts] and [src/HttpURL.ts].

    - JavaScript strings are sequences of code units; they are modelled as
      [list ascii], one [ascii] per code unit in the range 0..255.
    - [bigint] and the integral [number]s the code handles are modelled as [Z].
    - A thrown exception is the [Err] case of [result]; an exception carries
      the name of its class and its message, as [String(e)] prints them.
    - [null] and [undefined] are [None].
    - Memoisation ([this.isIPv4 = ...], [this.toString = ...]) stores the value
      the method has just computed from immutable fields, so it is not
      modelled. *)

From Stdlib Require Import String Ascii ZArith List Bool Lia Arith.
Import ListNotations.
Open Scope Z_scope.

(** ** Strings *)

Definition str := list ascii.

Definition lit (s : string) : str := list_ascii_of_string s.

Definition code (c : ascii) : Z := Z.of_N (N_of_ascii c).

Definition chr (z : Z) : ascii := ascii_of_N (Z.to_N z).

Definition eqc (a b : ascii) : bool := Ascii.eqb a b.

Fixpoint eqs (a b : str) : bool :=
  match a, b with
  | [], [] => true
  | x :: a', y :: b' => eqc x y && eqs a' b'
  | _, _ => false
  end.

Definition inRange (lo hi : Z) (c : ascii) : bool :=
  (lo <=? code c) && (code c <=? hi).

(** [\d] *)
Definition isDigit (c : ascii) : bool := inRange 48 57 c.

(** [[a-f]] under the [i] flag *)
Definition isHexLetter (c : ascii) : bool := inRange 97 102 c || inRange 65 70 c.

(** [[\da-f]] under the [i] flag *)
Definition isHexDigit (c : ascii) : bool := isDigit c || isHexLetter c.

(** [\w] *)
Definition isWord (c : ascii) : bool :=
  inRange 97 122 c || inRange 65 90 c || isDigit c || (code c =? 95).

(** [\s], for the code units below 256: TAB, LF, VT, FF, CR, SPACE, NBSP. *)
Definition isSpace (c : ascii) : bool :=
  inRange 9 13 c || (code c =? 32) || (code c =? 160).

Definition toLowerChar (c : ascii) : ascii :=
  if inRange 65 90 c then chr (code c + 32) else c.

Definition toUpperChar (c : ascii) : ascii :=
  if inRange 97 122 c then chr (code c - 32) else c.

(** [String.prototype.toLowerCase] and [toUpperCase]; the code applies them to
    ASCII text only (a host made of word characters, a [%XX] triplet). *)
Definition toLowerCase (s : str) : str := map toLowerChar s.
Definition toUpperCase (s : str) : str := map toUpperChar s.

(** [s.indexOf(c)], [-1] when absent. *)
Fixpoint indexOfFrom (c : ascii) (s : str) (i : Z) : Z :=
  match s with
  | [] => -1
  | x :: s' => if eqc x c then i else indexOfFrom c s' (i + 1)
  end.

Definition indexOf (c : ascii) (s : str) : Z := indexOfFrom c s 0.

(** [s.lastIndexOf(c)], [-1] when absent. *)
Fixpoint lastIndexOfFrom (c : ascii) (s : str) (i : Z) (found : Z) : Z :=
  match s with
  | [] => found
  | x :: s' => lastIndexOfFrom c s' (i + 1) (if eqc x c then i else found)
  end.

Definition lastIndexOf (c : ascii) (s : str) : Z := lastIndexOfFrom c s 0 (-1).

(** [s.split(c)] for a one-character separator: never empty. *)
Fixpoint split (c : ascii) (s : str) : list str :=
  match s with
  | [] => [[]]
  | x :: s' =>
      if eqc x c then [] :: split c s'
      else match split c s' with
           | [] => [[x]]
           | p :: ps => (x :: p) :: ps
           end
  end.

(** [a.join(sep)] *)
Fixpoint join (sep : str) (l : list str) : str :=
  match l with
  | [] => []
  | [x] => x
  | x :: l' => x ++ sep ++ join sep l'
  end.

(** [s.padStart(n, c)] *)
Definition padStart (n : nat) (c : ascii) (s : str) : str :=
  repeat c (n - length s) ++ s.

(** [s.charAt(s.length - 1)], the empty string when [s] is empty. *)
Definition lastChar (s : str) : option ascii :=
  match rev s with
  | [] => None
  | c :: _ => Some c
  end.

(** The comparison of [<] and [>] on strings: code unit by code unit. *)
Fixpoint strCompare (a b : str) : comparison :=
  match a, b with
  | [], [] => Eq
  | [], _ :: _ => Lt
  | _ :: _, [] => Gt
  | x :: a', y :: b' =>
      match code x ?= code y with
      | Eq => strCompare a' b'
      | o => o
      end
  end.

(** ** Exceptions *)

Inductive exn : Type := Throw (name message : str).

Definition Error (msg : str) : exn := Throw (lit "Error") msg.
Definition RangeError (msg : str) : exn := Throw (lit "RangeError") msg.
Definition SyntaxError (msg : str) : exn := Throw (lit "SyntaxError") msg.
Definition TypeError (msg : str) : exn := Throw (lit "TypeError") msg.

(** [String(e)], as in ['...: ' + e]. *)
Definition exnToString (e : exn) : str :=
  match e with Throw n m => n ++ lit ": " ++ m end.

Definition exnMessage (e : exn) : str :=
  match e with Throw _ m => m end.

Inductive result (A : Type) : Type :=
| Ok (a : A)
| Err (e : exn).

Arguments Ok {A} a.
Arguments Err {A} e.

Definition bind {A B : Type} (m : result A) (f : A -> result B) : result B :=
  match m with
  | Ok a => f a
  | Err e => Err e
  end.

Notation "x <- m ;; k" := (bind m (fun x => k))
  (at level 61, m at next level, right associativity).
Notation "' p <- m ;; k" := (bind m (fun x => match x with p => k end))
  (at level 61, p pattern, m at next level, right associativity).

(** [try { m } catch (e) { h e }] *)
Definition tryCatch {A : Type} (m : result A) (h : exn -> result A) : result A :=
  match m with
  | Ok a => Ok a
  | Err e => h e
  end.

(** [if (c) throw e] *)
Definition throwIf (c : bool) (e : exn) : result unit :=
  if c then Err e else Ok tt.

(** ** Numbers and their text *)

Definition digitChar (d : Z) : ascii :=
  if d <? 10 then chr (48 + d) else chr (87 + d).

Definition digitVal (c : ascii) : Z :=
  if isDigit c then code c - 48
  else if inRange 97 102 c then code c - 87
  else code c - 55.

Fixpoint digitsAux (radix : Z) (fuel : nat) (z : Z) (acc : str) : str :=
  match fuel with
  | O => acc
  | S fuel' =>
      if z =? 0 then acc
      else digitsAux radix fuel' (z / radix) (digitChar (z mod radix) :: acc)
  end.

(** [z.toString(radix)] for an integer: lowercase digits, no leading zero,
    a minus sign before the digits of a negative number. *)
Definition toStringRadix (radix : Z) (z : Z) : str :=
  if z =? 0 then lit "0"
  else if z <? 0
       then lit "-" ++ digitsAux radix (S (Z.to_nat (Z.log2 (- z)))) (- z) []
       else digitsAux radix (S (Z.to_nat (Z.log2 z))) z [].

(** [parseInt(s, radix)] on a string of digits of that radix. *)
Definition parseIntRadix (radix : Z) (s : str) : Z :=
  fold_left (fun acc c => radix * acc + digitVal c) s 0.

(** [isFinite] of the number that [parseInt] gives for digits: the integer is
    rounded to the nearest double, which is infinite from [2^1024 - 2^970]
    on. *)
Definition isFiniteNum (z : Z) : bool := Z.abs z <? 2 ^ 1024 - 2 ^ 970.

(** The double quote, for the messages that hold one. *)
Definition dquote : str := ["034"%char].

Definition isEmpty (s : str) : bool :=
  match s with [] => true | _ => false end.

(** [s.match(/[0-9a-f]{n}/gi) || []]: the successive non-overlapping runs of
    [n] hexadecimal digits, found from left to right. *)
Fixpoint matchHexRuns (n : nat) (fuel : nat) (s : str) : list str :=
  match fuel with
  | O => []
  | S fuel' =>
      match s with
      | [] => []
      | _ :: s' =>
          if (n <=? length s)%nat && forallb isHexDigit (firstn n s)
          then firstn n s :: matchHexRuns n fuel' (skipn n s)
          else matchHexRuns n fuel' s'
      end
  end.

Definition matchHex (n : nat) (s : str) : list str :=
  matchHexRuns n (length s) s.

(** [a.slice(-n)] *)
Definition sliceLast {A : Type} (n : nat) (l : list A) : list A :=
  skipn (length l - n) l.

(** * The IPv6 class *)

Module IPv6.

Definition MAX : Z := 2 ^ 128 - 1.
Definition IPV4PREFIX : Z := 0xFFFF00000000.
Definition IPV4MASK : Z := 0xFFFFffffFFFFffffFFFFffff00000000.
Definition ZERO : Z := 0.

(** An instance: its only field. *)
Record t : Type := mk { value : Z }.

(** The union [IPv6|bigint|string] of the parameters. *)
Inductive arg : Type :=
| OfIPv6 (a : t)
| OfBigInt (z : Z)
| OfString (s : str).

(** [HEXREGEX.test]: [/^(\d|[a-f])+$/i] *)
Definition HEXREGEX_test (s : str) : bool :=
  negb (isEmpty s) && forallb isHexDigit s.

(** [DECREGEX.test]: [/^\d+$/i] *)
Definition DECREGEX_test (s : str) : bool :=
  negb (isEmpty s) && forallb isDigit s.

Definition parseHex (value : str) : result Z :=
  if HEXREGEX_test value && isFiniteNum (parseIntRadix 16 value)
  then Ok (parseIntRadix 16 value)
  else Err (RangeError (lit "value is not a hexidecimal digit")).

Definition parseDecimal (value : str) : result Z :=
  if DECREGEX_test value && isFiniteNum (parseIntRadix 10 value)
  then Ok (parseIntRadix 10 value)
  else Err (RangeError (lit "value is not a decimal digit")).

(** [value.replace(SPACEREGEX, '')] with [SPACEREGEX = /\s+/], which has no
    [g] flag: the first run of white space is removed. *)
Fixpoint dropSpaces (s : str) : str :=
  match s with
  | [] => []
  | c :: s' => if isSpace c then dropSpaces s' else s
  end.

Fixpoint replaceSpace (s : str) : str :=
  match s with
  | [] => []
  | c :: s' => if isSpace c then dropSpaces s' else c :: replaceSpace s'
  end.

Definition isColon (c : ascii) : bool := eqc c ":"%char.

(** [matchCount(COLONSREGEX, value)]: the non-overlapping matches of [/::/g]. *)
Fixpoint countColonColons (s : str) : Z :=
  match s with
  | [] => 0
  | c :: s' =>
      match s' with
      | [] => 0
      | d :: s'' =>
          if isColon c && isColon d then 1 + countColonColons s''
          else countColonColons s'
      end
  end.

(** [matchCount(COLONREGEX, value)] *)
Fixpoint countColons (s : str) : Z :=
  match s with
  | [] => 0
  | c :: s' => (if isColon c then 1 else 0) + countColons s'
  end.

(** [value.replace(COLONSREGEX, replacement)] *)
Fixpoint replaceColonColons (replacement : str) (s : str) : str :=
  match s with
  | [] => []
  | c :: s' =>
      match s' with
      | [] => [c]
      | d :: s'' =>
          if isColon c && isColon d
          then replacement ++ replaceColonColons replacement s''
          else c :: replaceColonColons replacement s'
      end
  end.

(** The [for] loop that builds [replacement]. *)
Definition makeReplacement (missingParts : Z) : str :=
  lit ":" ++ concat (repeat (lit "0:") (Z.to_nat missingParts)).

(** The expansion of the one ["::"] of [value]. *)
Definition expandColonColons (hasIPv4 : bool) (value : str) : str :=
  let colons := countColons value in
  let missingParts := (if hasIPv4 then 7 else 8) - colons in
  replaceColonColons (makeReplacement missingParts) value.

(** The two patches of a leading and of a trailing colon. *)
Definition patchEnds (value : str) : str :=
  let value := if indexOf ":"%char value =? 0 then lit "0" ++ value else value in
  match lastChar value with
  | Some c => if isColon c then value ++ lit "0" else value
  | None => value
  end.

(** The loop over the four quads of the dot-decimal part. *)
Fixpoint quadLoop (i : nat) (quads : list str) (hexStr : str) : result str :=
  match i with
  | O => Ok hexStr
  | S i' =>
      match quads with
      | [] =>
          (* [quads[i]] is [undefined], which [DECREGEX] refuses *)
          Err (Error (lit "Invalid IP v 4 address: "
                      ++ exnToString
                           (RangeError (lit "value is not a decimal digit"))))
      | q :: quads' =>
          intVal <- tryCatch (parseDecimal q)
                      (fun e => Err (Error (lit "Invalid IP v 4 address: "
                                            ++ exnToString e)));;
          _ <- throwIf ((intVal <? 0) || (255 <? intVal))
                 (Error (lit "Invalid IP v 4 address"));;
          quadLoop i' quads'
            (hexStr ++ padStart 2 "0"%char (toStringRadix 16 intVal))
      end
  end.

(** The loop [for (part = parts.pop(); part; part = parts.pop())]; the array
    is given last element first, and the loop ends on the empty array as
    well as on an empty part, which is falsy. *)
Fixpoint partLoop (popped : list str) (hexStr : str) : result str :=
  match popped with
  | [] => Ok hexStr
  | part :: popped' =>
      if isEmpty part then Ok hexStr
      else
        intVal <- tryCatch (parseHex part)
                    (fun e => Err (Error (lit "Invalid IP v 6 address: "
                                          ++ exnToString e)));;
        _ <- throwIf ((intVal <? 0) || (0xFFFF <? intVal))
               (Error (lit "Invalid IP v 6 address"));;
        partLoop popped'
          (padStart 4 "0"%char (toStringRadix 16 intVal) ++ hexStr)
  end.

(** [BigInt("0x" + hexStr)], [hexStr] being made of hexadecimal digits. *)
Definition bigIntOfHex (hexStr : str) : result Z :=
  if isEmpty hexStr
  then Err (SyntaxError (lit "Cannot convert 0x to a BigInt"))
  else Ok (parseIntRadix 16 hexStr).

(** The first part of [fromString]: the text on which the groups are split,
    with the flag [hasIPv4]. *)
Definition normalize (value : str) : result (bool * str) :=
  let value := replaceSpace value in
  let hasIPv4 := 0 <? lastIndexOf "."%char value in
  value <-
    (if indexOf ":"%char value <? 0
     then (let value := lit "::FFFF:" ++ value in
           _ <- throwIf (negb hasIPv4) (Error (lit "Invalid address"));;
           Ok value)
     else Ok value);;
  let colonColons := countColonColons value in
  value <-
    (if 1 <? colonColons
     then Err (Error (lit "too many " ++ dquote ++ lit "::" ++ dquote
                      ++ lit " in the IPv6 string"))
     else if colonColons =? 1
          then Ok (expandColonColons hasIPv4 value)
          else Ok value);;
  Ok (hasIPv4, patchEnds value).

(** The second part: the dot-decimal quads, the count of the groups, the
    groups. [parts] is what is left of the array for the last loop, and
    [hexStr] what the quads gave. *)
Definition splitParts (hasIPv4 : bool) (value : str)
  : result (list str * str) :=
  let parts := split ":"%char value in
  if hasIPv4 then
    let quads := split "."%char (last parts []) in
    _ <- throwIf (negb (length quads =? 4)%nat)
           (Error (lit "Invalid IP v 4 address"));;
    hexStr <- quadLoop 4 quads [];;
    Ok (removelast parts, hexStr)
  else Ok (parts, []).

Definition fromString (value : str) : result Z :=
  '(hasIPv4, value) <- normalize value;;
  '(parts, hexStr) <- splitParts hasIPv4 value;;
  _ <- throwIf (negb (Z.of_nat (length hexStr) / 4 + Z.of_nat (length parts) =? 8))
         (Error (lit "Invalid address"));;
  hexStr <- partLoop (rev parts) hexStr;;
  bigIntOfHex hexStr.

Definition toBigInt (val : option arg) : result Z :=
  match val with
  | None => Err (Error (lit "missing parameter"))
  | Some (OfIPv6 a) => Ok a.(value)
  | Some (OfString s) => fromString s
  | Some (OfBigInt z) => Ok z
  end.

(** [new IPv6(value)] *)
Definition new (val : option arg) : result t :=
  val <- toBigInt val;;
  if MAX <? val then Err (RangeError (lit "value has more than 128 bits"))
  else if val <? ZERO then Err (RangeError (lit "value is negative"))
  else Ok (mk val).

Definition from (val : option arg) : result t :=
  match val with
  | Some (OfIPv6 a) => Ok a
  | _ => new val
  end.

(** The static [isIPv4]. *)
Definition isIPv4 (ipv6 : arg) : result bool :=
  v <- toBigInt (Some ipv6);;
  Ok (IPV4PREFIX =? Z.land IPV4MASK v).

(** The method [isIPv4()] of an instance, [IPv6.isIPv4(this)]: the static one
    cannot throw on an instance. *)
Definition isIPv4_ (this : t) : bool :=
  IPV4PREFIX =? Z.land IPV4MASK this.(value).

(** The state of the loop of [toIPv6String] over the eight parts. *)
Record streaks : Type := mkStreaks {
  current_streak : Z;
  current_start : Z;
  longest_streak : Z;
  longest_start : Z
}.

Definition noStreak : streaks := mkStreaks 0 (-1) 0 (-1).

(** One turn of the loop, for the part of index [i]. *)
Definition streakStep (st : streaks) (i : Z) (part : Z) : streaks :=
  if part =? 0 then
    let cur := st.(current_streak) + 1 in
    let start := if st.(current_start) <? 0 then i else st.(current_start) in
    if cur >? st.(longest_streak)
    then mkStreaks cur start cur start
    else mkStreaks cur start st.(longest_streak) st.(longest_start)
  else mkStreaks 0 (-1) st.(longest_streak) st.(longest_start).

Fixpoint streakLoop (i : Z) (parts : list Z) (st : streaks) : streaks :=
  match parts with
  | [] => st
  | part :: parts' => streakLoop (i + 1) parts' (streakStep st i part)
  end.

(** The [else] branch of [toIPv6String]: the text of a value that is not
    written with a dot-decimal part. [hexStrs] holds eight strings for a
    value of at most 128 bits, which is all an instance can hold. *)
Definition collapsed (this : t) : str :=
  let hexStr := padStart 32 "0"%char (toStringRadix 16 this.(value)) in
  let hexStrs := matchHex 4 hexStr in
  let intParts := map (parseIntRadix 16) (firstn 8 hexStrs) in
  let st := streakLoop 0 intParts noStreak in
  if st.(longest_streak) <=? 1 then join (lit ":") hexStrs
  else
    let start := Z.to_nat st.(longest_start) in
    let stop := Z.to_nat (st.(longest_start) + st.(longest_streak)) in
    (if st.(longest_start) =? 0 then lit ":" else [])
    ++ concat (map (fun part => toStringRadix 16 part ++ lit ":")
                 (firstn start intParts))
    ++ concat (map (fun part => lit ":" ++ toStringRadix 16 part)
                 (skipn stop intParts))
    ++ (if st.(longest_start) + st.(longest_streak) =? 8 then lit ":" else []).

(** The quads of [toIPv4String]: [ints[i]] for [i] from 0 to 3. *)
Definition quadText (ints : list str) (i : nat) : str :=
  match nth_error ints i with
  | Some h => toStringRadix 10 (parseIntRadix 16 h)
  | None => lit "NaN"
  end.

(** The static [toIPv4String]. On an address that is not IPv4 the message
    holds [ipv6.toString()], which for such an address is
    [ipv6.toIPv6String()], that is the [else] branch above (see
    [toString_not_IPv4]). *)
Definition toIPv4String (ipv6 : arg) : result str :=
  ipv6 <- from (Some ipv6);;
  if isIPv4_ ipv6 then
    let hexStrs := matchHex 2 (toStringRadix 16 ipv6.(value)) in
    let ints := sliceLast 4 hexStrs in
    Ok (join (lit ".") (map (quadText ints) [0; 1; 2; 3]%nat))
  else
    Err (Error (lit "Not an IPv4 address:  " ++ dquote ++ collapsed ipv6
                ++ dquote)).

(** The static [toIPv6String]. *)
Definition toIPv6String (ipv6 : arg) (dotDec : bool) : result str :=
  ipv6 <- from (Some ipv6);;
  if isIPv4_ ipv6 && dotDec then
    s <- toIPv4String (OfIPv6 ipv6);;
    Ok (lit "::ffff:" ++ s)
  else Ok (collapsed ipv6).

(** The method [toString()]. *)
Definition toString (this : t) : result str :=
  if isIPv4_ this then toIPv4String (OfIPv6 this)
  else toIPv6String (OfIPv6 this) true.

(** The static [compare]. *)
Definition compare (first second : arg) : result Z :=
  first <- toBigInt (Some first);;
  second <- toBigInt (Some second);;
  Ok (if first <? second then -1 else if first >? second then 1 else 0).

(** The static [equals]; [null == x] holds for [null] and [undefined]. *)
Definition equals (first second : option arg) : result bool :=
  let equal := false in
  match first with
  | None => Ok (match second with None => true | Some _ => false end)
  | Some first =>
      match second with
      | Some second =>
          tryCatch (c <- compare first second;; Ok (0 =? c))
                   (fun _ => Ok equal)
      | None => Ok equal
      end
  end.

(** The methods [compare(other)] and [equals(other)] of an instance. *)
Definition compare_ (this : t) (other : arg) : result Z :=
  compare (OfIPv6 this) other.

Definition equals_ (this : t) (other : option arg) : result bool :=
  equals (Some (OfIPv6 this)) other.

End IPv6.

(** * Regular expressions

    The pattern of [HttpURL.regEx] is kept as a term, and matched the way
    the engine of the language does it: by backtracking, the leftmost
    alternative first, the quantifiers greedy. The [i] flag is in the
    character predicates. *)

Module Regex.

Inductive re : Type :=
| Eps
| Chr (p : ascii -> bool)
| Seq (a b : re)
| Alt (a b : re)
| Star (a : re)
| Group (n : nat) (a : re)
| Eol.

(** The captures: [parts[n]], [None] for [undefined]. *)
Definition caps : Type := nat -> option str.

Definition noCaps : caps := fun _ => None.

Definition setCap (n : nat) (v : str) (c : caps) : caps :=
  fun m => if (m =? n)%nat then Some v else c m.

(** [run r s c k]: match [r] at the head of [s], then go on with [k] on the
    rest; [None] makes the matcher backtrack. An iteration of [Star] that
    consumes nothing is refused, as the language says. *)
Fixpoint run (r : re) (s : str) (c : caps)
  (k : str -> caps -> option caps) {struct r} : option caps :=
  match r with
  | Eps => k s c
  | Chr p =>
      match s with
      | x :: s' => if p x then k s' c else None
      | [] => None
      end
  | Seq a b => run a s c (fun s' c' => run b s' c' k)
  | Alt a b =>
      match run a s c k with
      | Some res => Some res
      | None => run b s c k
      end
  | Star a =>
      (fix loop (fuel : nat) (s : str) (c : caps) {struct fuel} : option caps :=
         match fuel with
         | O => k s c
         | S fuel' =>
             match run a s c
                     (fun s' c' =>
                        if (length s' <? length s)%nat
                        then loop fuel' s' c' else None) with
             | Some res => Some res
             | None => k s c
             end
         end) (length s) s c
  | Group n a =>
      run a s c
        (fun s' c' => k s' (setCap n (firstn (length s - length s') s) c'))
  | Eol =>
      match s with
      | [] => k s c
      | _ :: _ => None
      end
  end.

(** [r?] *)
Definition Opt (r : re) : re := Alt r Eps.

(** [r+] *)
Definition Plus (r : re) : re := Seq r (Star r).

(** [r{0,n}] *)
Fixpoint upTo (n : nat) (r : re) : re :=
  match n with
  | O => Eps
  | S n' => Opt (Seq r (upTo n' r))
  end.

(** [r{lo,hi}] *)
Fixpoint Rep (lo hi : nat) (r : re) : re :=
  match lo with
  | O => upTo hi r
  | S lo' => Seq r (Rep lo' (hi - 1) r)
  end.

(** One character, under the [i] flag. *)
Definition chrI (x : ascii) : re :=
  Chr (fun c => eqc (toLowerChar c) (toLowerChar x)).

(** A word of the pattern, under the [i] flag. *)
Fixpoint text (w : str) : re :=
  match w with
  | [] => Eps
  | x :: w' => Seq (chrI x) (text w')
  end.

(** A pattern that starts with [^]: matched at the start of the input. *)
Definition exec (r : re) (s : str) : option caps :=
  run r s noCaps (fun _ c => Some c).

End Regex.

(** A value in a condition: [undefined] and the empty string are falsy. *)
Definition truthy (v : option str) : option str :=
  match v with
  | Some s => if isEmpty s then None else Some s
  | None => None
  end.

(** [a < b ? -1 : (a > b ? 1 : 0)] on strings. *)
Definition compareStrings (a b : str) : Z :=
  match strCompare a b with
  | Lt => -1
  | Gt => 1
  | Eq => 0
  end.

(** [Array.prototype.sort(compare)], which is stable: every element is put
    behind the elements that are not greater. *)
Section Sort.
Variable A : Type.
Variable compare : A -> A -> Z.

Fixpoint insertSorted (x : A) (l : list A) : list A :=
  match l with
  | [] => [x]
  | y :: l' => if compare x y <? 0 then x :: l else y :: insertSorted x l'
  end.

Definition sort (l : list A) : list A :=
  fold_left (fun acc x => insertSorted x acc) l [].
End Sort.

Arguments insertSorted {A} compare x l.
Arguments sort {A} compare l.

(** * The QueryParam class *)

Module QueryParam.

Record t : Type := mk { name : str; value : option str }.

(** [name.substr(0, eqIdx)] and [name.substr(eqIdx + 1)] *)
Definition new (nm : str) (val : option str) : result t :=
  let eqIdx := indexOf "="%char nm in
  if 0 <=? eqIdx then
    match truthy val with
    | Some _ =>
        Err (Error (lit "Value specified in both name and value parameters."))
    | None =>
        Ok (mk (firstn (Z.to_nat eqIdx) nm)
              (Some (skipn (Z.to_nat (eqIdx + 1)) nm)))
    end
  else Ok (mk nm val).

Definition toString (this : t) : str :=
  match truthy this.(value) with
  | Some v => this.(name) ++ lit "=" ++ v
  | None => this.(name)
  end.

(** [qa.value || ''] *)
Definition valueOrEmpty (q : t) : str :=
  match truthy q.(value) with
  | Some v => v
  | None => []
  end.

(** The static [compare], on two instances. *)
Definition compare (qa qb : t) : Z :=
  let comp := compareStrings qa.(name) qb.(name) in
  if comp =? 0 then compareStrings (valueOrEmpty qa) (valueOrEmpty qb)
  else comp.

End QueryParam.

(** * The HttpURL class *)

Module HttpURL.

Import Regex.

Definition oneOf (set : str) (c : ascii) : bool := existsb (eqc c) set.

(** [%[\da-f]{2}] *)
Definition pctTriplet : re :=
  Seq (chrI "%") (Seq (Chr isHexDigit) (Chr isHexDigit)).

(** [[-\w_\.!~*'():&=+\$,/]] *)
Definition pathChar (c : ascii) : bool :=
  isWord c || oneOf (lit "-_.!~*'():&=+$,/") c.

(** [[-\w_\.!~*'();&=+\$,/?:@[\]]] *)
Definition queryChar (c : ascii) : bool :=
  isWord c || oneOf (lit "-_.!~*'();&=+$,/?:@[]") c.

Definition wordDash (c : ascii) : bool := isWord c || eqc c "-"%char.

Definition ipv6Char (c : ascii) : bool :=
  eqc c ":"%char || eqc c "."%char || isHexDigit c.

Definition digits (lo hi : nat) : re := Rep lo hi (Chr isDigit).

(** [\w[\w-]*\w] *)
Definition label : re :=
  Seq (Chr isWord) (Seq (Star (Chr wordDash)) (Chr isWord)).

(** The pattern [HttpURL.regEx], group by group. *)
Definition regEx : re :=
  Seq (Star (Chr isSpace))
  (Seq (Opt (Seq (Group 1 (Alt (text (lit "http")) (text (lit "https"))))
                 (text (lit "://"))))
  (Seq (Alt (Group 2 (Seq (Rep 3 3 (Seq (digits 1 3) (chrI ".")))
                          (digits 1 3)))
       (Alt (Seq (chrI "[") (Seq (Group 3 (Plus (Chr ipv6Char))) (chrI "]")))
            (Group 4
               (Seq (Star (Alt (Seq (Chr isWord) (chrI "."))
                               (Seq label (chrI "."))))
                    (Alt (Chr isWord) label)))))
  (Seq (Opt (Seq (chrI ":")
                 (Group 5 (Seq (Opt (chrI "-")) (digits 1 10)))))
  (Seq (Opt (Seq (chrI "/")
                 (Group 6 (Star (Alt pctTriplet (Chr pathChar))))))
  (Seq (Opt (Seq (chrI "?")
                 (Group 7 (Star (Alt pctTriplet (Chr queryChar))))))
  (Seq (Opt (Seq (chrI "#")
                 (Group 8 (Star (Alt pctTriplet (Chr queryChar))))))
  (Seq (Star (Chr isSpace)) Eol))))))).

(** The function given to [replace] for a triplet [%XX]. *)
Definition normalizeTriplet (h1 h2 : ascii) : str :=
  let hexNum := parseIntRadix 16 [h1; h2] in
  if ((0x41 <=? hexNum) && (hexNum <=? 0x5A))
     || ((0x61 <=? hexNum) && (hexNum <=? 0x7A))
     || ((0x30 <=? hexNum) && (hexNum <=? 0x39))
     || (hexNum =? 0x2D) || (hexNum =? 0x2E)
     || (hexNum =? 0x5F) || (hexNum =? 0x7E)
  then [chr hexNum]
  else toUpperCase ["%"%char; h1; h2].

(** [url.replace(HttpURL.pctXX, ...)] with [pctXX = /%([\da-f]{2})/gi]: every
    triplet, from left to right; what replaces one is not read again. *)
Fixpoint replacePct (url : str) : str :=
  match url with
  | [] => []
  | c :: url' =>
      match url' with
      | h1 :: h2 :: url'' =>
          if eqc c "%"%char && isHexDigit h1 && isHexDigit h2
          then normalizeTriplet h1 h2 ++ replacePct url''
          else c :: replacePct url'
      | _ => c :: replacePct url'
      end
  end.

(** [parts[7].match(HttpURL.qSep) || []] with [qSep = /[^&;]+/g]: the runs of
    characters between the separators, the empty ones left out. *)
Definition isSep (c : ascii) : bool := eqc c "&"%char || eqc c ";"%char.

Fixpoint matchQSep (cur : str) (s : str) : list str :=
  match s with
  | [] => if isEmpty cur then [] else [cur]
  | c :: s' =>
      if isSep c
      then (if isEmpty cur then [] else [cur]) ++ matchQSep [] s'
      else matchQSep (cur ++ [c]) s'
  end.

(** [parseInt(parts[5], 10)] on an optional minus sign and digits. *)
Definition parsePort (s : str) : Z :=
  match s with
  | c :: s' => if eqc c "-"%char then - parseIntRadix 10 s'
               else parseIntRadix 10 s
  | [] => 0
  end.

(** [pathStack.pop()]: [None] for [undefined], on the empty array. *)
Definition pop (pathStack : list str) : option (list str) :=
  match pathStack with
  | [] => None
  | _ :: _ => Some (removelast pathStack)
  end.

(** The loop over the segments of [parts[6].split('/')]. *)
Fixpoint pathLoop (segments : list str) (pathStack : list str)
  : result (list str) :=
  match segments with
  | [] => Ok pathStack
  | segment :: segments' =>
      if negb (isEmpty segment) && negb (eqs (lit ".") segment) then
        if eqs (lit "..") segment then
          match pop pathStack with
          | None => Err (Error (lit "Invalid path"))
          | Some pathStack' => pathLoop segments' pathStack'
          end
        else pathLoop segments' (pathStack ++ [segment])
      else pathLoop segments' pathStack
  end.

Fixpoint mapM {A B : Type} (f : A -> result B) (l : list A) : result (list B) :=
  match l with
  | [] => Ok []
  | x :: l' => y <- f x;; ys <- mapM f l';; Ok (y :: ys)
  end.

Record t : Type := mk {
  scheme : str;
  ipAddress : option IPv6.t;
  host : str;
  port : Z;
  path : list str;
  query : list QueryParam.t;
  fragment : option str;
  isDir : bool
}.

(** The host of an address literal: [new IPv6(text)] and its [toString()]. *)
Definition addressHost (text : str) : result (option IPv6.t * str) :=
  ip <- IPv6.new (Some (IPv6.OfString text));;
  h <- IPv6.toString ip;;
  Ok (Some ip, h).

(** The steps of the constructor, in the order of the source; [parts] is
    the result of [HttpURL.regEx.exec(url)]. *)

Definition schemeOf (parts : caps) : str :=
  match truthy (parts 1%nat) with
  | Some p => toLowerCase p
  | None => lit "http"
  end.

Definition hostOf (parts : caps) : result (option IPv6.t * str) :=
  match truthy (parts 2%nat) with
  | Some p => addressHost p
  | None =>
      match truthy (parts 3%nat) with
      | Some p => addressHost p
      | None =>
          match parts 4%nat with
          | Some p => Ok (None, toLowerCase p)
          | None => Err (TypeError (lit "parts[4] is undefined"))
          end
      end
  end.

Definition portOf (scheme : str) (parts : caps) : result Z :=
  match truthy (parts 5%nat) with
  | Some p =>
      let port := parsePort p in
      _ <- throwIf ((port <? 0) || (65535 <? port))
             (Error (lit "Invalid port"));;
      Ok port
  | None => Ok (if eqs (lit "http") scheme then 80 else 443)
  end.

Definition pathOf (parts : caps) : result (list str) :=
  match truthy (parts 6%nat) with
  | Some p => pathLoop (split "/"%char p) []
  | None => Ok []
  end.

Definition isDirOf (parts : caps) (path : list str) : result bool :=
  if (length path =? 0)%nat then Ok true
  else match parts 6%nat with
       | Some p =>
           Ok (match lastChar p with
               | Some c => eqc c "/"%char
               | None => false
               end)
       | None => Err (TypeError (lit "parts[6] is undefined"))
       end.

Definition queryOf (parts : caps) : result (list QueryParam.t) :=
  match truthy (parts 7%nat) with
  | Some p =>
      qs <- mapM (fun q => QueryParam.new q None) (matchQSep [] p);;
      Ok (sort QueryParam.compare qs)
  | None => Ok []
  end.

Definition fragmentOf (parts : caps) : option str := truthy (parts 8%nat).

Definition build (parts : caps) : result t :=
  let scheme := schemeOf parts in
  '(ipAddress, host) <- hostOf parts;;
  port <- portOf scheme parts;;
  path <- pathOf parts;;
  isDir <- isDirOf parts path;;
  query <- queryOf parts;;
  Ok (mk scheme ipAddress host port path query (fragmentOf parts) isDir).

(** [new HttpURL(url)] *)
Definition new (url : str) : result t :=
  match exec regEx (replacePct url) with
  | None => Err (Error (lit "Invalid URL"))
  | Some parts => build parts
  end.

(** [toString()] *)
Definition toString (this : t) : str :=
  let theHost :=
    match this.(ipAddress) with
    | Some ip =>
        if negb (IPv6.isIPv4_ ip) then lit "[" ++ this.(host) ++ lit "]"
        else this.(host)
    | None => this.(host)
    end in
  this.(scheme) ++ lit "://" ++ theHost ++ lit ":"
  ++ toStringRadix 10 this.(port)
  ++ (if negb (length this.(path) =? 0)%nat
      then lit "/" ++ join (lit "/") this.(path) else [])
  ++ (if this.(isDir) then lit "/" else [])
  ++ (if negb (length this.(query) =? 0)%nat
      then lit "?" ++ join (lit "&") (map QueryParam.toString this.(query))
      else [])
  ++ match truthy this.(fragment) with
     | Some f => f
     | None => []
     end.

(** The parameters of the static [compare]: an instance, or another object,
    of which the code reads [toString()] to make an instance. *)
Inductive obj : Type :=
| OfHttpURL (u : t)
| OfObject (text : str).

(** [a instanceof HttpURL ? a : new HttpURL(a.toString())] *)
Definition cast (a : obj) : result t :=
  match a with
  | OfHttpURL u => Ok u
  | OfObject text => new text
  end.

(** The static [compare]. *)
Definition compare (a b : obj) : result Z :=
  a <- cast a;;
  let ua := toString a in
  b <- cast b;;
  let ub := toString b in
  Ok (compareStrings ua ub).

End HttpURL.

(** * Notions for the statements and the proofs *)

Import IPv6.

Fixpoint fixedDigits (radix : Z) (n : nat) (z : Z) : str :=
  match n with
  | O => []
  | S n' => fixedDigits radix n' (z / radix) ++ [digitChar (z mod radix)]
  end.

(** Text without colons and without white space. *)
Definition cleanChar (c : ascii) : bool := negb (isColon c) && negb (isSpace c).
Definition clean (t : str) : bool := forallb cleanChar t.

(** A group between two colons. *)
Definition token (t : str) : Prop := t <> [] /\ clean t = true.

(** Every colon is followed by something that is not a colon. *)
Fixpoint tidy (s : str) : bool :=
  match s with
  | [] => true
  | c :: s' =>
      (if isColon c
       then match s' with [] => false | d :: _ => negb (isColon d) end
       else true) && tidy s'
  end.

Definition noSpace (s : str) : bool := forallb (fun c => negb (isSpace c)) s.

(** The zero groups that fill the place of ["::"]. *)
Definition zeros (n : nat) : list str := repeat (lit "0") n.

Definition startsWithColon (s : str) : bool :=
  match s with c :: _ => isColon c | [] => false end.

Definition endsWithColon (s : str) : bool :=
  match lastChar s with Some c => isColon c | None => false end.

Definition noGroups (l : list str) : bool :=
  match l with [] => true | _ :: _ => false end.

(** A group of the text, with the number it stands for. *)
Definition hexTok (u : str) (g : Z) : Prop :=
  u <> [] /\ forallb isHexDigit u = true /\ parseIntRadix 16 u = g
  /\ 0 <= g <= 0xFFFF.

(** The pieces of [w] digits of a number, the least significant first. *)
Fixpoint chunksRev (m : Z) (k : nat) (v : Z) : list Z :=
  match k with
  | O => []
  | S k' => v mod m :: chunksRev m k' (v / m)
  end.

(** The eight groups of an address, as they are written. *)
Definition groupsOf (v : Z) : list Z := rev (chunksRev 65536 8 v).

(** The four bytes of the IPv4 part. *)
Definition bytesOf (x : Z) : list Z := rev (chunksRev 256 4 x).

Definition allZero (parts : list Z) (from len : Z) : Prop :=
  forall j, from <= j < from + len -> nth (Z.to_nat j) parts 1 = 0.

Record streaksOk (done : list Z) (st : streaks) : Prop := {
  cur_range : 0 <= current_streak st <= Z.of_nat (length done);
  cur_none : current_streak st = 0 -> current_start st = -1;
  cur_some : 0 < current_streak st ->
             current_start st = Z.of_nat (length done) - current_streak st
             /\ allZero done (current_start st) (current_streak st);
  longest_nonneg : 0 <= longest_streak st;
  longest_some : 0 < longest_streak st ->
                 0 <= longest_start st
                 /\ longest_start st + longest_streak st <= Z.of_nat (length done)
                 /\ allZero done (longest_start st) (longest_streak st)
}.

Definition noDot (s : str) : bool := forallb (fun c => negb (eqc c "."%char)) s.

Definition noChar (c : ascii) (s : str) : bool :=
  forallb (fun x => negb (eqc x c)) s.

(** A quad of the dot-decimal part, with the byte it stands for. *)
Definition decTok (u : str) (b : Z) : Prop :=
  u <> [] /\ forallb isDigit u = true /\ parseIntRadix 10 u = b /\ 0 <= b <= 255.

Definition dotted (bytes : list Z) : str :=
  join (lit ".") (map (toStringRadix 10) bytes).

(** The dot-decimal text of the low 32 bits of a value. *)
Definition dotDecimal (v : Z) : str :=
  toStringRadix 10 ((v / 2 ^ 24) mod 256) ++ lit "."
  ++ toStringRadix 10 ((v / 2 ^ 16) mod 256) ++ lit "."
  ++ toStringRadix 10 ((v / 2 ^ 8) mod 256) ++ lit "."
  ++ toStringRadix 10 (v mod 256).

(** A group that the loop over the parts accepts. *)
Definition validGroup (part : str) : bool :=
  negb (isEmpty part) && forallb isHexDigit part
  && (parseIntRadix 16 part <=? 0xFFFF).

(** The two messages of a refused group. *)
Definition isInvalidIPv6 (e : exn) : Prop :=
  e = Error (lit "Invalid IP v 6 address")
  \/ e = Error (lit "Invalid IP v 6 address: "
                ++ exnToString (RangeError (lit "value is not a hexidecimal digit"))).

Record streaksBest (done : list Z) (st : streaks) : Prop := {
  cur_maximal :
    current_streak st < Z.of_nat (length done) ->
    nth (Z.to_nat (Z.of_nat (length done) - current_streak st - 1)) done 1 <> 0;
  cur_le_longest : current_streak st <= longest_streak st;
  longest_max :
    forall from len,
      0 <= from -> 0 <= len -> from + len <= Z.of_nat (length done) ->
      allZero done from len -> len <= longest_streak st;
  longest_leftmost :
    forall from,
      0 <= from -> from + longest_streak st <= Z.of_nat (length done) ->
      0 < longest_streak st -> allZero done from (longest_streak st) ->
      longest_start st <= from
}.

(** Every exception that [IPv6.fromString] can throw. *)
Definition addressErrors : list exn :=
  [ Error (lit "Invalid address");
    Error (lit "too many " ++ dquote ++ lit "::" ++ dquote
           ++ lit " in the IPv6 string");
    Error (lit "Invalid IP v 4 address");
    Error (lit "Invalid IP v 4 address: "
           ++ exnToString (RangeError (lit "value is not a decimal digit")));
    Error (lit "Invalid IP v 6 address");
    Error (lit "Invalid IP v 6 address: "
           ++ exnToString (RangeError (lit "value is not a hexidecimal digit")));
    SyntaxError (lit "Cannot convert 0x to a BigInt") ].

(** The walk over the segments as the specification words it; the top of
    the stack is the head of the list. *)
Fixpoint walk (segments : list str) (stack : list str) : option (list str) :=
  match segments with
  | [] => Some (rev stack)
  | segment :: segments' =>
      if isEmpty segment then walk segments' stack
      else if eqs (lit ".") segment then walk segments' stack
      else if eqs (lit "..") segment then
        match stack with
        | [] => None
        | _ :: below => walk segments' below
        end
      else walk segments' (segment :: stack)
  end.

(** A [..] is met on the empty stack. *)
Definition climbsOut (segments : list str) : Prop :=
  exists before after,
    segments = before ++ lit ".." :: after
    /\ HttpURL.pathLoop before [] = Ok [].

Definition pathError : exn := Error (lit "Invalid path").

Import Regex.

(** Every character. *)
Definition allAscii : list ascii := map ascii_of_nat (seq 0 256).

(** The characters a pattern can consume. *)
Fixpoint alphabet (r : re) (c : ascii) : bool :=
  match r with
  | Eps | Eol => false
  | Chr p => p c
  | Seq a b | Alt a b => alphabet a c || alphabet b c
  | Star a => alphabet a c
  | Group _ a => alphabet a c
  end.

(** The characters the group [n] of a pattern can hold. *)
Fixpoint groupAlphabet (r : re) (n : nat) (c : ascii) : bool :=
  match r with
  | Eps | Eol | Chr _ => false
  | Seq a b | Alt a b => groupAlphabet a n c || groupAlphabet b n c
  | Star a => groupAlphabet a n c
  | Group m a => ((m =? n)%nat && alphabet a c) || groupAlphabet a n c
  end.

(** The pattern is one character class that holds [x] alone. *)
Definition only (x : ascii) (r : re) : bool :=
  match r with
  | Chr p => forallb (fun c => implb (p c) (eqc c x)) allAscii
  | _ => false
  end.

(** However the pattern sets the group [n], it consumes an [x]. *)
Fixpoint marks (x : ascii) (n : nat) (r : re) : bool :=
  match r with
  | Eps | Eol | Chr _ => true
  | Seq a b => only x a || (marks x n a && marks x n b)
  | Alt a b => marks x n a && marks x n b
  | Star a => marks x n a
  | Group m a => negb (m =? n)%nat && marks x n a
  end.

(** What a match of [r] does: it takes [w] off the text and sets groups. *)
Definition moves (r : re) (s : str) (c : caps) (s' : str) (c' : caps) : Prop :=
  exists w,
    s = w ++ s'
    /\ forallb (alphabet r) w = true
    /\ (forall n, c' n = c n
                  \/ exists v, c' n = Some v
                               /\ forallb (groupAlphabet r n) v = true)
    /\ (forall x n, marks x n r = true -> c' n <> c n -> In x w)
    /\ match r with Chr _ => w <> [] | _ => True end.

(** The characters that some group of a pattern can hold. *)
Fixpoint captured (r : re) (c : ascii) : bool :=
  match r with
  | Eps | Eol | Chr _ => false
  | Seq a b | Alt a b => captured a c || captured b c
  | Star a => captured a c
  | Group _ a => alphabet a c || captured a c
  end.

(** A text without [#]. *)
Definition noHash (s : str) : bool := noChar "#"%char s.

(** The URL without its fragment. *)
Definition withoutFragment (u : HttpURL.t) : HttpURL.t :=
  HttpURL.mk (HttpURL.scheme u) (HttpURL.ipAddress u) (HttpURL.host u)
    (HttpURL.port u) (HttpURL.path u) (HttpURL.query u) None (HttpURL.isDir u).

(** [hay.startsWith(needle)] and [hay.includes(needle)] *)
Fixpoint startsWith (needle hay : str) : bool :=
  match needle, hay with
  | [], _ => true
  | _ :: _, [] => false
  | c :: needle', d :: hay' => eqc c d && startsWith needle' hay'
  end.

Fixpoint includes (needle hay : str) : bool :=
  startsWith needle hay
  || match hay with
     | [] => false
     | _ :: hay' => includes needle hay'
     end.

(** ** Notions for the further properties *)

(** The exceptions that the parser of addresses throws: all of the class
    [Error]. *)
Definition parseErrors : list exn :=
  [ Error (lit "Invalid address");
    Error (lit "too many " ++ dquote ++ lit "::" ++ dquote
           ++ lit " in the IPv6 string");
    Error (lit "Invalid IP v 4 address");
    Error (lit "Invalid IP v 4 address: "
           ++ exnToString (RangeError (lit "value is not a decimal digit")));
    Error (lit "Invalid IP v 6 address");
    Error (lit "Invalid IP v 6 address: "
           ++ exnToString (RangeError (lit "value is not a hexidecimal digit"))) ].

(** The number that groups of 16 bits stand for, the most significant
    first. *)
Definition groupsValue (G : list Z) : Z :=
  fold_left (fun acc g => 65536 * acc + g) G 0.

(** The number of an IPv4-mapped address with the four bytes given. *)
Definition mappedValue (b0 b1 b2 b3 : Z) : Z :=
  0xFFFF * 2 ^ 32 + b0 * 2 ^ 24 + b1 * 2 ^ 16 + b2 * 2 ^ 8 + b3.

(** The text with its letters from [a] to [z] in upper case. *)
Definition upper (s : str) : str := map toUpperChar s.

(** The characters of the text of an address: the digits, the letters from
    [a] to [f] in lower case, the colon and the dot. *)
Definition addressChar (c : ascii) : bool :=
  isDigit c || inRange 97 102 c || eqc c ":"%char || eqc c "."%char.

(** A quad of the text: decimal digits, one at least. *)
Definition digitTok (u : str) : Prop := u <> [] /\ forallb isDigit u = true.

(** The two errors of the dot-decimal part. *)
Definition isInvalidIPv4 (e : exn) : Prop :=
  e = Error (lit "Invalid IP v 4 address")
  \/ e = Error (lit "Invalid IP v 4 address: "
                ++ exnToString (RangeError (lit "value is not a decimal digit"))).

(** The texts that a pattern matches. *)
Inductive matches : re -> str -> Prop :=
| matches_eps : matches Eps []
| matches_chr p x : p x = true -> matches (Chr p) [x]
| matches_seq a b u v :
    matches a u -> matches b v -> matches (Seq a b) (u ++ v)
| matches_left a b u : matches a u -> matches (Alt a b) u
| matches_right a b u : matches b u -> matches (Alt a b) u
| matches_nil a : matches (Star a) []
| matches_more a u v :
    matches a u -> matches (Star a) v -> matches (Star a) (u ++ v)
| matches_group n a u : matches a u -> matches (Group n a) u
| matches_eol : matches Eol [].

(** The patterns that stand in the groups of number [n]. *)
Fixpoint groupBodies (r : re) (n : nat) : list re :=
  match r with
  | Eps | Eol | Chr _ => []
  | Seq a b | Alt a b => groupBodies a n ++ groupBodies b n
  | Star a => groupBodies a n
  | Group m a => (if (m =? n)%nat then [a] else []) ++ groupBodies a n
  end.

(** Every match of the pattern goes through one of the groups [ns]. *)
Fixpoint mustSet (ns : list nat) (r : re) : bool :=
  match r with
  | Eps | Eol | Chr _ | Star _ => false
  | Seq a b => mustSet ns a || mustSet ns b
  | Alt a b => mustSet ns a && mustSet ns b
  | Group m a => existsb (Nat.eqb m) ns || mustSet ns a
  end.

(** The pattern matches the empty text. *)
Fixpoint nullable (r : re) : bool :=
  match r with
  | Eps | Eol | Star _ => true
  | Chr _ => false
  | Seq a b => nullable a && nullable b
  | Alt a b => nullable a || nullable b
  | Group _ a => nullable a
  end.

(** What a match of [r] does to the groups: a group is left as it was, or
    holds a text that one of its patterns matches. *)
Definition sets (r : re) (c c' : caps) : Prop :=
  forall n,
    c' n = c n
    \/ exists v a, c' n = Some v /\ In a (groupBodies r n) /\ matches a v.

(** The exceptions that the constructor of [HttpURL] throws. *)
Definition urlErrors : list exn :=
  Error (lit "Invalid URL") :: Error (lit "Invalid port")
  :: Error (lit "Invalid path") :: parseErrors.

(** A segment of a resolved path. *)
Definition plainSegment (segment : str) : Prop :=
  segment <> [] /\ segment <> lit "." /\ segment <> lit ".."
  /\ noChar "/"%char segment = true.

(** The pattern ends with [$]. *)
Fixpoint anchored (r : re) : bool :=
  match r with
  | Eol => true
  | Seq _ b => anchored b
  | Alt a b => anchored a && anchored b
  | Group _ a => anchored a
  | Eps | Chr _ | Star _ => false
  end.

(** Every [%] of the text stands before two hexadecimal digits. *)
Fixpoint wellEncoded (s : str) : bool :=
  match s with
  | [] => true
  | c :: s' =>
      if eqc c "%"%char then
        match s' with
        | h1 :: h2 :: s'' => isHexDigit h1 && isHexDigit h2 && wellEncoded s''
        | _ => false
        end
      else wellEncoded s'
  end.

(** * Numbers and their digits *)

Lemma small_cases (d : Z) :
  0 <= d < 16 ->
  d = 0 \/ d = 1 \/ d = 2 \/ d = 3 \/ d = 4 \/ d = 5 \/ d = 6 \/ d = 7 \/
  d = 8 \/ d = 9 \/ d = 10 \/ d = 11 \/ d = 12 \/ d = 13 \/ d = 14 \/ d = 15.
Proof. lia. Qed.

Ltac each_digit d H :=
  let C := fresh in
  pose proof (small_cases d H) as C;
  repeat (destruct C as [C | C]; [subst d | ]); [ .. | subst d].

Lemma digitVal_digitChar d : 0 <= d < 16 -> digitVal (digitChar d) = d.
Proof. intros H. each_digit d H; reflexivity. Qed.

Lemma isHexDigit_digitChar d : 0 <= d < 16 -> isHexDigit (digitChar d) = true.
Proof. intros H. each_digit d H; reflexivity. Qed.

Lemma isDigit_digitChar d : 0 <= d < 10 -> isDigit (digitChar d) = true.
Proof.
  intros H. assert (H' : 0 <= d < 16) by lia.
  each_digit d H'; try reflexivity; lia.
Qed.

Section Radix.
Variable radix : Z.
Hypothesis radix_ge : 2 <= radix.

Lemma digitsAux_acc fuel : forall z acc,
  digitsAux radix fuel z acc = digitsAux radix fuel z [] ++ acc.
Proof.
  induction fuel as [| fuel IH]; intros z acc; simpl; [reflexivity |].
  destruct (z =? 0); [reflexivity |].
  rewrite IH, (IH _ [_]), <- app_assoc. reflexivity.
Qed.

Lemma digitsAux_fuel f1 : forall f2 z acc,
  0 <= z < radix ^ Z.of_nat f1 -> (f1 <= f2)%nat ->
  digitsAux radix f1 z acc = digitsAux radix f2 z acc.
Proof.
  induction f1 as [| f1 IH]; intros f2 z acc Hz Hf.
  - simpl in Hz. assert (z = 0) by lia. subst z.
    destruct f2; reflexivity.
  - destruct f2 as [| f2]; [lia |]. simpl.
    destruct (z =? 0) eqn:E; [reflexivity |].
    apply IH; [| lia].
    rewrite Nat2Z.inj_succ, Z.pow_succ_r in Hz by lia.
    split; [apply Z.div_pos; lia |].
    apply Z.div_lt_upper_bound; lia.
Qed.

Lemma digitsAux_S fuel z acc :
  z <> 0 ->
  digitsAux radix (S fuel) z acc
  = digitsAux radix fuel (z / radix) (digitChar (z mod radix) :: acc).
Proof.
  intros Hz. simpl. destruct (z =? 0) eqn:E; [lia | reflexivity].
Qed.

Lemma enough_fuel z :
  0 < z -> z < radix ^ Z.of_nat (S (Z.to_nat (Z.log2 z))).
Proof.
  intros Hz.
  pose proof (Z.log2_spec z Hz) as [_ Hlt].
  pose proof (Z.log2_nonneg z) as Hn.
  rewrite Nat2Z.inj_succ, Z2Nat.id by lia.
  eapply Z.lt_le_trans; [exact Hlt |].
  apply Z.pow_le_mono_l. lia.
Qed.

Lemma toStringRadix_pos z :
  0 < z ->
  toStringRadix radix z = digitsAux radix (S (Z.to_nat (Z.log2 z))) z [].
Proof.
  intros Hz. unfold toStringRadix.
  destruct (z =? 0) eqn:E; [lia |].
  destruct (z <? 0) eqn:E'; [lia | reflexivity].
Qed.

Lemma toStringRadix_digit d :
  0 <= d < radix -> toStringRadix radix d = [digitChar d].
Proof.
  intros Hd. destruct (Z.eq_dec d 0) as [-> | Hne]; [reflexivity |].
  rewrite toStringRadix_pos by lia.
  cbn [digitsAux]. destruct (d =? 0) eqn:E; [lia |].
  rewrite Z.div_small, Z.mod_small by lia.
  destruct (Z.to_nat (Z.log2 d)); reflexivity.
Qed.

Lemma toStringRadix_step q d :
  0 < q -> 0 <= d < radix ->
  toStringRadix radix (q * radix + d)
  = toStringRadix radix q ++ [digitChar d].
Proof.
  intros Hq Hd.
  assert (Hz : 0 < q * radix + d) by nia.
  rewrite !toStringRadix_pos by assumption.
  set (f := Z.to_nat (Z.log2 (q * radix + d))).
  rewrite (digitsAux_S f) by lia.
  replace ((q * radix + d) / radix) with q
    by (apply Z.div_unique with d; lia).
  replace ((q * radix + d) mod radix) with d
    by (apply Z.mod_unique with q; lia).
  rewrite digitsAux_acc. f_equal.
  pose proof (enough_fuel q Hq) as Hq'.
  pose proof (enough_fuel _ Hz) as Hz'. fold f in Hz'.
  destruct (Nat.le_gt_cases (S (Z.to_nat (Z.log2 q))) f) as [Hle | Hgt].
  - symmetry. apply digitsAux_fuel; [lia | exact Hle].
  - apply digitsAux_fuel; [| lia].
    split; [lia |].
    rewrite Nat2Z.inj_succ, Z.pow_succ_r in Hz' by lia. nia.
Qed.

(** Induction on a number through its digits. *)
Lemma digits_ind (P : Z -> Prop) :
  (forall d, 0 <= d < radix -> P d) ->
  (forall q d, 0 < q -> 0 <= d < radix -> P q -> P (q * radix + d)) ->
  forall z, 0 <= z -> P z.
Proof.
  intros Hd Hs z Hz. pattern z. apply Zlt_0_ind; [| exact Hz].
  intros x IH Hx.
  destruct (Z_lt_le_dec x radix) as [Hlt | Hge]; [apply Hd; lia |].
  rewrite (Z.div_mod x radix) by lia. rewrite Z.mul_comm.
  assert (0 < x / radix) by (apply Z.div_str_pos; lia).
  apply Hs; [assumption | apply Z.mod_pos_bound; lia |].
  apply IH. split; [lia |]. apply Z.div_lt; lia.
Qed.

Lemma parseIntRadix_snoc s c :
  parseIntRadix radix (s ++ [c]) = radix * parseIntRadix radix s + digitVal c.
Proof. unfold parseIntRadix. rewrite fold_left_app. reflexivity. Qed.

Lemma parseIntRadix_app a b :
  parseIntRadix radix (a ++ b)
  = parseIntRadix radix a * radix ^ Z.of_nat (length b) + parseIntRadix radix b.
Proof.
  induction b as [| c b IH] using rev_ind.
  - rewrite app_nil_r. simpl. cbn. lia.
  - rewrite app_assoc, !parseIntRadix_snoc, IH, length_app. simpl length.
    rewrite Nat2Z.inj_add, Z.pow_add_r by lia. simpl Z.of_nat.
    rewrite Z.pow_1_r. ring.
Qed.

Lemma parseIntRadix_nonneg s :
  forallb isHexDigit s = true -> 0 <= parseIntRadix radix s.
Proof.
  induction s as [| c s IH] using rev_ind; intros H; [cbn; lia |].
  rewrite forallb_app in H. apply andb_prop in H as [H1 H2].
  rewrite parseIntRadix_snoc. specialize (IH H1).
  assert (0 <= digitVal c); [| nia].
  simpl in H2. rewrite andb_true_r in H2. clear - H2.
  destruct c as [[] [] [] [] [] [] [] []]; try discriminate H2; cbv; discriminate.
Qed.

Lemma length_fixedDigits n : forall z, length (fixedDigits radix n z) = n.
Proof.
  induction n as [| n IH]; intros z; simpl; [reflexivity |].
  rewrite length_app, IH. simpl. lia.
Qed.

Lemma fixedDigits_zero n : fixedDigits radix n 0 = repeat "0"%char n.
Proof.
  induction n as [| n IH]; [reflexivity |].
  cbn [fixedDigits]. rewrite Z.div_0_l, Z.mod_0_l, IH by lia.
  change [digitChar 0] with (repeat "0"%char 1).
  rewrite <- repeat_app. f_equal. lia.
Qed.

Lemma fixedDigits_mod n : forall z,
  fixedDigits radix n (z mod radix ^ Z.of_nat n) = fixedDigits radix n z.
Proof.
  induction n as [| n IH]; intros z; [reflexivity |].
  cbn [fixedDigits].
  rewrite Nat2Z.inj_succ, Z.pow_succ_r by lia.
  f_equal.
  - rewrite <- (IH (z / radix)), <- (IH (_ / radix)). f_equal.
    rewrite Z.rem_mul_r by lia.
    rewrite Z.mul_comm, Z.div_add by lia.
    rewrite (Z.div_small (z mod radix)) by (apply Z.mod_pos_bound; lia).
    rewrite Z.add_0_l. apply Z.mod_mod. lia.
  - f_equal. rewrite Z.rem_mul_r by lia.
    rewrite Z.mul_comm, Z.mod_add by lia. rewrite Z.mod_mod by lia. reflexivity.
Qed.

Lemma fixedDigits_app a b z :
  fixedDigits radix (a + b) z
  = fixedDigits radix a (z / radix ^ Z.of_nat b) ++ fixedDigits radix b z.
Proof.
  revert z. induction b as [| b IH]; intros z.
  - rewrite Nat.add_0_r. simpl. rewrite Z.div_1_r, app_nil_r. reflexivity.
  - rewrite Nat.add_succ_r. cbn [fixedDigits].
    rewrite IH, <- app_assoc. f_equal.
    rewrite Nat2Z.inj_succ, Z.pow_succ_r by lia.
    rewrite Z.div_div by lia. reflexivity.
Qed.

Lemma parseIntRadix_fixedDigits n : forall z,
  radix <= 16 ->
  parseIntRadix radix (fixedDigits radix n z) = z mod radix ^ Z.of_nat n.
Proof.
  induction n as [| n IH]; intros z Hr.
  - simpl. rewrite Z.mod_1_r. reflexivity.
  - cbn [fixedDigits]. rewrite parseIntRadix_snoc, IH by assumption.
    rewrite digitVal_digitChar
      by (pose proof (Z.mod_pos_bound z radix); lia).
    rewrite Nat2Z.inj_succ, Z.pow_succ_r by lia.
    rewrite (Z.rem_mul_r z radix) by lia. lia.
Qed.

Lemma padStart_toStringRadix n : forall z,
  (0 < n)%nat -> 0 <= z < radix ^ Z.of_nat n ->
  padStart n "0"%char (toStringRadix radix z) = fixedDigits radix n z.
Proof.
  induction n as [| n IH]; intros z Hn Hz; [lia |].
  rewrite Nat2Z.inj_succ, Z.pow_succ_r in Hz by lia.
  cbn [fixedDigits].
  assert (Hd : 0 <= z mod radix < radix) by (apply Z.mod_pos_bound; lia).
  destruct (Z.eq_dec (z / radix) 0) as [Hq | Hq].
  - rewrite Hq, fixedDigits_zero.
    assert (z = z mod radix) by
      (rewrite (Z.div_mod z radix) at 1 by lia; rewrite Hq; lia).
    rewrite H at 1. rewrite toStringRadix_digit by assumption.
    unfold padStart. simpl length.
    replace (S n - 1)%nat with n by lia. reflexivity.
  - assert (Hq' : 0 < z / radix)
      by (pose proof (Z.div_pos z radix); lia).
    rewrite (Z.div_mod z radix) at 1 by lia. rewrite Z.mul_comm.
    rewrite toStringRadix_step by assumption.
    assert (Hlt : z / radix < radix ^ Z.of_nat n)
      by (apply Z.div_lt_upper_bound; lia).
    destruct n as [| n]; [simpl in Hlt; lia |].
    rewrite <- IH by lia.
    unfold padStart. rewrite length_app. simpl length.
    rewrite <- app_assoc. f_equal. f_equal. lia.
Qed.

Lemma parseIntRadix_toStringRadix z :
  radix <= 16 -> 0 <= z -> parseIntRadix radix (toStringRadix radix z) = z.
Proof.
  intros Hr Hz. pattern z. apply digits_ind; [| | exact Hz].
  - intros d Hd. rewrite toStringRadix_digit by assumption.
    cbn. rewrite digitVal_digitChar by lia. lia.
  - intros q d Hq Hd IH. rewrite toStringRadix_step by assumption.
    rewrite parseIntRadix_snoc, IH, digitVal_digitChar by lia. lia.
Qed.

Lemma toStringRadix_nonempty z : 0 <= z -> toStringRadix radix z <> [].
Proof.
  intros Hz. pattern z. apply digits_ind; [| | exact Hz].
  - intros d Hd. rewrite toStringRadix_digit by assumption. discriminate.
  - intros q d Hq Hd _. rewrite toStringRadix_step by assumption.
    intros H. apply app_eq_nil in H as [_ H]. discriminate.
Qed.

Lemma toStringRadix_forallb (p : ascii -> bool) z :
  (forall d, 0 <= d < radix -> p (digitChar d) = true) ->
  0 <= z -> forallb p (toStringRadix radix z) = true.
Proof.
  intros Hp Hz. pattern z. apply digits_ind; [| | exact Hz].
  - intros d Hd. rewrite toStringRadix_digit by assumption.
    simpl. rewrite Hp by assumption. reflexivity.
  - intros q d Hq Hd IH. rewrite toStringRadix_step by assumption.
    rewrite forallb_app, IH. simpl. rewrite Hp by assumption. reflexivity.
Qed.

Lemma fixedDigits_forallb (p : ascii -> bool) n : forall z,
  (forall d, 0 <= d < radix -> p (digitChar d) = true) ->
  forallb p (fixedDigits radix n z) = true.
Proof.
  induction n as [| n IH]; intros z Hp; [reflexivity |].
  cbn [fixedDigits]. rewrite forallb_app, IH by assumption.
  simpl. rewrite Hp by (apply Z.mod_pos_bound; lia). reflexivity.
Qed.

End Radix.

(** * The text of an address *)

Lemma clean_app a b : clean (a ++ b) = clean a && clean b.
Proof. apply forallb_app. Qed.

Lemma clean_cons c t : clean (c :: t) = true -> isColon c = false /\ isSpace c = false /\ clean t = true.
Proof.
  unfold clean, cleanChar. simpl. intros H.
  apply andb_prop in H as [H1 H2]. apply andb_prop in H1 as [H3 H4].
  apply negb_true_iff in H3, H4. auto.
Qed.

Lemma split_clean t : clean t = true -> split ":"%char t = [t].
Proof.
  induction t as [| c t IH]; intros H; [reflexivity |].
  apply clean_cons in H as (Hc & _ & Ht). simpl.
  change (eqc c ":"%char) with (isColon c). rewrite Hc, (IH Ht). reflexivity.
Qed.

Lemma split_cons t r :
  clean t = true -> split ":"%char (t ++ ":"%char :: r) = t :: split ":"%char r.
Proof.
  induction t as [| c t IH]; intros H; [reflexivity |].
  apply clean_cons in H as (Hc & _ & Ht). simpl.
  change (eqc c ":"%char) with (isColon c). rewrite Hc, (IH Ht). reflexivity.
Qed.

Lemma split_join l :
  l <> [] -> Forall (fun t => clean t = true) l ->
  split ":"%char (join (lit ":") l) = l.
Proof.
  induction l as [| t l IH]; intros Hne Hl; [congruence |].
  inversion Hl as [| ? ? Ht Hl']; subst.
  destruct l as [| u l]; [apply split_clean; assumption |].
  change (join (lit ":") (t :: u :: l))
    with (t ++ ":"%char :: join (lit ":") (u :: l)).
  rewrite split_cons by assumption. f_equal. apply IH; [discriminate | assumption].
Qed.

Lemma countColons_app a b : countColons (a ++ b) = countColons a + countColons b.
Proof. induction a as [| c a IH]; simpl; [reflexivity | rewrite IH; lia]. Qed.

Lemma countColons_clean t : clean t = true -> countColons t = 0.
Proof.
  induction t as [| c t IH]; intros H; [reflexivity |].
  apply clean_cons in H as (Hc & _ & Ht). simpl. rewrite Hc, (IH Ht). reflexivity.
Qed.

Lemma countColons_join l :
  l <> [] -> Forall (fun t => clean t = true) l ->
  countColons (join (lit ":") l) = Z.of_nat (length l) - 1.
Proof.
  induction l as [| t l IH]; intros Hne Hl; [congruence |].
  inversion Hl as [| ? ? Ht Hl']; subst.
  destruct l as [| u l]; [simpl; apply countColons_clean; assumption |].
  change (join (lit ":") (t :: u :: l))
    with (t ++ ":"%char :: join (lit ":") (u :: l)).
  rewrite countColons_app, countColons_clean by assumption.
  cbn [countColons]. change (isColon ":"%char) with true. cbv iota.
  rewrite IH by (discriminate || assumption).
  cbn [length]. lia.
Qed.

Lemma tidy_countColonColons s : tidy s = true -> countColonColons s = 0.
Proof.
  induction s as [| c s IH]; intros H; [reflexivity |].
  cbn [tidy] in H. apply andb_prop in H as [H1 H2].
  cbn [countColonColons]. destruct s as [| d s]; [reflexivity |].
  destruct (isColon c); [| simpl; apply IH; assumption].
  apply negb_true_iff in H1. rewrite H1. simpl. apply IH; assumption.
Qed.

Lemma tidy_replaceColonColons R s : tidy s = true -> replaceColonColons R s = s.
Proof.
  induction s as [| c s IH]; intros H; [reflexivity |].
  cbn [tidy] in H. apply andb_prop in H as [H1 H2].
  cbn [replaceColonColons]. destruct s as [| d s]; [reflexivity |].
  destruct (isColon c); [| simpl; f_equal; apply IH; assumption].
  apply negb_true_iff in H1. rewrite H1. simpl. f_equal. apply IH; assumption.
Qed.

Lemma countColonColons_tidy_app s r :
  tidy s = true ->
  countColonColons (s ++ lit "::" ++ r) = 1 + countColonColons r.
Proof.
  induction s as [| c s IH]; intros H; [reflexivity |].
  cbn [tidy] in H. apply andb_prop in H as [H1 H2].
  change ((c :: s) ++ lit "::" ++ r) with (c :: (s ++ lit "::" ++ r)).
  cbn [countColonColons].
  destruct s as [| d s].
  - destruct (isColon c); [discriminate |]. reflexivity.
  - change ((d :: s) ++ lit "::" ++ r) with (d :: (s ++ lit "::" ++ r)).
    change ((d :: s) ++ lit "::" ++ r) with (d :: (s ++ lit "::" ++ r)) in IH.
    destruct (isColon c).
    + apply negb_true_iff in H1. rewrite H1. simpl andb. cbv iota.
      apply IH; assumption.
    + simpl andb. cbv iota. apply IH; assumption.
Qed.

Lemma replaceColonColons_tidy_app R s r :
  tidy s = true ->
  replaceColonColons R (s ++ lit "::" ++ r) = s ++ R ++ replaceColonColons R r.
Proof.
  induction s as [| c s IH]; intros H; [reflexivity |].
  cbn [tidy] in H. apply andb_prop in H as [H1 H2].
  change ((c :: s) ++ lit "::" ++ r) with (c :: (s ++ lit "::" ++ r)).
  cbn [replaceColonColons].
  destruct s as [| d s].
  - destruct (isColon c); [discriminate |]. reflexivity.
  - change ((d :: s) ++ lit "::" ++ r) with (d :: (s ++ lit "::" ++ r)).
    change ((d :: s) ++ lit "::" ++ r) with (d :: (s ++ lit "::" ++ r)) in IH.
    destruct (isColon c).
    + apply negb_true_iff in H1. rewrite H1. simpl andb. cbv iota.
      rewrite IH by assumption. reflexivity.
    + simpl andb. cbv iota. rewrite IH by assumption. reflexivity.
Qed.

Lemma tidy_clean t : clean t = true -> tidy t = true.
Proof.
  induction t as [| c t IH]; intros H; [reflexivity |].
  apply clean_cons in H as (Hc & _ & Ht). cbn [tidy]. rewrite Hc. simpl.
  apply IH; assumption.
Qed.

Lemma tidy_app_colon t r :
  clean t = true -> r <> [] -> (forall d r', r = d :: r' -> isColon d = false) ->
  tidy r = true -> tidy (t ++ ":"%char :: r) = true.
Proof.
  induction t as [| c t IH]; intros Ht Hne Hhd Hr.
  - cbn [app tidy]. change (isColon ":"%char) with true. cbv iota.
    destruct r as [| d r']; [congruence |].
    rewrite (Hhd d r' eq_refl). simpl. exact Hr.
  - apply clean_cons in Ht as (Hc & _ & Ht).
    change ((c :: t) ++ ":"%char :: r) with (c :: (t ++ ":"%char :: r)).
    cbn [tidy]. rewrite Hc. simpl. apply IH; assumption.
Qed.

Lemma join_head l d r :
  Forall token l -> join (lit ":") l = d :: r -> isColon d = false.
Proof.
  intros Hl Hj. destruct l as [| t l]; [discriminate |].
  inversion Hl as [| ? ? [Hne Hc] _]; subst.
  destruct t as [| c t]; [congruence |].
  apply clean_cons in Hc as (Hc & _).
  destruct l; simpl in Hj; injection Hj as <- _; exact Hc.
Qed.

Lemma join_nonempty l : l <> [] -> Forall token l -> join (lit ":") l <> [].
Proof.
  intros Hne Hl. destruct l as [| t l]; [congruence |].
  inversion Hl as [| ? ? [Hne' _] _]; subst.
  destruct t; [congruence |]. destruct l; discriminate.
Qed.

Lemma tidy_join l : Forall token l -> tidy (join (lit ":") l) = true.
Proof.
  induction l as [| t l IH]; intros Hl; [reflexivity |].
  inversion Hl as [| ? ? [Hne Hc] Hl']; subst.
  destruct l as [| u l]; [apply tidy_clean; assumption |].
  change (join (lit ":") (t :: u :: l))
    with (t ++ ":"%char :: join (lit ":") (u :: l)).
  apply tidy_app_colon; try assumption.
  - apply join_nonempty; [discriminate | assumption].
  - intros d r'. apply join_head. assumption.
  - apply IH. assumption.
Qed.

Lemma replaceSpace_noSpace s : noSpace s = true -> replaceSpace s = s.
Proof.
  induction s as [| c s IH]; intros H; [reflexivity |].
  simpl in H. apply andb_prop in H as [H1 H2]. apply negb_true_iff in H1.
  simpl. rewrite H1, (IH H2). reflexivity.
Qed.

Lemma noSpace_app a b : noSpace (a ++ b) = noSpace a && noSpace b.
Proof. apply forallb_app. Qed.

Lemma noSpace_clean t : clean t = true -> noSpace t = true.
Proof.
  induction t as [| c t IH]; intros H; [reflexivity |].
  apply clean_cons in H as (_ & Hs & Ht). simpl. rewrite Hs, (IH Ht). reflexivity.
Qed.

Lemma noSpace_join l : Forall token l -> noSpace (join (lit ":") l) = true.
Proof.
  induction l as [| t l IH]; intros Hl; [reflexivity |].
  inversion Hl as [| ? ? [_ Hc] Hl']; subst.
  destruct l as [| u l]; [apply noSpace_clean; assumption |].
  change (join (lit ":") (t :: u :: l))
    with (t ++ lit ":" ++ join (lit ":") (u :: l)).
  rewrite !noSpace_app, (noSpace_clean _ Hc), (IH Hl'). reflexivity.
Qed.

Lemma indexOfFrom_found c s : forall i,
  0 <= i -> In c s -> 0 <= indexOfFrom c s i.
Proof.
  induction s as [| x s IH]; intros i Hi Hin; [destruct Hin |].
  simpl. destruct (eqc x c) eqn:E; [assumption |].
  simpl in Hin. destruct Hin as [-> | Hin].
  - unfold eqc in E. rewrite Ascii.eqb_refl in E. discriminate.
  - apply IH; [lia | assumption].
Qed.

Lemma indexOf_colon_zero s :
  (indexOf ":"%char s =? 0)
  = match s with c :: _ => isColon c | [] => false end.
Proof.
  destruct s as [| c s]; [reflexivity |].
  unfold indexOf. simpl. change (eqc c ":"%char) with (isColon c).
  destruct (isColon c); [reflexivity |].
  assert (H : forall u i, 0 < i -> indexOfFrom ":"%char u i <> 0).
  { induction u as [| x u IH]; intros i Hi; simpl; [lia |].
    destruct (eqc x ":"%char); [lia | apply IH; lia]. }
  apply Z.eqb_neq, H. lia.
Qed.

Lemma lastChar_snoc s c : lastChar (s ++ [c]) = Some c.
Proof. unfold lastChar. rewrite rev_app_distr. reflexivity. Qed.

Lemma lastChar_app a b : b <> [] -> lastChar (a ++ b) = lastChar b.
Proof.
  intros Hb. destruct (exists_last Hb) as (b' & c & ->).
  rewrite app_assoc, !lastChar_snoc. reflexivity.
Qed.

Lemma lastChar_clean t : t <> [] -> clean t = true ->
  exists c, lastChar t = Some c /\ isColon c = false.
Proof.
  intros Hne Hc. destruct (exists_last Hne) as (t' & c & ->).
  exists c. split; [apply lastChar_snoc |].
  unfold clean in Hc. rewrite forallb_app in Hc. apply andb_prop in Hc as [_ Hc].
  simpl in Hc. unfold cleanChar in Hc.
  destruct (isColon c); [discriminate | reflexivity].
Qed.

Lemma join_cons t l :
  l <> [] -> join (lit ":") (t :: l) = t ++ lit ":" ++ join (lit ":") l.
Proof. destruct l; [congruence | reflexivity]. Qed.

Lemma join_app l1 l2 :
  l1 <> [] -> l2 <> [] ->
  join (lit ":") (l1 ++ l2) = join (lit ":") l1 ++ lit ":" ++ join (lit ":") l2.
Proof.
  induction l1 as [| t l1 IH]; intros H1 H2; [congruence |].
  destruct l1 as [| u l1].
  - simpl app. rewrite join_cons by assumption. reflexivity.
  - change ((t :: u :: l1) ++ l2) with (t :: ((u :: l1) ++ l2)).
    rewrite join_cons by discriminate.
    rewrite IH by (discriminate || assumption).
    rewrite (join_cons t) by discriminate.
    rewrite <- !app_assoc. reflexivity.
Qed.

Lemma lastChar_join l :
  l <> [] -> Forall token l ->
  exists c, lastChar (join (lit ":") l) = Some c /\ isColon c = false.
Proof.
  intros Hne Hl. destruct (exists_last Hne) as (l' & t & ->).
  apply Forall_app in Hl as [_ Ht]. inversion Ht as [| ? ? [Hne' Hc] _]; subst.
  destruct l' as [| u l'].
  - simpl. apply lastChar_clean; assumption.
  - rewrite join_app by discriminate. simpl (join _ [t]).
    rewrite app_assoc, lastChar_app by assumption.
    apply lastChar_clean; assumption.
Qed.

Lemma zeros_tokens n : Forall token (zeros n).
Proof.
  apply Forall_forall. intros t Ht. apply repeat_spec in Ht. subst t.
  split; [discriminate | reflexivity].
Qed.

Lemma concat_zeros_join n l :
  l <> [] ->
  concat (repeat (lit "0:") n) ++ join (lit ":") l
  = join (lit ":") (zeros n ++ l).
Proof.
  intros Hl. induction n as [| n IH]; [reflexivity |].
  cbn [repeat concat zeros]. fold (zeros n).
  change ((lit "0" :: zeros n) ++ l) with (lit "0" :: (zeros n ++ l)).
  rewrite join_cons by (destruct (zeros n); [assumption | discriminate]).
  rewrite <- IH. rewrite <- !app_assoc. reflexivity.
Qed.

Lemma zeros_snoc n : zeros n ++ [lit "0"] = zeros (S n).
Proof.
  unfold zeros. change [lit "0"] with (repeat (lit "0") 1).
  rewrite <- repeat_app. f_equal. lia.
Qed.

Lemma makeReplacement_eq m :
  makeReplacement m = lit ":" ++ concat (repeat (lit "0:") (Z.to_nat m)).
Proof. reflexivity. Qed.

Lemma lastChar_replacement a n :
  lastChar (a ++ lit ":" ++ concat (repeat (lit "0:") n)) = Some ":"%char.
Proof.
  destruct n as [| n].
  - simpl concat. rewrite app_nil_r. apply lastChar_snoc.
  - replace (S n) with (n + 1)%nat by lia.
    rewrite repeat_app, concat_app. simpl (concat (repeat _ 1)).
    rewrite !app_assoc, lastChar_app by discriminate. reflexivity.
Qed.

Lemma isEmpty_false (s : str) : s <> [] -> isEmpty s = false.
Proof. destruct s; [congruence | reflexivity]. Qed.

Lemma patchEnds_eq x :
  patchEnds x
  = let y := if startsWithColon x then lit "0" ++ x else x in
    if endsWithColon y then y ++ lit "0" else y.
Proof.
  unfold patchEnds, endsWithColon. rewrite indexOf_colon_zero.
  fold (startsWithColon x). cbv zeta.
  destruct (lastChar _) as [c |]; reflexivity.
Qed.

Lemma startsWithColon_join l r :
  l <> [] -> Forall token l -> startsWithColon (join (lit ":") l ++ r) = false.
Proof.
  intros Hne Hl. destruct (join (lit ":") l) as [| d r'] eqn:E.
  - exfalso. revert E. apply join_nonempty; assumption.
  - simpl. eapply join_head; eassumption.
Qed.

Lemma endsWithColon_join a l :
  l <> [] -> Forall token l -> endsWithColon (a ++ join (lit ":") l) = false.
Proof.
  intros Hne Hl. unfold endsWithColon.
  rewrite lastChar_app by (apply join_nonempty; assumption).
  destruct (lastChar_join l Hne Hl) as (c & -> & Hc). exact Hc.
Qed.

Lemma endsWithColon_replacement a n :
  endsWithColon (a ++ lit ":" ++ concat (repeat (lit "0:") n)) = true.
Proof. unfold endsWithColon. rewrite lastChar_replacement. reflexivity. Qed.

Lemma patchEnds_cases x (hd tl : bool) :
  startsWithColon x = hd ->
  endsWithColon ((if hd then lit "0" else []) ++ x) = tl ->
  patchEnds x = (if hd then lit "0" else []) ++ x ++ (if tl then lit "0" else []).
Proof.
  intros Hhd Htl. rewrite patchEnds_eq. cbv zeta. rewrite Hhd.
  destruct hd; cbn [app] in Htl |- *; rewrite Htl; destruct tl;
    rewrite ?app_nil_r; reflexivity.
Qed.

(** What [patchEnds] makes of an expanded text. *)
Lemma patchEnds_expanded P Q n :
  Forall token P -> Forall token Q ->
  patchEnds (join (lit ":") P ++ (lit ":" ++ concat (repeat (lit "0:") n))
             ++ join (lit ":") Q)
  = join (lit ":")
      (P ++ zeros (n + (if isEmpty (join (lit ":") P) then 1 else 0)
                     + (if isEmpty (join (lit ":") Q) then 1 else 0)) ++ Q).
Proof.
  intros HP HQ.
  set (R := concat (repeat (lit "0:") n)).
  destruct P as [| p P]; destruct Q as [| q Q].
  - cbn [join app isEmpty]. rewrite !app_nil_r.
    rewrite (patchEnds_cases _ true true);
      [| reflexivity | apply (endsWithColon_replacement (lit "0") n)].
    change (lit "0" ++ (lit ":" ++ R) ++ lit "0")
      with (concat (repeat (lit "0:") (S n)) ++ join (lit ":") [lit "0"]).
    rewrite concat_zeros_join by discriminate.
    rewrite zeros_snoc. f_equal. f_equal. lia.
  - set (J := join (lit ":") (q :: Q)).
    assert (HJ : J <> []) by (apply join_nonempty; [discriminate | assumption]).
    rewrite (isEmpty_false J HJ).
    change (join (lit ":") []) with (@nil ascii). cbn [app isEmpty].
    rewrite (patchEnds_cases _ true false);
      [| reflexivity
       | rewrite app_assoc; apply endsWithColon_join; [discriminate | assumption]].
    rewrite app_nil_r.
    change (lit "0" ++ (lit ":" ++ R) ++ J)
      with (concat (repeat (lit "0:") (S n)) ++ J).
    unfold J. rewrite concat_zeros_join by discriminate.
    f_equal. f_equal. f_equal. lia.
  - set (JP := join (lit ":") (p :: P)).
    assert (HJ : JP <> []) by (apply join_nonempty; [discriminate | assumption]).
    rewrite (isEmpty_false JP HJ).
    change (join (lit ":") []) with (@nil ascii). cbn [isEmpty].
    rewrite !app_nil_r.
    rewrite (patchEnds_cases _ false true);
      [| apply startsWithColon_join; [discriminate | assumption]
       | apply (endsWithColon_replacement JP n)].
    cbn [app]. rewrite <- !app_assoc.
    change (lit "0") with (join (lit ":") [lit "0"]). fold R.
    unfold R. rewrite concat_zeros_join by discriminate.
    rewrite zeros_snoc.
    unfold JP. replace (n + 0 + 1)%nat with (S n) by lia.
    change (join (lit ":") (p :: P ++ ?z)) with (join (lit ":") ((p :: P) ++ z)).
    rewrite (join_app (p :: P)); [reflexivity | discriminate | discriminate].
  - set (JP := join (lit ":") (p :: P)).
    set (J := join (lit ":") (q :: Q)).
    assert (HJ : JP <> []) by (apply join_nonempty; [discriminate | assumption]).
    assert (HJ' : J <> []) by (apply join_nonempty; [discriminate | assumption]).
    rewrite (isEmpty_false JP HJ), (isEmpty_false J HJ').
    rewrite (patchEnds_cases _ false false);
      [| apply startsWithColon_join; [discriminate | assumption]
       | cbn [app]; rewrite !app_assoc; apply endsWithColon_join;
         [discriminate | assumption]].
    cbn [app]. rewrite app_nil_r, <- !app_assoc.
    unfold R, J, JP. rewrite concat_zeros_join by discriminate.
    change (join (lit ":") (p :: P ++ ?z)) with (join (lit ":") ((p :: P) ++ z)).
    rewrite (join_app (p :: P)); [| discriminate |].
    + rewrite !Nat.add_0_r. reflexivity.
    + destruct (zeros _); discriminate.
Qed.

Lemma isEmpty_join l :
  Forall token l -> isEmpty (join (lit ":") l) = noGroups l.
Proof.
  intros Hl. destruct l as [| u l]; [reflexivity |].
  apply isEmpty_false. apply join_nonempty; [discriminate | assumption].
Qed.

Lemma countColons_join_tokens l :
  Forall token l ->
  countColons (join (lit ":") l)
  = Z.of_nat (length l) - (if noGroups l then 0 else 1).
Proof.
  intros Hl. destruct l as [| u l]; [reflexivity |].
  rewrite countColons_join; [reflexivity | discriminate |].
  eapply Forall_impl; [| exact Hl]. intros a [_ Ha]. exact Ha.
Qed.

Lemma In_app_colons (a b : str) : In ":"%char (a ++ lit "::" ++ b).
Proof. apply in_or_app. right. left. reflexivity. Qed.

(** [normalize] on a text with one ["::"] between two runs of groups. *)
Lemma normalize_elided P Q (has : bool) :
  Forall token P -> Forall token Q ->
  (0 <? lastIndexOf "."%char (join (lit ":") P ++ lit "::" ++ join (lit ":") Q))
  = has ->
  (length P + length Q < (if has then 7 else 8))%nat ->
  normalize (join (lit ":") P ++ lit "::" ++ join (lit ":") Q)
  = Ok (has,
        join (lit ":")
          (P ++ zeros ((if has then 7 else 8) - length P - length Q) ++ Q)).
Proof.
  intros HP HQ Hhas Hlen.
  set (value := join (lit ":") P ++ lit "::" ++ join (lit ":") Q) in *.
  assert (Hns : noSpace value = true).
  { unfold value. rewrite !noSpace_app, !noSpace_join by assumption. reflexivity. }
  assert (Hcc : countColonColons value = 1).
  { unfold value. rewrite countColonColons_tidy_app by (apply tidy_join; assumption).
    rewrite tidy_countColonColons by (apply tidy_join; assumption). reflexivity. }
  assert (Hidx : (indexOf ":"%char value <? 0) = false).
  { apply Z.ltb_ge. apply indexOfFrom_found; [lia | apply In_app_colons]. }
  unfold normalize. rewrite (replaceSpace_noSpace _ Hns), Hhas, Hidx.
  cbn [bind]. rewrite Hcc.
  change (1 <? 1) with false. change (1 =? 1) with true. cbn [bind].
  f_equal. f_equal.
  unfold expandColonColons, value.
  rewrite replaceColonColons_tidy_app by (apply tidy_join; assumption).
  rewrite (tidy_replaceColonColons _ (join (lit ":") Q)) by (apply tidy_join; assumption).
  rewrite makeReplacement_eq, patchEnds_expanded by assumption.
  f_equal. f_equal. f_equal.
  rewrite !countColons_app, !countColons_join_tokens by assumption.
  rewrite !isEmpty_join by assumption.
  change (countColons (lit "::")) with 2.
  f_equal. clear value Hhas Hns Hcc Hidx HP HQ.
  destruct P, Q, has; cbn [noGroups length] in *; lia.
Qed.

Ltac each_char c := destruct c as [[] [] [] [] [] [] [] []].

Lemma isHexDigit_cleanChar c : isHexDigit c = true -> cleanChar c = true.
Proof. each_char c; intros H; try discriminate H; reflexivity. Qed.

Lemma isHexDigit_not_dot c : isHexDigit c = true -> eqc c "."%char = false.
Proof. each_char c; intros H; try discriminate H; reflexivity. Qed.

Lemma isDigit_isHexDigit c : isDigit c = true -> isHexDigit c = true.
Proof. unfold isHexDigit. intros ->. reflexivity. Qed.

Lemma forallb_impl {A} (p q : A -> bool) l :
  (forall x, p x = true -> q x = true) ->
  forallb p l = true -> forallb q l = true.
Proof.
  intros Hpq. induction l as [| x l IH]; [reflexivity |]. simpl.
  intros H. apply andb_prop in H as [H1 H2]. rewrite (Hpq _ H1), (IH H2). reflexivity.
Qed.

Lemma hexTok_token u g : hexTok u g -> token u.
Proof.
  intros (Hne & Hh & _). split; [assumption |].
  revert Hh. apply forallb_impl, isHexDigit_cleanChar.
Qed.

Lemma hexTok_tokens l G : Forall2 hexTok l G -> Forall token l.
Proof.
  induction 1; constructor; [eapply hexTok_token; eassumption | assumption].
Qed.

Lemma isFiniteNum_small z : 0 <= z <= 0xFFFF -> isFiniteNum z = true.
Proof.
  intros Hz. unfold isFiniteNum. apply Z.ltb_lt. rewrite Z.abs_eq by lia.
  apply Z.le_lt_trans with 0xFFFF; [lia | reflexivity].
Qed.

Lemma parseHex_tok u g : hexTok u g -> parseHex u = Ok g.
Proof.
  intros (Hne & Hh & Hp & Hg). unfold parseHex, HEXREGEX_test.
  rewrite (isEmpty_false u Hne), Hh, Hp, (isFiniteNum_small g Hg). reflexivity.
Qed.

Lemma hex4 g :
  0 <= g <= 0xFFFF ->
  padStart 4 "0"%char (toStringRadix 16 g) = fixedDigits 16 4 g.
Proof. intros Hg. apply padStart_toStringRadix; [lia | lia | simpl; lia]. Qed.

Lemma partLoop_tokens R G : forall h,
  Forall2 hexTok R G ->
  partLoop R h = Ok (concat (map (fixedDigits 16 4) (rev G)) ++ h).
Proof.
  intros h H. revert h. induction H as [| u g R G Hu _ IH]; intros h; [reflexivity |].
  cbn [partLoop]. pose proof Hu as (Hne & _ & _ & Hg).
  rewrite (isEmpty_false u Hne), (parseHex_tok u g Hu). cbn [tryCatch bind].
  replace ((g <? 0) || (65535 <? g)) with false
    by (symmetry; apply orb_false_iff; split; [apply Z.ltb_ge | apply Z.ltb_ge]; lia).
  cbn [throwIf bind]. rewrite IH, (hex4 g Hg).
  cbn [rev]. rewrite map_app, concat_app. cbn [map concat].
  rewrite app_nil_r, <- app_assoc. reflexivity.
Qed.

Lemma Forall2_rev {A B} (R : A -> B -> Prop) l l' :
  Forall2 R l l' -> Forall2 R (rev l) (rev l').
Proof.
  induction 1; [constructor |]. simpl. apply Forall2_app; [assumption |].
  constructor; [assumption | constructor].
Qed.

Lemma tokens_clean l : Forall token l -> Forall (fun u => clean u = true) l.
Proof. apply Forall_impl. intros a [_ Ha]. exact Ha. Qed.

Lemma concat_fixedDigits_length G :
  length (concat (map (fixedDigits 16 4) G)) = (4 * length G)%nat.
Proof.
  induction G as [| g G IH]; [reflexivity |].
  cbn [map concat length]. rewrite length_app, length_fixedDigits, IH by lia. lia.
Qed.

(** The second half of [fromString] on eight groups. *)
Lemma fromString_groups value L G :
  normalize value = Ok (false, join (lit ":") L) ->
  Forall2 hexTok L G -> length L = 8%nat ->
  fromString value = Ok (parseIntRadix 16 (concat (map (fixedDigits 16 4) G))).
Proof.
  intros Hn HL Hlen. unfold fromString. rewrite Hn. cbn [bind].
  unfold splitParts.
  rewrite split_join;
    [| destruct L; [discriminate | discriminate]
     | apply tokens_clean; eapply hexTok_tokens; eassumption].
  cbn [bind]. rewrite Hlen. cbn [length throwIf negb bind Z.of_nat].
  change (0 / 4 + Z.of_nat 8 =? 8) with true. cbn [negb throwIf bind].
  rewrite (partLoop_tokens (rev L) (rev G)) by (apply Forall2_rev; assumption).
  cbn [bind]. rewrite rev_involutive, app_nil_r.
  unfold bigIntOfHex.
  assert (Hlen' : length G = 8%nat)
    by (rewrite <- Hlen; symmetry; eapply Forall2_length; eassumption).
  rewrite isEmpty_false; [reflexivity |].
  intros E. apply (f_equal (@length ascii)) in E.
  rewrite concat_fixedDigits_length, Hlen' in E. discriminate.
Qed.

(** * The groups of an address *)

Lemma length_chunksRev m k : forall v, length (chunksRev m k v) = k.
Proof. induction k; intros v; simpl; [reflexivity | rewrite IHk; reflexivity]. Qed.

Lemma chunksRev_range m k : 0 < m -> forall v,
  Forall (fun g => 0 <= g < m) (chunksRev m k v).
Proof.
  intros Hm. induction k as [| k IH]; intros v; simpl; constructor; [| apply IH].
  apply Z.mod_pos_bound. lia.
Qed.

Lemma fixedDigits_chunks w k : forall v,
  fixedDigits 16 (w * k) v
  = concat (map (fixedDigits 16 w) (rev (chunksRev (16 ^ Z.of_nat w) k v))).
Proof.
  induction k as [| k IH]; intros v.
  - rewrite Nat.mul_0_r. reflexivity.
  - replace (w * S k)%nat with (w * k + w)%nat by lia.
    rewrite fixedDigits_app by lia.
    cbn [chunksRev rev]. rewrite map_app, concat_app, IH.
    cbn [map concat]. rewrite app_nil_r. f_equal.
    symmetry. apply (fixedDigits_mod 16 ltac:(lia) w).
Qed.

Lemma length_groupsOf v : length (groupsOf v) = 8%nat.
Proof. unfold groupsOf. rewrite length_rev. apply length_chunksRev. Qed.

Lemma groupsOf_range v : Forall (fun g => 0 <= g <= 0xFFFF) (groupsOf v).
Proof.
  unfold groupsOf. apply Forall_rev.
  eapply Forall_impl; [| apply (chunksRev_range 65536 8); lia].
  simpl. intros. lia.
Qed.

Lemma bytesOf_range x : Forall (fun b => 0 <= b <= 255) (bytesOf x).
Proof.
  unfold bytesOf. apply Forall_rev.
  eapply Forall_impl; [| apply (chunksRev_range 256 4); lia].
  simpl. intros. lia.
Qed.

Lemma bytesOf_four x : exists b0 b1 b2 b3, bytesOf x = [b0; b1; b2; b3].
Proof. unfold bytesOf. simpl. eauto. Qed.

Lemma hexStr_groups v :
  0 <= v <= MAX ->
  padStart 32 "0"%char (toStringRadix 16 v)
  = concat (map (fixedDigits 16 4) (groupsOf v)).
Proof.
  intros Hv. unfold MAX in Hv.
  rewrite padStart_toStringRadix; [| lia | lia |].
  - apply (fixedDigits_chunks 4 8).
  - change (16 ^ Z.of_nat 32) with (2 ^ 128). lia.
Qed.

Lemma parse_groups v :
  0 <= v <= MAX ->
  parseIntRadix 16 (concat (map (fixedDigits 16 4) (groupsOf v))) = v.
Proof.
  intros Hv. unfold groupsOf.
  change 65536 with (16 ^ Z.of_nat 4). rewrite <- (fixedDigits_chunks 4 8).
  rewrite parseIntRadix_fixedDigits by lia.
  unfold MAX in Hv. apply Z.mod_small.
  change (16 ^ Z.of_nat (4 * 8)) with (2 ^ 128). lia.
Qed.

(** [matchHex] cuts a text of digits in pieces. *)
Lemma matchHexRuns_chunks n chunks : forall fuel,
  (0 < n)%nat ->
  Forall (fun u => length u = n /\ forallb isHexDigit u = true) chunks ->
  (length chunks <= fuel)%nat ->
  matchHexRuns n fuel (concat chunks) = chunks.
Proof.
  induction chunks as [| u chunks IH]; intros fuel Hn Hc Hf.
  - destruct fuel; reflexivity.
  - inversion Hc as [| ? ? [Hl Hh] Hc']; subst.
    destruct fuel as [| fuel]; [simpl in Hf; lia |].
    cbn [concat matchHexRuns].
    destruct (u ++ concat chunks) as [| c r] eqn:E.
    { apply (f_equal (@length ascii)) in E. rewrite length_app in E.
      simpl in E. lia. }
    rewrite <- E.
    rewrite length_app, firstn_app, skipn_app.
    replace (length u - length u)%nat with 0%nat by lia.
    rewrite firstn_all, skipn_all. cbn [firstn skipn app].
    rewrite app_nil_r, Hh.
    replace (length u <=? length u + length (concat chunks))%nat with true
      by (symmetry; apply Nat.leb_le; lia).
    cbn [andb]. f_equal. apply IH; [assumption | assumption | simpl in Hf; lia].
Qed.

Lemma matchHex_groups G :
  matchHex 4 (concat (map (fixedDigits 16 4) G)) = map (fixedDigits 16 4) G.
Proof.
  unfold matchHex. apply matchHexRuns_chunks; [lia | |].
  - apply Forall_forall. intros u Hu. apply in_map_iff in Hu as (g & <- & _).
    split; [apply length_fixedDigits |].
    apply fixedDigits_forallb;
      [lia | intros d Hd; apply isHexDigit_digitChar; lia].
  - rewrite concat_fixedDigits_length, length_map. lia.
Qed.

Lemma parse_fixed4 g :
  0 <= g <= 0xFFFF -> parseIntRadix 16 (fixedDigits 16 4 g) = g.
Proof.
  intros Hg. rewrite parseIntRadix_fixedDigits by lia.
  apply Z.mod_small. change (16 ^ Z.of_nat 4) with 65536. lia.
Qed.

Lemma map_parse_fixed4 G :
  Forall (fun g => 0 <= g <= 0xFFFF) G ->
  map (parseIntRadix 16) (map (fixedDigits 16 4) G) = G.
Proof.
  induction 1 as [| g G Hg _ IH]; [reflexivity |].
  cbn [map]. rewrite (parse_fixed4 g Hg), IH. reflexivity.
Qed.

(** ** The loop that looks for the zero parts *)

Lemma allZero_snoc done part from len :
  0 <= from -> from + len <= Z.of_nat (length done) ->
  allZero done from len -> allZero (done ++ [part]) from len.
Proof.
  intros Hf Hl H j Hj. rewrite app_nth1 by lia. apply H. exact Hj.
Qed.

Lemma allZero_snoc_zero done from len :
  0 <= from -> from + len = Z.of_nat (length done) ->
  allZero done from len -> allZero (done ++ [0]) from (len + 1).
Proof.
  intros Hf Hl H j Hj.
  destruct (Z_lt_le_dec j (Z.of_nat (length done))) as [Hlt | Hge].
  - rewrite app_nth1 by lia. apply H. lia.
  - assert (Z.to_nat j = length done) by lia.
    rewrite app_nth2 by lia. replace (Z.to_nat j - length done)%nat with 0%nat by lia.
    reflexivity.
Qed.

Lemma streakStep_ok done st part :
  streaksOk done st ->
  streaksOk (done ++ [part]) (streakStep st (Z.of_nat (length done)) part).
Proof.
  intros [Hr Hn Hs Hln Hls]. unfold streakStep.
  destruct (part =? 0) eqn:Ep.
  - apply Z.eqb_eq in Ep. subst part.
    assert (Hstart :
      (if current_start st <? 0 then Z.of_nat (length done) else current_start st)
      = Z.of_nat (length done) - current_streak st
      /\ allZero (done ++ [0]) (Z.of_nat (length done) - current_streak st)
           (current_streak st + 1)).
    { destruct (Z.eq_dec (current_streak st) 0) as [E0 | E0].
      - rewrite (Hn E0), E0. change (-1 <? 0) with true. cbv iota. split; [lia |].
        intros j Hj. assert (Z.to_nat j = length done) by lia.
        rewrite app_nth2 by lia.
        replace (Z.to_nat j - length done)%nat with 0%nat by lia. reflexivity.
      - destruct Hs as [Hs1 Hs2]; [lia |].
        replace (current_start st <? 0) with false by (symmetry; apply Z.ltb_ge; lia).
        split; [exact Hs1 |]. rewrite <- Hs1.
        apply allZero_snoc_zero; [lia | lia | exact Hs2]. }
    destruct Hstart as [Hstart Hzero]. rewrite Hstart.
    destruct (current_streak st + 1 >? longest_streak st) eqn:Eg.
    + constructor; cbn [current_streak current_start longest_streak longest_start];
        rewrite ?length_app; cbn [length]; try lia.
      * intros _. split; [lia | exact Hzero].
      * intros _. split; [lia |]. split; [lia | exact Hzero].
    + constructor; cbn [current_streak current_start longest_streak longest_start];
        rewrite ?length_app; cbn [length]; try lia.
      * intros _. split; [lia | exact Hzero].
      * intros Hl. destruct (Hls Hl) as (H1 & H2 & H3).
        split; [lia |]. split; [lia |]. apply allZero_snoc; assumption.
  - constructor; cbn [current_streak current_start longest_streak longest_start];
      rewrite ?length_app; cbn [length]; try lia.
    intros Hl. destruct (Hls Hl) as (H1 & H2 & H3).
    split; [lia |]. split; [lia |]. apply allZero_snoc; assumption.
Qed.

Lemma streakLoop_ok rest : forall done st,
  streaksOk done st ->
  streaksOk (done ++ rest) (streakLoop (Z.of_nat (length done)) rest st).
Proof.
  induction rest as [| part rest IH]; intros done st H.
  - rewrite app_nil_r. exact H.
  - cbn [streakLoop].
    replace (Z.of_nat (length done) + 1) with (Z.of_nat (length (done ++ [part])))
      by (rewrite length_app; simpl; lia).
    replace (done ++ part :: rest) with ((done ++ [part]) ++ rest)
      by (rewrite <- app_assoc; reflexivity).
    apply IH, streakStep_ok, H.
Qed.

Lemma noStreak_ok : streaksOk [] noStreak.
Proof. constructor; simpl; try lia; intros; lia. Qed.

Lemma streakLoop_run parts :
  let st := streakLoop 0 parts noStreak in
  1 < longest_streak st ->
  0 <= longest_start st
  /\ longest_start st + longest_streak st <= Z.of_nat (length parts)
  /\ allZero parts (longest_start st) (longest_streak st).
Proof.
  intros st Hl. pose proof (streakLoop_ok parts [] noStreak noStreak_ok) as H.
  change (streaksOk parts st) in H.
  apply (longest_some _ _ H). lia.
Qed.

Lemma lastIndexOfFrom_noDot s : forall i found,
  noDot s = true -> lastIndexOfFrom "."%char s i found = found.
Proof.
  induction s as [| c s IH]; intros i found H; [reflexivity |].
  simpl in H. apply andb_prop in H as [H1 H2]. apply negb_true_iff in H1.
  simpl. rewrite H1. apply IH. exact H2.
Qed.

Lemma hasIPv4_noDot s :
  noDot s = true -> (0 <? lastIndexOf "."%char s) = false.
Proof. intros H. unfold lastIndexOf. rewrite lastIndexOfFrom_noDot by assumption. reflexivity. Qed.

Lemma noDot_app a b : noDot (a ++ b) = noDot a && noDot b.
Proof. apply forallb_app. Qed.

Lemma noDot_join l :
  Forall (fun u => noDot u = true) l -> noDot (join (lit ":") l) = true.
Proof.
  induction 1 as [| u l Hu Hl IH]; [reflexivity |].
  destruct l as [| w l]; [exact Hu |].
  change (join (lit ":") (u :: w :: l))
    with (u ++ lit ":" ++ join (lit ":") (w :: l)).
  rewrite !noDot_app, Hu, IH. reflexivity.
Qed.

Lemma hexTok_noDot u g : hexTok u g -> noDot u = true.
Proof.
  intros (_ & Hh & _). revert Hh. apply forallb_impl.
  intros c Hc. rewrite (isHexDigit_not_dot c Hc). reflexivity.
Qed.

Lemma hexToks_noDot l G : Forall2 hexTok l G -> Forall (fun u => noDot u = true) l.
Proof. induction 1; constructor; [eapply hexTok_noDot; eassumption | assumption]. Qed.

Lemma hexTok_toString g : 0 <= g <= 0xFFFF -> hexTok (toStringRadix 16 g) g.
Proof.
  intros Hg. split; [apply toStringRadix_nonempty; lia |].
  split; [| split; [apply parseIntRadix_toStringRadix; lia | exact Hg]].
  apply toStringRadix_forallb; [lia | | lia].
  intros d Hd. apply isHexDigit_digitChar. lia.
Qed.

Lemma hexTok_fixed g : 0 <= g <= 0xFFFF -> hexTok (fixedDigits 16 4 g) g.
Proof.
  intros Hg. split.
  - intros E. apply (f_equal (@length ascii)) in E.
    rewrite length_fixedDigits in E. discriminate.
  - split; [| split; [apply parse_fixed4; exact Hg | exact Hg]].
    apply fixedDigits_forallb; [lia |].
    intros d Hd. apply isHexDigit_digitChar. lia.
Qed.

Lemma hexToks_map (f : Z -> str) G :
  (forall g, 0 <= g <= 0xFFFF -> hexTok (f g) g) ->
  Forall (fun g => 0 <= g <= 0xFFFF) G -> Forall2 hexTok (map f G) G.
Proof.
  intros Hf. induction 1 as [| g G Hg _ IH]; constructor; [apply Hf, Hg | exact IH].
Qed.

Lemma hexToks_zeros n : Forall2 hexTok (zeros n) (repeat 0 n).
Proof.
  induction n as [| n IH]; constructor; [| exact IH].
  split; [discriminate |]. split; [reflexivity |]. split; [reflexivity | lia].
Qed.

(** [normalize] on a text of groups without ["::"]. *)
Lemma normalize_plain L :
  Forall token L -> (2 <= length L)%nat ->
  noDot (join (lit ":") L) = true ->
  normalize (join (lit ":") L) = Ok (false, join (lit ":") L).
Proof.
  intros HL Hlen Hdot.
  assert (Hne : L <> []) by (destruct L; [simpl in Hlen; lia | discriminate]).
  unfold normalize.
  rewrite (replaceSpace_noSpace _ (noSpace_join L HL)), (hasIPv4_noDot _ Hdot).
  assert (Hidx : (indexOf ":"%char (join (lit ":") L) <? 0) = false).
  { apply Z.ltb_ge. apply indexOfFrom_found; [lia |].
    destruct L as [| u [| w L]]; try (simpl in Hlen; lia).
    change (join (lit ":") (u :: w :: L))
      with (u ++ lit ":" ++ join (lit ":") (w :: L)).
    apply in_or_app. right. left. reflexivity. }
  rewrite Hidx. cbn [bind].
  rewrite (tidy_countColonColons _ (tidy_join L HL)).
  change (1 <? 0) with false. change (0 =? 1) with false. cbn [bind].
  f_equal. f_equal.
  rewrite (patchEnds_cases _ false false).
  - cbn [app]. apply app_nil_r.
  - destruct (join (lit ":") L) as [| d r] eqn:E.
    + exfalso. revert E. apply join_nonempty; assumption.
    + simpl. eapply join_head; eassumption.
  - cbn [app]. apply (endsWithColon_join [] L Hne HL).
Qed.

Lemma concat_map_after (f : Z -> str) l :
  concat (map (fun part => f part ++ lit ":") l)
  = join (lit ":") (map f l) ++ (if noGroups (map f l) then [] else lit ":").
Proof.
  induction l as [| x l IH]; [reflexivity |].
  cbn [map concat]. rewrite IH. cbn [noGroups].
  destruct l as [| y l]; [simpl; rewrite !app_nil_r; reflexivity |].
  cbn [map noGroups].
  change (join (lit ":") (f x :: f y :: map f l))
    with (f x ++ lit ":" ++ join (lit ":") (f y :: map f l)).
  rewrite <- !app_assoc. reflexivity.
Qed.

Lemma concat_map_before (f : Z -> str) l :
  concat (map (fun part => lit ":" ++ f part) l)
  = (if noGroups (map f l) then [] else lit ":") ++ join (lit ":") (map f l).
Proof.
  induction l as [| x l IH]; [reflexivity |].
  cbn [map concat]. rewrite IH. cbn [noGroups].
  destruct l as [| y l]; [simpl; rewrite !app_nil_r; reflexivity |].
  cbn [map noGroups].
  change (join (lit ":") (f x :: f y :: map f l))
    with (f x ++ lit ":" ++ join (lit ":") (f y :: map f l)).
  rewrite <- !app_assoc. reflexivity.
Qed.

Lemma allZero_run parts from len :
  (from + len <= length parts)%nat ->
  allZero parts (Z.of_nat from) (Z.of_nat len) ->
  parts = firstn from parts ++ repeat 0 len ++ skipn (from + len) parts.
Proof.
  intros Hlen Hz.
  rewrite <- (firstn_skipn from parts) at 1. f_equal.
  rewrite <- (firstn_skipn len (skipn from parts)) at 1.
  rewrite skipn_skipn, (Nat.add_comm len from). f_equal.
  apply nth_ext with (d := 1) (d' := 1).
  - rewrite repeat_length, length_firstn, length_skipn. lia.
  - intros k Hk. rewrite length_firstn, length_skipn in Hk.
    rewrite nth_firstn. replace (k <? len)%nat with true by (symmetry; apply Nat.ltb_lt; lia).
    rewrite nth_skipn, nth_repeat_lt by lia.
    specialize (Hz (Z.of_nat (from + k))).
    rewrite Nat2Z.id in Hz. apply Hz. lia.
Qed.

(** The [else] branch of [toIPv6String], on the groups of the value. *)
Lemma collapsed_groups a :
  0 <= value a <= MAX ->
  let parts := groupsOf (value a) in
  let st := streakLoop 0 parts noStreak in
  collapsed a
  = if longest_streak st <=? 1
    then join (lit ":") (map (fixedDigits 16 4) parts)
    else
      (if longest_start st =? 0 then lit ":" else [])
      ++ concat (map (fun part => toStringRadix 16 part ++ lit ":")
                   (firstn (Z.to_nat (longest_start st)) parts))
      ++ concat (map (fun part => lit ":" ++ toStringRadix 16 part)
                   (skipn (Z.to_nat (longest_start st + longest_streak st)) parts))
      ++ (if longest_start st + longest_streak st =? 8 then lit ":" else []).
Proof.
  intros Hv parts st. unfold collapsed.
  rewrite (hexStr_groups _ Hv), matchHex_groups. fold parts.
  rewrite (firstn_all2 (n := 8)) by (rewrite length_map; unfold parts; rewrite length_groupsOf; lia).
  rewrite (map_parse_fixed4 parts (groupsOf_range _)). fold st.
  reflexivity.
Qed.

Lemma Forall_firstn_skipn {A} (p : A -> Prop) n l :
  Forall p l -> Forall p (firstn n l) /\ Forall p (skipn n l).
Proof. intros H. apply Forall_app. rewrite firstn_skipn. exact H. Qed.

Lemma noGroups_map (f : Z -> str) l : noGroups (map f l) = match l with [] => true | _ => false end.
Proof. destruct l; reflexivity. Qed.

(** The text with ["::"], when the loop has found a run of two zero parts or
    more. *)
Lemma collapsed_elided a :
  0 <= value a <= MAX ->
  let parts := groupsOf (value a) in
  let st := streakLoop 0 parts noStreak in
  let start := Z.to_nat (longest_start st) in
  let len := Z.to_nat (longest_streak st) in
  1 < longest_streak st ->
  collapsed a
  = join (lit ":") (map (toStringRadix 16) (firstn start parts))
    ++ lit "::"
    ++ join (lit ":") (map (toStringRadix 16) (skipn (start + len) parts)).
Proof.
  intros Hv parts st start len E. rewrite (collapsed_groups a Hv). cbv zeta.
  fold parts. fold st.
  assert (Hlen : length parts = 8%nat) by apply length_groupsOf.
  destruct (streakLoop_run parts E) as (H0 & H8 & _). fold st in H0, H8.
  rewrite Hlen in H8.
  replace (longest_streak st <=? 1) with false by (symmetry; apply Z.leb_gt; exact E).
  replace (Z.to_nat (longest_start st + longest_streak st)) with (start + len)%nat
    by (unfold start, len; lia).
  fold start. rewrite concat_map_after, concat_map_before.
  set (P := map (toStringRadix 16) (firstn start parts)).
  set (Q := map (toStringRadix 16) (skipn (start + len) parts)).
  assert (HlP : length P = start).
  { unfold P. rewrite length_map, length_firstn. unfold start. lia. }
  assert (HlQ : (length Q = 8 - (start + len))%nat).
  { unfold Q. rewrite length_map, length_skipn. lia. }
  assert (Hs0 : (longest_start st =? 0) = noGroups P).
  { destruct P; cbn [noGroups length] in *; [apply Z.eqb_eq | apply Z.eqb_neq];
      unfold start in HlP; lia. }
  assert (Hs8 : (longest_start st + longest_streak st =? 8) = noGroups Q).
  { destruct Q; cbn [noGroups length] in *; [apply Z.eqb_eq | apply Z.eqb_neq];
      unfold start, len in HlQ; lia. }
  rewrite Hs0, Hs8. clear.
  destruct P, Q; cbn [noGroups]; rewrite ?app_nil_r, <- ?app_assoc; reflexivity.
Qed.

(** What [toIPv6String] writes without a dot-decimal part is read back as
    the same value. *)
Lemma fromString_collapsed a :
  0 <= value a <= MAX -> fromString (collapsed a) = Ok (value a).
Proof.
  intros Hv.
  set (parts := groupsOf (value a)).
  assert (Hlen : length parts = 8%nat) by apply length_groupsOf.
  assert (Hrange : Forall (fun g => 0 <= g <= 0xFFFF) parts) by apply groupsOf_range.
  set (st := streakLoop 0 parts noStreak).
  destruct (longest_streak st <=? 1) eqn:E.
  - rewrite (collapsed_groups a Hv). cbv zeta. fold parts. fold st. rewrite E.
    rewrite (fromString_groups _ (map (fixedDigits 16 4) parts) parts).
    + unfold parts. rewrite (parse_groups _ Hv). reflexivity.
    + assert (HT : Forall2 hexTok (map (fixedDigits 16 4) parts) parts)
        by (apply hexToks_map; [apply hexTok_fixed | exact Hrange]).
      apply normalize_plain.
      * eapply hexTok_tokens; exact HT.
      * rewrite length_map, Hlen. lia.
      * apply noDot_join. eapply hexToks_noDot; exact HT.
    + apply hexToks_map; [apply hexTok_fixed | exact Hrange].
    + rewrite length_map. exact Hlen.
  - apply Z.leb_gt in E. rewrite (collapsed_elided a Hv E). fold parts. fold st.
    destruct (streakLoop_run parts E) as (H0 & H8 & Hz). fold st in H0, H8, Hz.
    rewrite Hlen in H8.
    set (start := Z.to_nat (longest_start st)).
    set (len := Z.to_nat (longest_streak st)).
    assert (Hrun : parts = firstn start parts ++ repeat 0 len ++ skipn (start + len) parts).
    { apply allZero_run; [unfold start, len; lia |].
      unfold start, len. rewrite !Z2Nat.id by lia. exact Hz. }
    remember (map (toStringRadix 16) (firstn start parts)) as P eqn:EP.
    remember (map (toStringRadix 16) (skipn (start + len) parts)) as Q eqn:EQ.
    assert (HP : Forall2 hexTok P (firstn start parts)).
    { subst P. apply hexToks_map; [apply hexTok_toString |].
      apply (Forall_firstn_skipn _ start parts Hrange). }
    assert (HQ : Forall2 hexTok Q (skipn (start + len) parts)).
    { subst Q. apply hexToks_map; [apply hexTok_toString |].
      apply (Forall_firstn_skipn _ (start + len) parts Hrange). }
    assert (HlP : length P = start).
    { subst P. rewrite length_map, length_firstn. unfold start. lia. }
    assert (HlQ : (length Q = 8 - (start + len))%nat).
    { subst Q. rewrite length_map, length_skipn. lia. }
    rewrite (fromString_groups _ (P ++ zeros len ++ Q) parts).
    + unfold parts. rewrite (parse_groups _ Hv). reflexivity.
    + rewrite (normalize_elided P Q false).
      * replace (8 - length P - length Q)%nat with len
          by (rewrite HlP, HlQ; unfold start, len; lia).
        reflexivity.
      * eapply hexTok_tokens; exact HP.
      * eapply hexTok_tokens; exact HQ.
      * apply hasIPv4_noDot. rewrite !noDot_app.
        rewrite (noDot_join P), (noDot_join Q); [reflexivity | |];
          eapply hexToks_noDot; eassumption.
      * rewrite HlP, HlQ. unfold start, len. lia.
    + rewrite Hrun at 1.
      apply Forall2_app; [exact HP |]. apply Forall2_app; [apply hexToks_zeros | exact HQ].
    + rewrite !length_app, HlP, HlQ. unfold zeros. rewrite repeat_length.
      unfold start, len. lia.
Qed.

(** * Addresses of the IPv4 kind *)

(** ** The IPv4-mapped addresses *)

Lemma testbit_IPV4MASK n :
  0 <= n -> Z.testbit IPV4MASK n = (32 <=? n) && (n <? 128).
Proof.
  intros Hn. change IPV4MASK with (Z.shiftl (Z.ones 96) 32).
  destruct (Z_lt_le_dec n 32) as [Hlt | Hge].
  - rewrite Z.shiftl_spec_low by lia.
    replace (32 <=? n) with false by (symmetry; apply Z.leb_gt; lia). reflexivity.
  - rewrite Z.shiftl_spec by lia. rewrite Z.testbit_ones by lia.
    replace (32 <=? n) with true by (symmetry; apply Z.leb_le; lia).
    replace (0 <=? n - 32) with true by (symmetry; apply Z.leb_le; lia).
    cbn [andb]. destruct (Z_lt_le_dec n 128).
    + replace (n - 32 <? 96) with true by (symmetry; apply Z.ltb_lt; lia).
      replace (n <? 128) with true by (symmetry; apply Z.ltb_lt; lia). reflexivity.
    + replace (n - 32 <? 96) with false by (symmetry; apply Z.ltb_ge; lia).
      replace (n <? 128) with false by (symmetry; apply Z.ltb_ge; lia). reflexivity.
Qed.

Lemma land_IPV4MASK v :
  0 <= v <= MAX -> Z.land IPV4MASK v = (v / 2 ^ 32) * 2 ^ 32.
Proof.
  intros Hv. unfold MAX in Hv.
  rewrite <- Z.shiftr_div_pow2, <- Z.shiftl_mul_pow2 by lia.
  apply Z.bits_inj'. intros n Hn.
  rewrite Z.land_spec, testbit_IPV4MASK by assumption.
  destruct (Z_lt_le_dec n 32) as [Hlt | Hge].
  - rewrite Z.shiftl_spec_low by lia.
    replace (32 <=? n) with false by (symmetry; apply Z.leb_gt; lia). reflexivity.
  - rewrite Z.shiftl_spec, Z.shiftr_spec by lia.
    replace (n - 32 + 32) with n by lia.
    replace (32 <=? n) with true by (symmetry; apply Z.leb_le; lia).
    cbn [andb]. destruct (Z_lt_le_dec n 128).
    + replace (n <? 128) with true by (symmetry; apply Z.ltb_lt; lia). reflexivity.
    + replace (n <? 128) with false by (symmetry; apply Z.ltb_ge; lia).
      cbn [andb]. symmetry.
      destruct (Z.eq_dec v 0) as [-> | Hne]; [apply Z.bits_0 |].
      apply Z.bits_above_log2; [lia |].
      apply Z.log2_lt_pow2; [lia |].
      apply Z.lt_le_trans with (2 ^ 128); [lia |].
      apply Z.pow_le_mono_r; lia.
Qed.

(** An address is IPv4 when its upper 96 bits are those of [::ffff:0:0]. *)
Lemma isIPv4_upper v :
  0 <= v <= MAX ->
  (IPV4PREFIX =? Z.land IPV4MASK v) = (v / 2 ^ 32 =? 0xFFFF).
Proof.
  intros Hv. rewrite (land_IPV4MASK v Hv).
  change IPV4PREFIX with (0xFFFF * 2 ^ 32).
  destruct (v / 2 ^ 32 =? 65535) eqn:E.
  - apply Z.eqb_eq in E. rewrite E. reflexivity.
  - apply Z.eqb_neq in E. apply Z.eqb_neq. lia.
Qed.

Section High.
Variable radix : Z.
Hypothesis radix_ge : 2 <= radix.

Lemma toStringRadix_high n : forall q r,
  0 < q -> 0 <= r < radix ^ Z.of_nat n ->
  toStringRadix radix (q * radix ^ Z.of_nat n + r)
  = toStringRadix radix q ++ fixedDigits radix n r.
Proof.
  induction n as [| n IH]; intros q r Hq Hr.
  - simpl in Hr. assert (r = 0) by lia. subst r.
    simpl. rewrite app_nil_r. f_equal. lia.
  - rewrite Nat2Z.inj_succ, Z.pow_succ_r in * by lia.
    cbn [fixedDigits].
    assert (Hd : 0 <= r mod radix < radix) by (apply Z.mod_pos_bound; lia).
    assert (Hr' : 0 <= r / radix < radix ^ Z.of_nat n).
    { split; [apply Z.div_pos; lia | apply Z.div_lt_upper_bound; lia]. }
    replace (q * (radix * radix ^ Z.of_nat n) + r)
      with ((q * radix ^ Z.of_nat n + r / radix) * radix + r mod radix)
      by (rewrite (Z.div_mod r radix) at 3 by lia; ring).
    assert (0 <= radix ^ Z.of_nat n) by (apply Z.pow_nonneg; lia).
    rewrite (toStringRadix_step radix radix_ge) by (try assumption; nia).
    rewrite IH by assumption. rewrite <- app_assoc. reflexivity.
Qed.
End High.

Lemma toString_mapped v :
  0 <= v <= MAX -> v / 2 ^ 32 = 0xFFFF ->
  toStringRadix 16 v
  = lit "ffff" ++ concat (map (fixedDigits 16 2) (bytesOf v)).
Proof.
  intros Hv Hhi.
  rewrite (Z.div_mod v (2 ^ 32)) at 1 by lia. rewrite Hhi, Z.mul_comm.
  change (2 ^ 32) with (16 ^ Z.of_nat 8).
  rewrite (toStringRadix_high 16 ltac:(lia) 8) by (try apply Z.mod_pos_bound; lia).
  change (toStringRadix 16 65535) with (lit "ffff"). f_equal.
  rewrite (fixedDigits_mod 16 ltac:(lia) 8).
  apply (fixedDigits_chunks 2 4).
Qed.

Lemma split_one c u : noChar c u = true -> split c u = [u].
Proof.
  induction u as [| x u IH]; intros H; [reflexivity |].
  simpl in H. apply andb_prop in H as [H1 H2]. apply negb_true_iff in H1.
  simpl. rewrite H1, (IH H2). reflexivity.
Qed.

Lemma split_more c u r :
  noChar c u = true -> split c (u ++ c :: r) = u :: split c r.
Proof.
  induction u as [| x u IH]; intros H.
  - simpl. unfold eqc. rewrite Ascii.eqb_refl. reflexivity.
  - simpl in H. apply andb_prop in H as [H1 H2]. apply negb_true_iff in H1.
    simpl. rewrite H1, (IH H2). reflexivity.
Qed.

Lemma isDigit_not_dot c : isDigit c = true -> negb (eqc c "."%char) = true.
Proof. each_char c; intros H; try discriminate H; reflexivity. Qed.

Lemma isDigit_cleanChar c : isDigit c = true -> cleanChar c = true.
Proof. each_char c; intros H; try discriminate H; reflexivity. Qed.

Lemma decTok_toString b : 0 <= b <= 255 -> decTok (toStringRadix 10 b) b.
Proof.
  intros Hb. split; [apply toStringRadix_nonempty; lia |].
  split; [| split; [apply parseIntRadix_toStringRadix; lia | exact Hb]].
  apply toStringRadix_forallb; [lia | | lia].
  intros d Hd. apply isDigit_digitChar. lia.
Qed.

Lemma parseDecimal_tok u b : decTok u b -> parseDecimal u = Ok b.
Proof.
  intros (Hne & Hd & Hp & Hb). unfold parseDecimal, DECREGEX_test.
  rewrite (isEmpty_false u Hne), Hd, Hp, isFiniteNum_small by lia. reflexivity.
Qed.

Lemma hex2 b :
  0 <= b <= 255 -> padStart 2 "0"%char (toStringRadix 16 b) = fixedDigits 16 2 b.
Proof. intros Hb. apply padStart_toStringRadix; [lia | lia | simpl; lia]. Qed.

Lemma quadLoop_tokens quads : forall bytes hexStr,
  Forall2 decTok quads bytes ->
  quadLoop (length quads) quads hexStr
  = Ok (hexStr ++ concat (map (fixedDigits 16 2) bytes)).
Proof.
  intros bytes hexStr H. revert hexStr.
  induction H as [| u b quads bytes Hu _ IH]; intros hexStr.
  - simpl. rewrite app_nil_r. reflexivity.
  - cbn [length quadLoop]. pose proof Hu as (_ & _ & _ & Hb).
    rewrite (parseDecimal_tok u b Hu). cbn [tryCatch bind].
    replace ((b <? 0) || (255 <? b)) with false
      by (symmetry; apply orb_false_iff; split; apply Z.ltb_ge; lia).
    cbn [throwIf bind]. rewrite IH, (hex2 b Hb).
    cbn [map concat]. rewrite <- app_assoc. reflexivity.
Qed.

Lemma decTok_noDot u b : decTok u b -> noChar "."%char u = true.
Proof. intros (_ & Hd & _). revert Hd. apply forallb_impl, isDigit_not_dot. Qed.

Lemma decTok_clean u b : decTok u b -> clean u = true.
Proof. intros (_ & Hd & _). revert Hd. apply forallb_impl, isDigit_cleanChar. Qed.

Lemma split_dotted b0 b1 b2 b3 :
  Forall (fun b => 0 <= b <= 255) [b0; b1; b2; b3] ->
  split "."%char (dotted [b0; b1; b2; b3])
  = map (toStringRadix 10) [b0; b1; b2; b3].
Proof.
  intros H. inversion H as [| ? ? H0 H']; subst. inversion H' as [| ? ? H1 H'']; subst.
  inversion H'' as [| ? ? H2 H''']; subst. inversion H''' as [| ? ? H3 _]; subst.
  unfold dotted. cbn [map join]. change (lit ".") with ["."%char]. cbn [app].
  rewrite !split_more, split_one;
    try (eapply decTok_noDot; apply decTok_toString; assumption).
  reflexivity.
Qed.

Lemma dotted_token b0 b1 b2 b3 :
  Forall (fun b => 0 <= b <= 255) [b0; b1; b2; b3] ->
  token (dotted [b0; b1; b2; b3]).
Proof.
  intros H. inversion H as [| ? ? H0 H']; subst. inversion H' as [| ? ? H1 H'']; subst.
  inversion H'' as [| ? ? H2 H''']; subst. inversion H''' as [| ? ? H3 _]; subst.
  unfold dotted. cbn [map join]. split.
  - intros E. apply app_eq_nil in E as [E _]. revert E.
    apply toStringRadix_nonempty; lia.
  - rewrite !clean_app.
    rewrite (decTok_clean _ _ (decTok_toString _ H0)),
      (decTok_clean _ _ (decTok_toString _ H1)),
      (decTok_clean _ _ (decTok_toString _ H2)),
      (decTok_clean _ _ (decTok_toString _ H3)).
    reflexivity.
Qed.

Lemma toIPv4String_mapped a :
  0 <= value a <= MAX -> isIPv4_ a = true ->
  toIPv4String (OfIPv6 a) = Ok (dotted (bytesOf (value a))).
Proof.
  intros Hv H4. unfold toIPv4String. cbn [from bind]. rewrite H4.
  unfold isIPv4_ in H4. rewrite (isIPv4_upper _ Hv) in H4. apply Z.eqb_eq in H4.
  rewrite (toString_mapped _ Hv H4).
  change (lit "ffff" ++ ?x) with (concat (lit "ff" :: lit "ff" :: nil) ++ x).
  rewrite <- concat_app.
  destruct (bytesOf_four (value a)) as (b0 & b1 & b2 & b3 & Eb).
  pose proof (bytesOf_range (value a)) as Hr. rewrite Eb in *.
  unfold matchHex. rewrite matchHexRuns_chunks.
  - unfold sliceLast. cbn [app map length Nat.sub skipn quadText nth_error].
    rewrite !parseIntRadix_fixedDigits by lia.
    change (16 ^ Z.of_nat 2) with 256.
    inversion Hr as [| ? ? H0 H']; subst. inversion H' as [| ? ? H1 H'']; subst.
    inversion H'' as [| ? ? H2 H''']; subst. inversion H''' as [| ? ? H3 _]; subst.
    rewrite !Z.mod_small by lia. reflexivity.
  - lia.
  - apply Forall_app. split.
    + repeat constructor.
    + apply Forall_forall. intros u Hu. apply in_map_iff in Hu as (g & <- & _).
      split; [apply length_fixedDigits |].
      apply fixedDigits_forallb; [lia | intros d Hd; apply isHexDigit_digitChar; lia].
  - rewrite concat_app, !length_app. cbn [map concat length app]. 
    rewrite !length_app, !length_fixedDigits. simpl. lia.
Qed.

Lemma lastIndexOfFrom_bounds c s : forall i found,
  found < i ->
  lastIndexOfFrom c s i found = found \/ i <= lastIndexOfFrom c s i found.
Proof.
  induction s as [| x s IH]; intros i found Hf; [left; reflexivity |].
  simpl. destruct (eqc x c).
  - right. destruct (IH (i + 1) i) as [-> | H]; lia.
  - destruct (IH (i + 1) found) as [H | H]; [lia | left; exact H | right; lia].
Qed.

Lemma lastIndexOfFrom_found c s : forall i found,
  found < i -> In c s -> i <= lastIndexOfFrom c s i found.
Proof.
  induction s as [| x s IH]; intros i found Hf Hin; [destruct Hin |].
  simpl. destruct (eqc x c) eqn:E.
  - destruct (lastIndexOfFrom_bounds c s (i + 1) i) as [-> | H]; lia.
  - simpl in Hin. destruct Hin as [-> | Hin].
    + unfold eqc in E. rewrite Ascii.eqb_refl in E. discriminate.
    + specialize (IH (i + 1) found ltac:(lia) Hin). lia.
Qed.

Lemma hasIPv4_found x s :
  In "."%char s -> (0 <? lastIndexOf "."%char (x :: s)) = true.
Proof.
  intros Hin. apply Z.ltb_lt. unfold lastIndexOf. cbn [lastIndexOfFrom].
  pose proof (lastIndexOfFrom_found "."%char s (0 + 1)
                (if eqc x "."%char then 0 else -1)
                ltac:(destruct (eqc x "."%char); lia) Hin). lia.
Qed.

Lemma hexTok_ffff : hexTok (lit "ffff") 0xFFFF.
Proof. repeat split; try reflexivity; try discriminate. Qed.

(** The text of an IPv4-mapped address is read back as the same value. *)
Lemma fromString_mapped a :
  0 <= value a <= MAX -> isIPv4_ a = true ->
  fromString (lit "::ffff:" ++ dotted (bytesOf (value a))) = Ok (value a).
Proof.
  intros Hv H4.
  unfold isIPv4_ in H4. rewrite (isIPv4_upper _ Hv) in H4. apply Z.eqb_eq in H4.
  destruct (bytesOf_four (value a)) as (b0 & b1 & b2 & b3 & Eb).
  pose proof (bytesOf_range (value a)) as Hr.
  assert (Hhex : concat (map (fixedDigits 16 2) (bytesOf (value a)))
                 = fixedDigits 16 8 (value a))
    by (symmetry; apply (fixedDigits_chunks 2 4)).
  rewrite Eb in *.
  set (quad := dotted [b0; b1; b2; b3]).
  assert (Hquad : token quad) by (apply dotted_token; exact Hr).
  assert (Hn : normalize (lit "::ffff:" ++ quad)
               = Ok (true, join (lit ":") (zeros 5 ++ [lit "ffff"; quad]))).
  { apply (normalize_elided [] [lit "ffff"; quad] true).
    - constructor.
    - constructor; [eapply hexTok_token; apply hexTok_ffff |].
      constructor; [exact Hquad | constructor].
    - apply hasIPv4_found.
      change (In "."%char (lit ":ffff:" ++ quad)). apply in_or_app. right.
      unfold quad, dotted. cbn [map join]. apply in_or_app. right. left. reflexivity.
    - simpl. lia. }
  unfold fromString. rewrite Hn. cbn [bind]. unfold splitParts.
  rewrite split_join.
  - cbn [zeros repeat app last removelast].
    unfold quad. rewrite (split_dotted _ _ _ _ Hr). fold quad.
    cbn [map length Nat.eqb negb throwIf bind].
    rewrite (quadLoop_tokens
               (map (toStringRadix 10) [b0; b1; b2; b3]) [b0; b1; b2; b3]);
      [| clear - Hr; induction Hr; constructor;
         [apply decTok_toString; assumption | assumption]].
    cbn [bind app]. rewrite Hhex, length_fixedDigits.
    change (Z.of_nat 8 / 4 + Z.of_nat (length (repeat (lit "0") 5 ++ [lit "ffff"])) =? 8)
      with true.
    cbn [negb throwIf bind].
    rewrite (partLoop_tokens _ (rev [0; 0; 0; 0; 0; 0xFFFF])).
    + cbn [bind]. unfold bigIntOfHex.
      rewrite rev_involutive.
      change (concat (map (fixedDigits 16 4) [0; 0; 0; 0; 0; 65535]))
        with (fixedDigits 16 24 0xFFFF).
      rewrite <- H4.
      change (2 ^ 32) with (16 ^ Z.of_nat 8).
      rewrite <- (fixedDigits_app 16 ltac:(lia) 24 8).
      rewrite isEmpty_false.
      * rewrite parseIntRadix_fixedDigits by lia.
        rewrite Z.mod_small; [reflexivity |].
        unfold MAX in Hv. change (16 ^ Z.of_nat (24 + 8)) with (2 ^ 128). lia.
      * intros E. apply (f_equal (@length ascii)) in E.
        rewrite length_fixedDigits in E. discriminate.
    + apply Forall2_rev.
      repeat (constructor; [first [apply hexTok_ffff
                                  | repeat split; try reflexivity; try discriminate; lia] |]).
      constructor.
  - destruct (zeros 5); discriminate.
  - apply tokens_clean. apply Forall_app. split; [apply zeros_tokens |].
    constructor; [eapply hexTok_token; apply hexTok_ffff |].
    constructor; [exact Hquad | constructor].
Qed.

(** * Properties of the IPv6 class *)

Lemma new_valid x a : new x = Ok a -> 0 <= value a <= MAX.
Proof.
  unfold new. destruct (toBigInt x) as [v | e]; [| discriminate]. cbn [bind].
  destruct (MAX <? v) eqn:E1; [discriminate |].
  destruct (v <? ZERO) eqn:E2; [discriminate |].
  intros H. injection H as <-. cbn [value].
  apply Z.ltb_ge in E1, E2. unfold ZERO in E2. lia.
Qed.

Lemma new_of_string text a :
  0 <= value a <= MAX -> fromString text = Ok (value a) ->
  new (Some (OfString text)) = Ok a.
Proof.
  intros Hv H. unfold new. cbn [toBigInt]. rewrite H. cbn [bind].
  replace (MAX <? value a) with false by (symmetry; apply Z.ltb_ge; lia).
  replace (value a <? ZERO) with false by (symmetry; apply Z.ltb_ge; unfold ZERO; lia).
  destruct a. reflexivity.
Qed.

Lemma toIPv6String_valid a :
  0 <= value a <= MAX ->
  toIPv6String (OfIPv6 a) true
  = Ok (if isIPv4_ a then lit "::ffff:" ++ dotted (bytesOf (value a))
        else collapsed a).
Proof.
  intros Hv. unfold toIPv6String. cbn [from bind].
  destruct (isIPv4_ a) eqn:E; cbn [andb]; [| reflexivity].
  rewrite (toIPv4String_mapped a Hv E). reflexivity.
Qed.

Lemma roundtrip_valid a :
  0 <= value a <= MAX ->
  exists text, toIPv6String (OfIPv6 a) true = Ok text
               /\ new (Some (OfString text)) = Ok a.
Proof.
  intros Hv. rewrite (toIPv6String_valid a Hv). eexists. split; [reflexivity |].
  apply new_of_string; [exact Hv |].
  destruct (isIPv4_ a) eqn:E.
  - apply fromString_mapped; assumption.
  - apply fromString_collapsed; assumption.
Qed.

(** C2. For every string [s] that the parser accepts, [toIPv6String] of the
    address made from [s] succeeds, and the address made from that text is
    the same address: it holds the same 128-bit value. *)
Theorem roundtrip s a :
  new (Some (OfString s)) = Ok a ->
  exists text,
    toIPv6String (OfIPv6 a) true = Ok text
    /\ new (Some (OfString text)) = Ok a.
Proof. intros H. apply roundtrip_valid. eapply new_valid. exact H. Qed.

Lemma roundtrip_witness :
  exists a text,
    new (Some (OfString (lit "1:0:0:4:0:0:0:8"))) = Ok a
    /\ toIPv6String (OfIPv6 a) true = Ok text
    /\ new (Some (OfString text)) = Ok a.
Proof.
  exists (mk 0x00010000000000040000000000000008).
  destruct (roundtrip (lit "1:0:0:4:0:0:0:8")
              (mk 0x00010000000000040000000000000008) eq_refl) as (text & H1 & H2).
  exists text. split; [reflexivity | split; assumption].
Defined.

Lemma dotted_bytesOf v : dotted (bytesOf v) = dotDecimal v.
Proof.
  unfold dotted, bytesOf, dotDecimal. cbn [chunksRev rev app map join].
  rewrite !Z.div_div by lia. reflexivity.
Qed.

Lemma toString_not_IPv4 a :
  isIPv4_ a = false ->
  toString a = Ok (collapsed a)
  /\ toIPv6String (OfIPv6 a) true = Ok (collapsed a).
Proof.
  intros H. unfold toString, toIPv6String. cbn [from bind]. rewrite H.
  split; reflexivity.
Qed.

(** C6. [equals] always returns: it is true on two [null]s, false when one
    operand alone is [null], and otherwise true exactly when [compare] gives
    0, an exception of [compare] giving false; [compare] itself throws the
    error of the operand that does not parse. *)
Theorem equals_total :
  equals None None = Ok true
  /\ (forall x, equals None (Some x) = Ok false
                /\ equals (Some x) None = Ok false)
  /\ (forall x y,
        equals (Some x) (Some y)
        = Ok (match compare x y with
              | Ok c => c =? 0
              | Err _ => false
              end))
  /\ (forall first second, exists b, equals first second = Ok b)
  /\ (forall s y e,
        fromString s = Err e -> compare (OfString s) y = Err e)
  /\ (forall x v s e,
        toBigInt (Some x) = Ok v -> fromString s = Err e ->
        compare x (OfString s) = Err e).
Proof.
  split; [reflexivity |].
  split; [intros x; split; reflexivity |].
  assert (H2 : forall x y,
             equals (Some x) (Some y)
             = Ok (match compare x y with Ok c => c =? 0 | Err _ => false end)).
  { intros x y. cbn [equals]. destruct (compare x y) as [c | e]; cbn [bind tryCatch].
    - rewrite Z.eqb_sym. reflexivity.
    - reflexivity. }
  split; [exact H2 |].
  split.
  { intros [x |] [y |]; try (eexists; reflexivity).
    rewrite H2. eexists. reflexivity. }
  split.
  - intros s y e H. unfold compare. cbn [toBigInt]. rewrite H. reflexivity.
  - intros x v s e Hx H. unfold compare. rewrite Hx. cbn [bind toBigInt].
    rewrite H. reflexivity.
Qed.

Lemma equals_total_witness :
  compare (OfString (lit "foobar")) (OfBigInt 1)
  = Err (Error (lit "Invalid address"))
  /\ compare (OfBigInt 1) (OfString (lit "foobar"))
     = Err (Error (lit "Invalid address"))
  /\ equals (Some (OfString (lit "foobar"))) (Some (OfBigInt 1)) = Ok false.
Proof.
  split; [| split].
  - apply (proj1 (proj2 (proj2 (proj2 (proj2 equals_total))))). reflexivity.
  - apply (proj2 (proj2 (proj2 (proj2 (proj2 equals_total)))) _ 1);
      reflexivity.
  - rewrite (proj1 (proj2 (proj2 equals_total))). reflexivity.
Defined.

(** ** The expansion of ["::"] on any text *)

Lemma str_pair_ind (P : str -> Prop) :
  P [] -> (forall c, P [c]) ->
  (forall c d s, P (d :: s) -> P s -> P (c :: d :: s)) ->
  forall s, P s.
Proof.
  intros H0 H1 H2.
  assert (H : forall s, P s /\ forall c, P (c :: s)).
  { induction s as [| d s [IH1 IH2]]; [split; [exact H0 | exact H1] |].
    split; [apply IH2 |]. intros c. apply H2; [apply IH2 | exact IH1]. }
  intros s. apply H.
Qed.

Lemma countColonColons_step c d s :
  countColonColons (c :: d :: s)
  = if isColon c && isColon d then 1 + countColonColons s
    else countColonColons (d :: s).
Proof. reflexivity. Qed.

Lemma replaceColonColons_step R c d s :
  replaceColonColons R (c :: d :: s)
  = if isColon c && isColon d then R ++ replaceColonColons R s
    else c :: replaceColonColons R (d :: s).
Proof. reflexivity. Qed.

Lemma countColonColons_nonneg s : 0 <= countColonColons s.
Proof.
  induction s as [| c | c d s IH1 IH2] using str_pair_ind; try (simpl; lia).
  rewrite countColonColons_step. destruct (isColon c && isColon d); lia.
Qed.

Lemma replaceColonColons_none R s :
  countColonColons s = 0 -> replaceColonColons R s = s.
Proof.
  induction s as [| c | c d s IH1 IH2] using str_pair_ind; intros H;
    try reflexivity.
  rewrite countColonColons_step in H. rewrite replaceColonColons_step.
  destruct (isColon c && isColon d).
  - pose proof (countColonColons_nonneg s). lia.
  - f_equal. apply IH1. exact H.
Qed.

Lemma isColon_eq c : isColon c = true -> c = ":"%char.
Proof. unfold isColon, eqc. apply Ascii.eqb_eq. Qed.

(** The one ["::"] that [replace] finds, and what it puts in its place. *)
Lemma replaceColonColons_one R s :
  countColonColons s = 1 ->
  exists before after,
    s = before ++ lit "::" ++ after
    /\ replaceColonColons R s = before ++ R ++ after.
Proof.
  induction s as [| c | c d s IH1 IH2] using str_pair_ind; intros H;
    try discriminate.
  rewrite countColonColons_step in H. rewrite replaceColonColons_step.
  destruct (isColon c && isColon d) eqn:E.
  - apply andb_prop in E as [Ec Ed].
    apply isColon_eq in Ec, Ed. subst c d.
    exists [], s. split; [reflexivity |].
    rewrite replaceColonColons_none by lia. reflexivity.
  - destruct (IH1 H) as (before & after & Hs & Hr).
    exists (c :: before), after. cbn [app]. rewrite <- Hs, Hr.
    split; reflexivity.
Qed.

Lemma split_nonempty c s : split c s <> [].
Proof.
  induction s as [| x s IH]; [discriminate |]. simpl.
  destruct (eqc x c); [discriminate |]. destruct (split c s); discriminate.
Qed.

Lemma length_split_colons s :
  Z.of_nat (length (split ":"%char s)) = 1 + countColons s.
Proof.
  induction s as [| c s IH]; [reflexivity |].
  cbn [split countColons]. change (eqc c ":"%char) with (isColon c).
  destruct (isColon c).
  - cbn [length]. lia.
  - pose proof (split_nonempty ":"%char s).
    destruct (split ":"%char s); [congruence |]. cbn [length] in *. lia.
Qed.

Lemma countColons_concat_zeros n :
  countColons (concat (repeat (lit "0:") n)) = Z.of_nat n.
Proof.
  induction n as [| n IH]; [reflexivity |].
  cbn [repeat concat]. rewrite countColons_app, IH.
  change (countColons (lit "0:")) with 1. lia.
Qed.

Lemma countColons_patchEnds s : countColons (patchEnds s) = countColons s.
Proof.
  rewrite patchEnds_eq. cbv zeta.
  destruct (startsWithColon s); destruct (endsWithColon _);
    rewrite ?countColons_app; change (countColons (lit "0")) with 0; lia.
Qed.

Lemma length_quadLoop i : forall quads hexStr out,
  quadLoop i quads hexStr = Ok out ->
  length out = (length hexStr + 2 * i)%nat.
Proof.
  induction i as [| i IH]; intros quads hexStr out H.
  - injection H as <-. lia.
  - cbn [quadLoop] in H. destruct quads as [| q quads]; [discriminate |].
    destruct (parseDecimal q) as [b |]; cbn [tryCatch bind] in H; [| discriminate].
    destruct ((b <? 0) || (255 <? b)) eqn:E; cbn [throwIf bind] in H; [discriminate |].
    apply orb_false_iff in E as [E1 E2]. apply Z.ltb_ge in E1, E2.
    apply IH in H. rewrite length_app, hex2, length_fixedDigits in H by lia. lia.
Qed.

Lemma quadLoop_refused i : forall quads hexStr e,
  quadLoop i quads hexStr = Err e ->
  e = Error (lit "Invalid IP v 4 address")
  \/ e = Error (lit "Invalid IP v 4 address: "
                ++ exnToString (RangeError (lit "value is not a decimal digit"))).
Proof.
  induction i as [| i IH]; intros quads hexStr e H; [discriminate |].
  cbn [quadLoop] in H. destruct quads as [| q quads].
  - injection H as <-. right. reflexivity.
  - unfold parseDecimal in H.
    destruct (DECREGEX_test q && isFiniteNum (parseIntRadix 10 q));
      cbn [tryCatch bind] in H; [| injection H as <-; right; reflexivity].
    destruct ((parseIntRadix 10 q <? 0) || (255 <? parseIntRadix 10 q));
      cbn [throwIf bind] in H; [injection H as <-; left; reflexivity |].
    eapply IH. exact H.
Qed.

Lemma splitParts_refused hasIPv4 x e :
  splitParts hasIPv4 x = Err e ->
  hasIPv4 = true
  /\ (e = Error (lit "Invalid IP v 4 address")
      \/ e = Error (lit "Invalid IP v 4 address: "
                    ++ exnToString (RangeError (lit "value is not a decimal digit")))).
Proof.
  unfold splitParts. destruct hasIPv4; [| discriminate]. intros H.
  split; [reflexivity |].
  destruct (length (split "."%char _) =? 4)%nat; cbn [negb throwIf bind] in H;
    [| injection H as <-; left; reflexivity].
  destruct (quadLoop 4 _ []) as [out |] eqn:Eq; cbn [bind] in H; [discriminate |].
  injection H as <-. eapply quadLoop_refused. exact Eq.
Qed.

(** The groups that [splitParts] counts: the parts of the text, the
    dot-decimal part standing for two. *)
Lemma splitParts_count hasIPv4 x parts hexStr :
  splitParts hasIPv4 x = Ok (parts, hexStr) ->
  Z.of_nat (length hexStr) / 4 + Z.of_nat (length parts)
  = Z.of_nat (length (split ":"%char x)) + (if hasIPv4 then 1 else 0).
Proof.
  unfold splitParts. intros H. destruct hasIPv4.
  - destruct (length (split "."%char _) =? 4)%nat; cbn [negb throwIf bind] in H;
      [| discriminate].
    destruct (quadLoop 4 _ []) as [out |] eqn:Eq; cbn [bind] in H; [| discriminate].
    injection H as <- <-.
    apply length_quadLoop in Eq. rewrite Eq. cbn [length].
    rewrite removelast_firstn_len, length_firstn.
    pose proof (split_nonempty ":"%char x) as Hne.
    destruct (split ":"%char x) as [| p l]; [congruence |].
    cbn [length]. change (Z.of_nat (0 + 2 * 4) / 4) with 2. lia.
  - injection H as <- <-. cbn [length]. change (Z.of_nat 0 / 4) with 0. lia.
Qed.

(** C7, amended. For every address string with exactly one ["::"], the
    parser puts, in the place of the ["::"], a colon and as many ["0:"]
    groups as 8 (7 when the text has a dot-decimal part) less the number of
    colons, none when that number is negative. With at most 8 (or 7) colons
    the text, after the patch of a leading or trailing colon, splits into
    exactly 8 groups, a dot-decimal part standing for two of them. With more
    colons the ["::"] becomes a single colon, the text splits into as many
    parts as it had colons, which makes more than 8 groups, and the string
    is refused: with "Invalid address", or, when the part taken for the
    dot-decimal part is refused, with the "Invalid IP v 4 address" error of
    that part. *)
Theorem elision_expansion s :
  let value := replaceSpace s in
  let hasIPv4 := 0 <? lastIndexOf "."%char value in
  let missingParts := (if hasIPv4 then 7 else 8) - countColons value in
  countColonColons value = 1 ->
  exists before after expanded,
    value = before ++ lit "::" ++ after
    /\ expanded
       = before
         ++ (lit ":" ++ concat (repeat (lit "0:") (Z.to_nat missingParts)))
         ++ after
    /\ normalize s = Ok (hasIPv4, patchEnds expanded)
    /\ (0 <= missingParts ->
        length (split ":"%char (patchEnds expanded))
        = (if hasIPv4 then 7 else 8)%nat
        /\ forall parts hexStr,
             splitParts hasIPv4 (patchEnds expanded) = Ok (parts, hexStr) ->
             Z.of_nat (length hexStr) / 4 + Z.of_nat (length parts) = 8)
    /\ (missingParts < 0 ->
        expanded = before ++ lit ":" ++ after
        /\ Z.of_nat (length (split ":"%char (patchEnds expanded)))
           = countColons value
        /\ (forall parts hexStr,
              splitParts hasIPv4 (patchEnds expanded) = Ok (parts, hexStr) ->
              8 < Z.of_nat (length hexStr) / 4 + Z.of_nat (length parts))
        /\ exists e,
             fromString s = Err e
             /\ (e = Error (lit "Invalid address")
                 \/ hasIPv4 = true
                    /\ splitParts hasIPv4 (patchEnds expanded) = Err e
                    /\ (e = Error (lit "Invalid IP v 4 address")
                        \/ e = Error (lit "Invalid IP v 4 address: "
                                      ++ exnToString
                                           (RangeError
                                              (lit "value is not a decimal digit")))))).
Proof.
  intros value hasIPv4 missingParts Hcc.
  destruct (replaceColonColons_one (makeReplacement missingParts) value Hcc)
    as (before & after & Hs & Hr).
  set (expanded := before ++ (lit ":" ++ concat (repeat (lit "0:")
                                  (Z.to_nat missingParts))) ++ after).
  exists before, after, expanded. split; [exact Hs |]. split; [reflexivity |].
  assert (Hn : normalize s = Ok (hasIPv4, patchEnds expanded)).
  { unfold normalize. fold value. fold hasIPv4.
    replace (indexOf ":"%char value <? 0) with false
      by (symmetry; apply Z.ltb_ge; rewrite Hs;
          apply indexOfFrom_found; [lia | apply In_app_colons]).
    cbn [bind]. rewrite Hcc.
    change (1 <? 1) with false. change (1 =? 1) with true. cbn [bind].
    unfold expandColonColons. fold missingParts. rewrite Hr. reflexivity. }
  assert (Hlen : Z.of_nat (length (split ":"%char (patchEnds expanded)))
                 = countColons value + Z.of_nat (Z.to_nat missingParts)).
  { rewrite length_split_colons, countColons_patchEnds.
    unfold expanded.
    rewrite !countColons_app, countColons_concat_zeros.
    change (countColons (lit ":")) with 1.
    rewrite Hs, !countColons_app. change (countColons (lit "::")) with 2. lia. }
  split; [exact Hn |]. split.
  - intros Hmiss.
    assert (Hlen' : length (split ":"%char (patchEnds expanded))
                    = (if hasIPv4 then 7 else 8)%nat).
    { apply Nat2Z.inj. rewrite Hlen. unfold missingParts in *.
      destruct hasIPv4; lia. }
    split; [exact Hlen' |].
    intros parts hexStr H. rewrite (splitParts_count _ _ _ _ H), Hlen'.
    destruct hasIPv4; reflexivity.
  - intros Hmiss.
    assert (E0 : Z.to_nat missingParts = 0%nat) by lia.
    rewrite E0 in Hlen.
    split; [unfold expanded; rewrite E0; reflexivity |].
    split; [rewrite Hlen; cbn; lia |].
    assert (Hcount : forall parts hexStr,
               splitParts hasIPv4 (patchEnds expanded) = Ok (parts, hexStr) ->
               8 < Z.of_nat (length hexStr) / 4 + Z.of_nat (length parts)).
    { intros parts hexStr H. rewrite (splitParts_count _ _ _ _ H), Hlen.
      unfold missingParts in Hmiss. destruct hasIPv4; cbn; lia. }
    split; [exact Hcount |].
    unfold fromString. rewrite Hn. cbn [bind].
    destruct (splitParts hasIPv4 (patchEnds expanded)) as [[parts hexStr] | e] eqn:Es;
      cbn [bind].
    + exists (Error (lit "Invalid address")). split; [| left; reflexivity].
      specialize (Hcount parts hexStr eq_refl).
      replace (Z.of_nat (length hexStr) / 4 + Z.of_nat (length parts) =? 8)
        with false by (symmetry; apply Z.eqb_neq; lia).
      reflexivity.
    + exists e. split; [reflexivity |]. right.
      destruct (splitParts_refused _ _ _ Es) as [H4 He].
      split; [exact H4 |]. split; [reflexivity | exact He].
Qed.

Lemma elision_expansion_witness :
  (exists before after expanded,
     lit "1::2" = before ++ lit "::" ++ after
     /\ expanded = before ++ (lit ":" ++ concat (repeat (lit "0:") 6)) ++ after
     /\ normalize (lit "1::2") = Ok (false, patchEnds expanded)
     /\ length (split ":"%char (patchEnds expanded)) = 8%nat
     /\ forall parts hexStr,
          splitParts false (patchEnds expanded) = Ok (parts, hexStr) ->
          Z.of_nat (length hexStr) / 4 + Z.of_nat (length parts) = 8)
  /\ (exists e,
        fromString (lit "1.1:2:3:4:5:6:7::8") = Err e
        /\ (e = Error (lit "Invalid address")
            \/ e = Error (lit "Invalid IP v 4 address")
            \/ e = Error (lit "Invalid IP v 4 address: "
                          ++ exnToString
                               (RangeError (lit "value is not a decimal digit"))))).
Proof.
  split.
  - destruct (elision_expansion (lit "1::2") eq_refl)
      as (before & after & expanded & H1 & H2 & H3 & H4 & _).
    exists before, after, expanded.
    split; [exact H1 |]. split; [exact H2 |]. split; [exact H3 |].
    apply H4. simpl. lia.
  - destruct (elision_expansion (lit "1.1:2:3:4:5:6:7::8") eq_refl)
      as (before & after & expanded & _ & _ & _ & _ & H5).
    destruct H5 as (_ & _ & _ & e & He & Hcases); [simpl; lia |].
    exists e. split; [exact He |].
    destruct Hcases as [H | (_ & _ & [H | H])]; auto.
Defined.

(** C7 as stated fails on a text that has too many groups already: one
    ["::"], nine groups after the expansion. *)
Lemma elision_counterexample :
  countColonColons (replaceSpace (lit "1:2:3:4:5:6:7:8::")) = 1
  /\ normalize (lit "1:2:3:4:5:6:7:8::") = Ok (false, lit "1:2:3:4:5:6:7:8:0")
  /\ length (split ":"%char (lit "1:2:3:4:5:6:7:8:0")) = 9%nat
  /\ fromString (lit "1:2:3:4:5:6:7:8::") = Err (Error (lit "Invalid address")).
Proof. repeat split; vm_compute; reflexivity. Qed.

(** ** The groups *)

Lemma validGroup_hexTok part :
  validGroup part = true -> hexTok part (parseIntRadix 16 part).
Proof.
  unfold validGroup. intros H. apply andb_prop in H as [H H3].
  apply andb_prop in H as [H1 H2]. apply Z.leb_le in H3.
  split; [destruct part; [discriminate | discriminate] |].
  split; [exact H2 |]. split; [reflexivity |].
  split; [apply (parseIntRadix_nonneg 16); [lia | exact H2] | exact H3].
Qed.

Lemma partLoop_valid popped hexStr :
  forallb validGroup popped = true ->
  partLoop popped hexStr
  = Ok (concat (map (fun part => fixedDigits 16 4 (parseIntRadix 16 part))
                  (rev popped)) ++ hexStr).
Proof.
  intros H.
  rewrite (partLoop_tokens popped (map (parseIntRadix 16) popped)).
  - rewrite <- map_rev, map_map. reflexivity.
  - induction popped as [| part popped IH]; [constructor |].
    simpl in H. apply andb_prop in H as [H1 H2].
    constructor; [apply validGroup_hexTok; exact H1 | apply IH; exact H2].
Qed.

Lemma partLoop_invalid popped : forall hexStr,
  Forall (fun part => part <> []) popped ->
  forallb validGroup popped = false ->
  exists e, partLoop popped hexStr = Err e /\ isInvalidIPv6 e.
Proof.
  induction popped as [| part popped IH]; intros hexStr Hne H; [discriminate |].
  inversion Hne as [| ? ? Hp Hne']; subst.
  cbn [partLoop]. rewrite (isEmpty_false part Hp).
  destruct (validGroup part) eqn:Ev.
  - simpl in H. rewrite Ev in H. cbn [andb] in H.
    pose proof (validGroup_hexTok part Ev) as Ht.
    rewrite (parseHex_tok _ _ Ht). cbn [tryCatch bind].
    destruct Ht as (_ & _ & _ & Hg).
    replace ((parseIntRadix 16 part <? 0) || (65535 <? parseIntRadix 16 part))
      with false
      by (symmetry; apply orb_false_iff; split; apply Z.ltb_ge; lia).
    cbn [throwIf bind]. apply IH; assumption.
  - unfold validGroup in Ev. rewrite (isEmpty_false part Hp) in Ev.
    cbn [negb andb] in Ev. unfold parseHex, HEXREGEX_test.
    rewrite (isEmpty_false part Hp). cbn [negb andb].
    destruct (forallb isHexDigit part) eqn:Eh; cbn [andb] in *.
    + destruct (isFiniteNum (parseIntRadix 16 part)); cbn [tryCatch bind].
      * apply Z.leb_gt in Ev.
        replace ((parseIntRadix 16 part <? 0) || (65535 <? parseIntRadix 16 part))
          with true
          by (symmetry; apply orb_true_iff; right; apply Z.ltb_lt; lia).
        cbn [throwIf bind]. eexists. split; [reflexivity | left; reflexivity].
      * eexists. split; [reflexivity | right; reflexivity].
    + cbn [tryCatch bind]. eexists. split; [reflexivity | right; reflexivity].
Qed.

Lemma forallb_rev_eq {A} (p : A -> bool) l : forallb p (rev l) = forallb p l.
Proof.
  induction l as [| x l IH]; [reflexivity |].
  simpl. rewrite forallb_app, IH. simpl. rewrite andb_true_r. apply andb_comm.
Qed.

(** C8, amended. When the text splits into 8 groups and none of the groups
    left after the expansion and the removal of the dot-decimal part is
    empty, the parser accepts the address exactly when every group is made
    of hexadecimal digits and stands for a value in [0, 0xFFFF], whatever
    the number of its digits; otherwise it throws the error
    "Invalid IP v 6 address". *)
Theorem groups_accepted s hasIPv4 value parts hexStr :
  normalize s = Ok (hasIPv4, value) ->
  splitParts hasIPv4 value = Ok (parts, hexStr) ->
  Z.of_nat (length hexStr) / 4 + Z.of_nat (length parts) = 8 ->
  Forall (fun part => part <> []) parts ->
  (forallb validGroup parts = true ->
   exists v, fromString s = Ok v)
  /\ (forallb validGroup parts = false ->
      exists e, fromString s = Err e /\ isInvalidIPv6 e).
Proof.
  intros Hn Hs Hc Hne. unfold fromString. rewrite Hn. cbn [bind].
  rewrite Hs. cbn [bind]. rewrite Hc. change (8 =? 8) with true.
  cbn [negb throwIf bind]. split; intros H.
  - rewrite partLoop_valid by (rewrite forallb_rev_eq; exact H). cbn [bind].
    unfold bigIntOfHex. rewrite rev_involutive.
    destruct (isEmpty _) eqn:E; [| eexists; reflexivity].
    exfalso. destruct parts as [| part parts].
    + cbn [map concat app] in E. destruct hexStr; [simpl in Hc; lia | discriminate].
    + cbn [map concat] in E.
      destruct (fixedDigits 16 4 (parseIntRadix 16 part)) eqn:Ef; [| discriminate].
      apply (f_equal (@length ascii)) in Ef. rewrite length_fixedDigits in Ef.
      discriminate.
  - destruct (partLoop_invalid (rev parts) hexStr) as (e & He & Hi).
    + apply Forall_rev. exact Hne.
    + rewrite forallb_rev_eq. exact H.
    + rewrite He. exists e. split; [reflexivity | exact Hi].
Qed.

Lemma groups_accepted_witness :
  (exists v, fromString (lit "0:0:0:0:0:0:0:00001") = Ok v)
  /\ (exists e, fromString (lit "1:2:3:4:5:6:7:10000") = Err e
                /\ isInvalidIPv6 e).
Proof.
  split.
  - apply (proj1 (groups_accepted (lit "0:0:0:0:0:0:0:00001") false
                    (lit "0:0:0:0:0:0:0:00001")
                    (split ":"%char (lit "0:0:0:0:0:0:0:00001")) []
                    eq_refl eq_refl eq_refl
                    ltac:(repeat constructor; discriminate))).
    reflexivity.
  - apply (proj2 (groups_accepted (lit "1:2:3:4:5:6:7:10000") false
                    (lit "1:2:3:4:5:6:7:10000")
                    (split ":"%char (lit "1:2:3:4:5:6:7:10000")) []
                    eq_refl eq_refl eq_refl
                    ltac:(repeat constructor; discriminate))).
    reflexivity.
Defined.

(** C8 as stated fails: a group of five digits is accepted. *)
Lemma groups_counterexample :
  normalize (lit "0:0:0:0:0:0:0:00001")
  = Ok (false, lit "0:0:0:0:0:0:0:00001")
  /\ In (lit "00001") (split ":"%char (lit "0:0:0:0:0:0:0:00001"))
  /\ length (lit "00001") = 5%nat
  /\ fromString (lit "0:0:0:0:0:0:0:00001") = Ok 1.
Proof.
  split; [vm_compute; reflexivity |].
  split; [vm_compute; tauto |].
  split; vm_compute; reflexivity.
Qed.

(** ** White space *)

Lemma dropSpaces_spaces ws rest :
  forallb isSpace ws = true -> dropSpaces (ws ++ rest) = dropSpaces rest.
Proof.
  induction ws as [| c ws IH]; intros H; [reflexivity |].
  simpl in H. apply andb_prop in H as [Hc Hws].
  cbn [app dropSpaces]. rewrite Hc. apply IH, Hws.
Qed.

Lemma dropSpaces_noSpace s : noSpace s = true -> dropSpaces s = s.
Proof.
  destruct s as [| c s]; [reflexivity |]. simpl. intros H.
  apply andb_prop in H as [Hc _]. apply negb_true_iff in Hc. rewrite Hc.
  reflexivity.
Qed.

(** [replace] takes the first run of white space away, and only it. *)
Lemma replaceSpace_first_run before ws rest :
  noSpace before = true -> forallb isSpace ws = true -> ws <> [] ->
  replaceSpace (before ++ ws ++ rest) = before ++ dropSpaces rest.
Proof.
  intros Hb Hws Hne. induction before as [| c before IH].
  - destruct ws as [| w ws]; [congruence |].
    simpl in Hws. apply andb_prop in Hws as [Hw Hws].
    cbn [app replaceSpace]. rewrite Hw. apply dropSpaces_spaces, Hws.
  - simpl in Hb. apply andb_prop in Hb as [Hc Hb]. apply negb_true_iff in Hc.
    cbn [app replaceSpace]. rewrite Hc. f_equal. apply IH, Hb.
Qed.

Lemma fromString_replaceSpace s s' :
  replaceSpace s = replaceSpace s' -> fromString s = fromString s'.
Proof. intros H. unfold fromString, normalize. rewrite H. reflexivity. Qed.

(** White space on one side of an address is not seen. *)
Lemma fromString_one_side s ws :
  noSpace s = true -> forallb isSpace ws = true ->
  fromString (ws ++ s) = fromString s /\ fromString (s ++ ws) = fromString s.
Proof.
  intros Hs Hws. destruct ws as [| w ws].
  - rewrite app_nil_r. split; reflexivity.
  - split; apply fromString_replaceSpace;
      rewrite (replaceSpace_noSpace s Hs).
    + change ((w :: ws) ++ s) with ([] ++ (w :: ws) ++ s).
      rewrite (replaceSpace_first_run [] (w :: ws) s) by (try discriminate; auto).
      apply dropSpaces_noSpace, Hs.
    + rewrite <- (app_nil_r (w :: ws)).
      rewrite (replaceSpace_first_run s (w :: ws) []) by (try discriminate; auto).
      apply app_nil_r.
Qed.

(** White space on both sides: the one behind the address stays. *)
Lemma replaceSpace_both_sides s ws1 ws2 :
  noSpace s = true -> s <> [] ->
  forallb isSpace ws1 = true -> ws1 <> [] ->
  replaceSpace (ws1 ++ s ++ ws2) = s ++ ws2.
Proof.
  intros Hs Hne H1 Hne1.
  change (ws1 ++ s ++ ws2) with ([] ++ ws1 ++ s ++ ws2).
  rewrite (replaceSpace_first_run [] ws1 (s ++ ws2)) by (try assumption; reflexivity).
  destruct s as [| c s]; [congruence |].
  simpl in Hs. apply andb_prop in Hs as [Hc _]. apply negb_true_iff in Hc.
  cbn [app dropSpaces]. rewrite Hc. reflexivity.
Qed.

(** ** The run that the loop finds is the longest, and the leftmost of the
    longest *)

Lemma allZero_shorter done part from len :
  0 <= from -> from + len <= Z.of_nat (length done) ->
  allZero (done ++ [part]) from len -> allZero done from len.
Proof.
  intros Hf Hl H j Hj. specialize (H j Hj). rewrite app_nth1 in H by lia. exact H.
Qed.

Lemma allZero_last done part from len :
  0 <= from -> 0 < len -> from + len = Z.of_nat (length done) + 1 ->
  allZero (done ++ [part]) from len -> part = 0.
Proof.
  intros Hf Hl He H. specialize (H (Z.of_nat (length done)) ltac:(lia)).
  rewrite Nat2Z.id, nth_middle in H. exact H.
Qed.

Lemma streakStep_best done st part :
  streaksOk done st -> streaksBest done st ->
  streaksBest (done ++ [part]) (streakStep st (Z.of_nat (length done)) part).
Proof.
  intros [Hr Hn Hs Hln Hls] [Hcm Hcl Hlm Hll].
  set (D := Z.of_nat (length done)) in *.
  assert (HD : Z.of_nat (length (done ++ [part])) = D + 1)
    by (rewrite length_app; simpl; lia).
  (* a run that ends on the new part is not longer than the current one *)
  assert (Hend : forall from len,
            0 <= from -> 0 < len -> from + len = D + 1 ->
            allZero (done ++ [part]) from len ->
            part = 0 /\ len <= current_streak st + 1).
  { intros from len Hf Hl He Hz.
    split; [eapply allZero_last; eassumption |].
    destruct (Z_le_gt_dec len (current_streak st + 1)) as [Hle | Hgt]; [exact Hle |].
    exfalso. apply Hcm; [lia |].
    specialize (Hz (D - current_streak st - 1) ltac:(lia)).
    rewrite app_nth1 in Hz by lia. exact Hz. }
  assert (Hold : forall from len,
            0 <= from -> 0 <= len -> from + len <= D + 1 ->
            allZero (done ++ [part]) from len ->
            len <= longest_streak st
            \/ (part = 0 /\ from + len = D + 1 /\ len <= current_streak st + 1)).
  { intros from len Hf Hl He Hz.
    destruct (Z.eq_dec len 0) as [-> | Hne]; [left; lia |].
    destruct (Z_le_gt_dec (from + len) D) as [Hin | Hout].
    - left. apply (Hlm from len); try lia.
      eapply allZero_shorter; [| | exact Hz]; lia.
    - right. destruct (Hend from len) as [Hp Hle]; try lia; try assumption. }
  unfold streakStep. destruct (part =? 0) eqn:Ep.
  - apply Z.eqb_eq in Ep. subst part.
    assert (Hstart :
      (if current_start st <? 0 then D else current_start st)
      = D - current_streak st).
    { destruct (Z.eq_dec (current_streak st) 0) as [E0 | E0].
      - rewrite (Hn E0), E0. change (-1 <? 0) with true. cbv iota. lia.
      - destruct Hs as [Hs1 _]; [lia |].
        replace (current_start st <? 0) with false by (symmetry; apply Z.ltb_ge; lia).
        exact Hs1. }
    rewrite Hstart.
    destruct (current_streak st + 1 >? longest_streak st) eqn:Eg.
    + apply Z.gtb_lt in Eg.
      constructor; cbn [current_streak current_start longest_streak longest_start];
        rewrite ?HD.
      * intros Hlt. replace (D + 1 - (current_streak st + 1) - 1)
          with (D - current_streak st - 1) by lia.
        rewrite app_nth1 by lia. apply Hcm. lia.
      * lia.
      * intros from len Hf Hl He Hz.
        destruct (Hold from len Hf Hl He Hz) as [H | (_ & _ & H)]; lia.
      * intros from Hf He _ Hz.
        destruct (Hold from (current_streak st + 1) Hf ltac:(lia) He Hz)
          as [H | (_ & H & _)]; lia.
    + assert (Hle : current_streak st + 1 <= longest_streak st)
        by (destruct (Z.gtb_spec (current_streak st + 1) (longest_streak st));
            [discriminate | lia]).
      constructor; cbn [current_streak current_start longest_streak longest_start];
        rewrite ?HD.
      * intros Hlt. replace (D + 1 - (current_streak st + 1) - 1)
          with (D - current_streak st - 1) by lia.
        rewrite app_nth1 by lia. apply Hcm. lia.
      * lia.
      * intros from len Hf Hl He Hz.
        destruct (Hold from len Hf Hl He Hz) as [H | (_ & _ & H)]; lia.
      * intros from Hf He Hpos Hz.
        destruct (Z_le_gt_dec (from + longest_streak st) D) as [Hin | Hout].
        -- apply Hll; try lia. eapply allZero_shorter; [| | exact Hz]; lia.
        -- destruct (Hls Hpos) as (_ & Hb & _). fold D in Hb. lia.
  - apply Z.eqb_neq in Ep.
    constructor; cbn [current_streak current_start longest_streak longest_start];
      rewrite ?HD.
    + intros _. replace (D + 1 - 0 - 1) with D by lia.
      unfold D. rewrite Nat2Z.id, nth_middle. exact Ep.
    + lia.
    + intros from len Hf Hl He Hz.
      destruct (Hold from len Hf Hl He Hz) as [H | (H & _)]; [lia | congruence].
    + intros from Hf He Hpos Hz.
      destruct (Z_le_gt_dec (from + longest_streak st) D) as [Hin | Hout].
      * apply Hll; try lia. eapply allZero_shorter; [| | exact Hz]; lia.
      * exfalso. apply Ep. eapply (allZero_last done part from); try eassumption; lia.
Qed.

Lemma streakLoop_best rest : forall done st,
  streaksOk done st -> streaksBest done st ->
  streaksBest (done ++ rest) (streakLoop (Z.of_nat (length done)) rest st).
Proof.
  induction rest as [| part rest IH]; intros done st Hok Hbest.
  - rewrite app_nil_r. exact Hbest.
  - cbn [streakLoop].
    replace (Z.of_nat (length done) + 1) with (Z.of_nat (length (done ++ [part])))
      by (rewrite length_app; simpl; lia).
    replace (done ++ part :: rest) with ((done ++ [part]) ++ rest)
      by (rewrite <- app_assoc; reflexivity).
    apply IH; [apply streakStep_ok, Hok | apply streakStep_best; assumption].
Qed.

Lemma noStreak_best : streaksBest [] noStreak.
Proof.
  constructor; cbn [noStreak current_streak longest_streak longest_start length];
    try lia.
Qed.

(** The run of zero parts that [toIPv6String] takes. *)
Lemma streakLoop_longest parts :
  let st := streakLoop 0 parts noStreak in
  0 <= longest_streak st
  /\ (0 < longest_streak st ->
      0 <= longest_start st
      /\ longest_start st + longest_streak st <= Z.of_nat (length parts)
      /\ allZero parts (longest_start st) (longest_streak st))
  /\ (forall from len,
        0 <= from -> 0 <= len -> from + len <= Z.of_nat (length parts) ->
        allZero parts from len ->
        len <= longest_streak st
        /\ (len = longest_streak st -> 0 < len -> longest_start st <= from)).
Proof.
  intros st.
  pose proof (streakLoop_ok parts [] noStreak noStreak_ok) as Hok.
  pose proof (streakLoop_best parts [] noStreak noStreak_ok noStreak_best) as Hbest.
  change (streaksOk parts st) in Hok. change (streaksBest parts st) in Hbest.
  split; [apply (longest_nonneg _ _ Hok) |].
  split; [apply (longest_some _ _ Hok) |].
  intros from len Hf Hl He Hz.
  split; [apply (longest_max _ _ Hbest from len); assumption |].
  intros -> Hpos. apply (longest_leftmost _ _ Hbest from); assumption.
Qed.

(** What [toIPv6String] writes for an address that is not written with a
    dot-decimal part: the leftmost of the longest runs of zero groups becomes
    ["::"] when it has two groups or more, and the groups around it lose their
    leading zeros; without such a run the eight groups keep their four
    digits. *)
Lemma toIPv6String_longest_run a (dotDec : bool) :
  0 <= value a <= MAX -> isIPv4_ a && dotDec = false ->
  exists start len,
    (start + len <= 8)%nat
    /\ allZero (groupsOf (value a)) (Z.of_nat start) (Z.of_nat len)
    /\ (forall from l,
          (from + l <= 8)%nat ->
          allZero (groupsOf (value a)) (Z.of_nat from) (Z.of_nat l) ->
          (l <= len)%nat /\ (l = len -> 0 < len -> start <= from)%nat)
    /\ toIPv6String (OfIPv6 a) dotDec
       = Ok (if (len <=? 1)%nat
             then join (lit ":") (map (fixedDigits 16 4) (groupsOf (value a)))
             else join (lit ":")
                    (map (toStringRadix 16) (firstn start (groupsOf (value a))))
                  ++ lit "::"
                  ++ join (lit ":")
                       (map (toStringRadix 16)
                          (skipn (start + len) (groupsOf (value a))))).
Proof.
  intros Hv H4.
  set (parts := groupsOf (value a)).
  assert (Hlen : length parts = 8%nat) by apply length_groupsOf.
  set (st := streakLoop 0 parts noStreak).
  destruct (streakLoop_longest parts) as (Hnn & Hsome & Hbest).
  fold st in Hnn, Hsome, Hbest. rewrite Hlen in Hsome, Hbest.
  assert (Hto : toIPv6String (OfIPv6 a) dotDec = Ok (collapsed a)).
  { unfold toIPv6String. cbn [from bind]. rewrite H4. reflexivity. }
  rewrite Hto.
  destruct (Z.eq_dec (longest_streak st) 0) as [E0 | E0].
  - exists 0%nat, 0%nat. cbn [Nat.leb].
    split; [lia |]. split; [intros j Hj; lia |]. split.
    + intros from l Hb Hz.
      pose proof (Hbest (Z.of_nat from) (Z.of_nat l) ltac:(lia) ltac:(lia)
                    ltac:(lia) Hz) as [H _].
      split; lia.
    + rewrite (collapsed_groups a Hv). cbv zeta. fold parts. fold st.
      rewrite E0. reflexivity.
  - exists (Z.to_nat (longest_start st)), (Z.to_nat (longest_streak st)).
    destruct Hsome as (H0 & H8 & Hz); [lia |].
    split; [lia |]. split; [rewrite !Z2Nat.id by lia; exact Hz |]. split.
    + intros from l Hb Hzl.
      pose proof (Hbest (Z.of_nat from) (Z.of_nat l) ltac:(lia) ltac:(lia)
                    ltac:(lia) Hzl) as [H H'].
      split; [lia |]. intros -> Hpos. rewrite Z2Nat.id in H' by lia.
      specialize (H' eq_refl ltac:(lia)). lia.
    + f_equal. destruct (Z_le_gt_dec (longest_streak st) 1) as [Hle | Hgt].
      * replace (Z.to_nat (longest_streak st) <=? 1)%nat with true
          by (symmetry; apply Nat.leb_le; lia).
        rewrite (collapsed_groups a Hv). cbv zeta. fold parts. fold st.
        replace (longest_streak st <=? 1) with true by (symmetry; apply Z.leb_le; lia).
        reflexivity.
      * replace (Z.to_nat (longest_streak st) <=? 1)%nat with false
          by (symmetry; apply Nat.leb_gt; lia).
        apply (collapsed_elided a Hv). fold parts. fold st. lia.
Qed.

(** ** The message of [toIPv4String] *)

Lemma eqc_refl c : eqc c c = true.
Proof. each_char c; reflexivity. Qed.

Lemma startsWith_app needle post : startsWith needle (needle ++ post) = true.
Proof.
  induction needle as [| c needle IH]; [reflexivity |].
  cbn [startsWith app]. rewrite eqc_refl, IH. reflexivity.
Qed.

Lemma includes_app pre needle post :
  includes needle (pre ++ needle ++ post) = true.
Proof.
  induction pre as [| c pre IH].
  - cbn [app]. destruct (needle ++ post) eqn:E; cbn [includes];
      rewrite <- E, startsWith_app; reflexivity.
  - cbn [app includes]. rewrite IH. apply orb_true_r.
Qed.

(** The part of C5 that holds of every address: [isIPv4] is true if and
    only if [(value & IPV4MASK) == IPV4PREFIX], which says that the upper 96 bits are
    those of [::ffff:0:0]; when it is true [toIPv4String] gives the
    dot-decimal text of the low 32 bits, and when it is false [toIPv4String]
    throws the error "Not an IPv4 address" whose message holds, between
    double quotes, the text that [toString] and [toIPv6String] give for the
    address. With [len] the length of the longest run of zero groups and
    [start] the place of the leftmost run of that length, that text is the
    groups before the run and the groups after it without leading zeros,
    with ["::"] between them, when [len] is 2 or more; when [len] is at most
    1 it is the eight groups in four digits each, leading zeros kept. *)
Theorem isIPv4_toIPv4String x a :
  new x = Ok a ->
  isIPv4 (OfIPv6 a) = Ok (Z.land (value a) IPV4MASK =? IPV4PREFIX)
  /\ isIPv4 (OfBigInt (value a)) = Ok (Z.land (value a) IPV4MASK =? IPV4PREFIX)
  /\ ((Z.land (value a) IPV4MASK =? IPV4PREFIX)
      = (Z.shiftr (value a) 32 =? 0xFFFF))
  /\ (Z.land (value a) IPV4MASK = IPV4PREFIX ->
      toIPv4String (OfIPv6 a) = Ok (dotDecimal (value a)))
  /\ (Z.land (value a) IPV4MASK <> IPV4PREFIX ->
      exists start len,
        (start + len <= 8)%nat
        /\ allZero (groupsOf (value a)) (Z.of_nat start) (Z.of_nat len)
        /\ (forall from l,
              (from + l <= 8)%nat ->
              allZero (groupsOf (value a)) (Z.of_nat from) (Z.of_nat l) ->
              (l <= len)%nat /\ (l = len -> 0 < len -> start <= from)%nat)
        /\ let text :=
             if (len <=? 1)%nat
             then join (lit ":") (map (fixedDigits 16 4) (groupsOf (value a)))
             else join (lit ":")
                    (map (toStringRadix 16) (firstn start (groupsOf (value a))))
                  ++ lit "::"
                  ++ join (lit ":")
                       (map (toStringRadix 16)
                          (skipn (start + len) (groupsOf (value a)))) in
           toIPv6String (OfIPv6 a) true = Ok text
           /\ toString a = Ok text
           /\ toIPv4String (OfIPv6 a)
              = Err (Error (lit "Not an IPv4 address:  " ++ dquote ++ text
                            ++ dquote))).
Proof.
  intros Hnew. pose proof (new_valid x a Hnew) as Hv.
  assert (E : isIPv4_ a = (Z.land (value a) IPV4MASK =? IPV4PREFIX)).
  { unfold isIPv4_. rewrite Z.land_comm. apply Z.eqb_sym. }
  split; [| split; [| split; [| split]]].
  - unfold isIPv4. cbn [toBigInt bind]. fold (isIPv4_ a). rewrite E. reflexivity.
  - unfold isIPv4. cbn [toBigInt bind]. fold (isIPv4_ a). rewrite E. reflexivity.
  - rewrite <- E. unfold isIPv4_. rewrite (isIPv4_upper _ Hv).
    rewrite Z.shiftr_div_pow2 by lia. reflexivity.
  - intros H. apply Z.eqb_eq in H. rewrite <- E in H.
    rewrite (toIPv4String_mapped a Hv H), dotted_bytesOf. reflexivity.
  - intros H. apply Z.eqb_neq in H. rewrite <- E in H.
    destruct (toIPv6String_longest_run a true Hv) as (start & len & H1 & H2 & H3 & H4);
      [rewrite H; reflexivity |].
    exists start, len. split; [exact H1 |]. split; [exact H2 |]. split; [exact H3 |].
    cbv zeta. destruct (toString_not_IPv4 a H) as [Hs Ht].
    match type of H4 with _ = Ok ?t => set (text := t) in * end.
    assert (Ec : collapsed a = text) by congruence.
    split; [exact H4 | split; [rewrite <- Ec; exact Hs |]].
    unfold toIPv4String. cbn [from bind]. rewrite H, Ec. reflexivity.
Qed.

Lemma isIPv4_toIPv4String_witness :
  toIPv4String (OfIPv6 (mk 0xFFFF0A000001)) = Ok (lit "10.0.0.1")
  /\ toIPv4String (OfIPv6 (mk 1))
     = Err (Error (lit "Not an IPv4 address:  " ++ dquote ++ lit "::1" ++ dquote)).
Proof.
  split.
  - apply (proj1 (proj2 (proj2 (proj2
             (isIPv4_toIPv4String (Some (OfString (lit "10.0.0.1")))
                (mk 0xFFFF0A000001) eq_refl))))).
    reflexivity.
  - destruct (proj2 (proj2 (proj2 (proj2
                (isIPv4_toIPv4String (Some (OfBigInt 1)) (mk 1) eq_refl)))))
      as (start & len & _ & _ & _ & H1 & _ & H3); [discriminate |].
    match type of H1 with _ = Ok ?t => set (text := t) in * end.
    assert (Et : text = lit "::1").
    { change (toIPv6String (OfIPv6 (mk 1)) true) with (@Ok str (lit "::1")) in H1.
      congruence. }
    rewrite H3, Et. reflexivity.
Defined.

(** C5. On the address [1:2:3:4:5:6:7:8], which is not of the IPv4 kind and
    has no zero group, [toIPv4String] throws the error "Not an IPv4 address"
    with a message that holds [0001:0002:0003:0004:0005:0006:0007:0008], the
    groups with their leading zeros, and that does not hold
    [1:2:3:4:5:6:7:8], the eight groups without leading zeros joined by
    colons, which is the canonical text of the address. *)
Theorem not_IPv4_message_padded :
  let v := 0x00010002000300040005000600070008 in
  let message :=
    lit "Not an IPv4 address:  " ++ dquote
    ++ lit "0001:0002:0003:0004:0005:0006:0007:0008" ++ dquote in
  new (Some (OfString (lit "1:2:3:4:5:6:7:8"))) = Ok (mk v)
  /\ isIPv4 (OfBigInt v) = Ok false
  /\ toIPv4String (OfBigInt v) = Err (Error message)
  /\ toIPv4String (OfString (lit "1:2:3:4:5:6:7:8")) = Err (Error message)
  /\ join (lit ":") (map (toStringRadix 16) (groupsOf v))
     = lit "1:2:3:4:5:6:7:8"
  /\ forall before after,
       message <> before ++ lit "1:2:3:4:5:6:7:8" ++ after.
Proof.
  cbv zeta. repeat split; try (vm_compute; reflexivity).
  intros before after H.
  pose proof (includes_app before (lit "1:2:3:4:5:6:7:8") after) as Hi.
  rewrite <- H in Hi. vm_compute in Hi. discriminate Hi.
Qed.

(** C9. The replacement of white space takes out the first run only: the
    address [::1] is accepted bare, with white space before it and with
    white space after it, but with white space on both sides the trailing
    blank stays in the text and the constructor throws
    "Invalid IP v 6 address". *)
Theorem whitespace_both_ends :
  IPv6.replaceSpace (lit " ::1 ") = lit "::1 "
  /\ IPv6.new (Some (IPv6.OfString (lit "::1"))) = Ok (IPv6.mk 1)
  /\ IPv6.new (Some (IPv6.OfString (lit " ::1"))) = Ok (IPv6.mk 1)
  /\ IPv6.new (Some (IPv6.OfString (lit "::1 "))) = Ok (IPv6.mk 1)
  /\ IPv6.new (Some (IPv6.OfString (lit " ::1 ")))
     = Err (Error (lit "Invalid IP v 6 address: "
                   ++ exnToString
                        (RangeError (lit "value is not a hexidecimal digit")))).
Proof. repeat split; vm_compute; reflexivity. Qed.

(** C3. [toIPv6String] of the address [1:2:3:4:5:6:7:8], which has no zero
    group, is [0001:0002:0003:0004:0005:0006:0007:0008]: the groups are
    joined in their four-digit form and keep their leading zeros, from the
    text and from the number alike, and so do the groups of an address with
    one zero group. The two examples with runs of zero groups and the
    value 0 are written without leading zeros, the leftmost longest run
    collapsed. *)
Theorem leading_zeros_kept :
  IPv6.toIPv6String (IPv6.OfString (lit "1:2:3:4:5:6:7:8")) true
  = Ok (lit "0001:0002:0003:0004:0005:0006:0007:0008")
  /\ IPv6.toIPv6String (IPv6.OfBigInt 0x00010002000300040005000600070008) true
     = Ok (lit "0001:0002:0003:0004:0005:0006:0007:0008")
  /\ IPv6.toIPv6String (IPv6.OfString (lit "1:0:3:4:5:6:7:8")) true
     = Ok (lit "0001:0000:0003:0004:0005:0006:0007:0008")
  /\ IPv6.toIPv6String (IPv6.OfString (lit "1:0:0:4:0:0:7:8")) true
     = Ok (lit "1::4:0:0:7:8")
  /\ IPv6.toIPv6String (IPv6.OfString (lit "1:0:0:4:0:0:0:8")) true
     = Ok (lit "1:0:0:4::8")
  /\ IPv6.toIPv6String (IPv6.OfBigInt 0) true = Ok (lit "::").
Proof. repeat split; vm_compute; reflexivity. Qed.

Ltac in_list := simpl; repeat (first [left; reflexivity | right]).

Lemma quadLoop_errors i : forall quads hexStr e,
  quadLoop i quads hexStr = Err e -> In e addressErrors.
Proof.
  induction i as [| i IH]; intros quads hexStr e H; [discriminate |].
  cbn [quadLoop] in H. destruct quads as [| q quads].
  - injection H as <-. in_list.
  - unfold parseDecimal in H.
    destruct (DECREGEX_test q && isFiniteNum (parseIntRadix 10 q));
      cbn [tryCatch bind] in H; [| injection H as <-; in_list].
    destruct ((parseIntRadix 10 q <? 0) || (255 <? parseIntRadix 10 q));
      cbn [throwIf bind] in H; [injection H as <-; in_list |].
    eapply IH. exact H.
Qed.

Lemma partLoop_errors popped : forall hexStr e,
  partLoop popped hexStr = Err e -> In e addressErrors.
Proof.
  induction popped as [| part popped IH]; intros hexStr e H; [discriminate |].
  cbn [partLoop] in H. destruct (isEmpty part); [discriminate |].
  unfold parseHex in H.
  destruct (HEXREGEX_test part && isFiniteNum (parseIntRadix 16 part));
    cbn [tryCatch bind] in H; [| injection H as <-; in_list].
  destruct ((parseIntRadix 16 part <? 0) || (65535 <? parseIntRadix 16 part));
    cbn [throwIf bind] in H; [injection H as <-; in_list |].
  eapply IH. exact H.
Qed.

Lemma fromString_errors s e : fromString s = Err e -> In e addressErrors.
Proof.
  unfold fromString, normalize. intros H.
  set (v := replaceSpace s) in H.
  set (has := 0 <? lastIndexOf "."%char v) in H.
  destruct (indexOf ":"%char v <? 0).
  - destruct has; cbn [negb throwIf bind] in H; [| injection H as <-; in_list].
    revert H. generalize (lit "::FFFF:" ++ v). intros w H.
    destruct (1 <? countColonColons w); cbn [bind] in H;
      [injection H as <-; in_list |].
    destruct (countColonColons w =? 1); cbn [bind] in H.
    + revert H. generalize (patchEnds (expandColonColons true w)). intros y H.
      unfold splitParts in H.
      destruct (length (split "."%char (last (split ":"%char y) [])) =? 4)%nat;
        cbn [negb throwIf bind] in H; [| injection H as <-; in_list].
      destruct (quadLoop 4 _ []) as [hexStr |] eqn:Eq; cbn [bind] in H;
        [| injection H as <-; eapply quadLoop_errors; exact Eq].
      destruct (_ =? 8); cbn [negb throwIf bind] in H; [| injection H as <-; in_list].
      destruct (partLoop _ hexStr) as [h |] eqn:Ep; cbn [bind] in H;
        [| injection H as <-; eapply partLoop_errors; exact Ep].
      unfold bigIntOfHex in H. destruct (isEmpty h); [injection H as <-; in_list | discriminate].
    + revert H. generalize (patchEnds w). intros y H.
      unfold splitParts in H.
      destruct (length (split "."%char (last (split ":"%char y) [])) =? 4)%nat;
        cbn [negb throwIf bind] in H; [| injection H as <-; in_list].
      destruct (quadLoop 4 _ []) as [hexStr |] eqn:Eq; cbn [bind] in H;
        [| injection H as <-; eapply quadLoop_errors; exact Eq].
      destruct (_ =? 8); cbn [negb throwIf bind] in H; [| injection H as <-; in_list].
      destruct (partLoop _ hexStr) as [h |] eqn:Ep; cbn [bind] in H;
        [| injection H as <-; eapply partLoop_errors; exact Ep].
      unfold bigIntOfHex in H. destruct (isEmpty h); [injection H as <-; in_list | discriminate].
  - cbn [bind] in H.
    destruct (1 <? countColonColons v); cbn [bind] in H;
      [injection H as <-; in_list |].
    assert (Hrest : forall y,
      ('(parts, hexStr) <- splitParts has y;;
       _ <- throwIf (negb (Z.of_nat (length hexStr) / 4 + Z.of_nat (length parts) =? 8))
              (Error (lit "Invalid address"));;
       hexStr0 <- partLoop (rev parts) hexStr;; bigIntOfHex hexStr0) = Err e ->
      In e addressErrors).
    { clear H. intros y H. unfold splitParts in H. destruct has.
      - destruct (length (split "."%char (last (split ":"%char y) [])) =? 4)%nat;
          cbn [negb throwIf bind] in H; [| injection H as <-; in_list].
        destruct (quadLoop 4 _ []) as [hexStr |] eqn:Eq; cbn [bind] in H;
          [| injection H as <-; eapply quadLoop_errors; exact Eq].
        destruct (_ =? 8); cbn [negb throwIf bind] in H; [| injection H as <-; in_list].
        destruct (partLoop _ hexStr) as [h |] eqn:Ep; cbn [bind] in H;
          [| injection H as <-; eapply partLoop_errors; exact Ep].
        unfold bigIntOfHex in H. destruct (isEmpty h); [injection H as <-; in_list | discriminate].
      - cbn [bind] in H.
        destruct (_ =? 8); cbn [negb throwIf bind] in H; [| injection H as <-; in_list].
        destruct (partLoop _ []) as [h |] eqn:Ep; cbn [bind] in H;
          [| injection H as <-; eapply partLoop_errors; exact Ep].
        unfold bigIntOfHex in H. destruct (isEmpty h); [injection H as <-; in_list | discriminate]. }
    destruct (countColonColons v =? 1); cbn [bind] in H; eapply Hrest; exact H.
Qed.

(** * Further properties of the IPv6 class *)

(** ** White space in an address *)

(** X1. One run of white space is ignored wherever it stands in the text of
    an address: before it, after it or inside it. *)
Theorem one_run_of_spaces_ignored a ws b :
  noSpace a = true -> forallb isSpace ws = true -> noSpace b = true ->
  fromString (a ++ ws ++ b) = fromString (a ++ b)
  /\ new (Some (OfString (a ++ ws ++ b))) = new (Some (OfString (a ++ b))).
Proof.
  intros Ha Hws Hb.
  assert (H : fromString (a ++ ws ++ b) = fromString (a ++ b)).
  { apply fromString_replaceSpace. destruct ws as [| w ws]; [reflexivity |].
    rewrite replaceSpace_first_run by (assumption || discriminate).
    rewrite dropSpaces_noSpace by exact Hb.
    rewrite replaceSpace_noSpace; [reflexivity |].
    rewrite noSpace_app, Ha, Hb. reflexivity. }
  split; [exact H |]. unfold new. cbn [toBigInt]. rewrite H. reflexivity.
Qed.

Lemma one_run_of_spaces_ignored_witness :
  fromString (lit "fe80 ::1") = fromString (lit "fe80::1")
  /\ new (Some (OfString (lit "fe80 ::1")))
     = new (Some (OfString (lit "fe80::1"))).
Proof.
  apply (one_run_of_spaces_ignored (lit "fe80") (lit " ") (lit "::1"));
    reflexivity.
Defined.

(** ** The order and the equality of addresses *)

Lemma compare_values x y vx vy :
  toBigInt (Some x) = Ok vx -> toBigInt (Some y) = Ok vy ->
  compare x y = Ok (if vx <? vy then -1 else if vx >? vy then 1 else 0).
Proof. intros Hx Hy. unfold compare. rewrite Hx, Hy. reflexivity. Qed.

(** X2. On operands that denote addresses [compare] is the order of their
    values: it gives -1, 0 or 1, 0 exactly for the same value, the opposite
    number when the operands are exchanged, and it is transitive. *)
Theorem compare_is_the_order_of_values x y z vx vy vz :
  toBigInt (Some x) = Ok vx -> toBigInt (Some y) = Ok vy ->
  toBigInt (Some z) = Ok vz ->
  exists c,
    compare x y = Ok c
    /\ (c = -1 <-> vx < vy) /\ (c = 0 <-> vx = vy) /\ (c = 1 <-> vx > vy)
    /\ compare y x = Ok (- c)
    /\ (forall c', compare y z = Ok c' -> c <= 0 -> c' <= 0 ->
        exists c'', compare x z = Ok c'' /\ c'' <= 0).
Proof.
  intros Hx Hy Hz.
  rewrite (compare_values x y vx vy Hx Hy), (compare_values y x vy vx Hy Hx),
    (compare_values y z vy vz Hy Hz), (compare_values x z vx vz Hx Hz).
  eexists. split; [reflexivity |].
  destruct (vx <? vy) eqn:E1; [apply Z.ltb_lt in E1 | apply Z.ltb_ge in E1];
    (destruct (vx >? vy) eqn:E2;
     [apply Z.gtb_lt in E2 | rewrite Z.gtb_ltb in E2; apply Z.ltb_ge in E2]);
    (destruct (vy <? vx) eqn:E3; [apply Z.ltb_lt in E3 | apply Z.ltb_ge in E3]);
    (destruct (vy >? vx) eqn:E4;
     [apply Z.gtb_lt in E4 | rewrite Z.gtb_ltb in E4; apply Z.ltb_ge in E4]);
    try lia;
    (repeat split; try lia; try reflexivity);
    intros c' Hc' Hc Hle; injection Hc' as <-;
    (destruct (vy <? vz) eqn:E5; [apply Z.ltb_lt in E5 | apply Z.ltb_ge in E5]);
    (destruct (vy >? vz) eqn:E6;
     [apply Z.gtb_lt in E6 | rewrite Z.gtb_ltb in E6; apply Z.ltb_ge in E6]);
    try lia;
    (destruct (vx <? vz) eqn:E7; [apply Z.ltb_lt in E7 | apply Z.ltb_ge in E7]);
    (destruct (vx >? vz) eqn:E8;
     [apply Z.gtb_lt in E8 | rewrite Z.gtb_ltb in E8; apply Z.ltb_ge in E8]);
    try lia; eexists; (split; [reflexivity | lia]).
Qed.

Lemma compare_is_the_order_of_values_witness :
  exists c,
    compare (OfString (lit "::1")) (OfBigInt 2) = Ok c
    /\ (c = -1 <-> 1 < 2) /\ (c = 0 <-> 1 = 2) /\ (c = 1 <-> 1 > 2)
    /\ compare (OfBigInt 2) (OfString (lit "::1")) = Ok (- c)
    /\ (forall c', compare (OfBigInt 2) (OfIPv6 (mk 3)) = Ok c' ->
        c <= 0 -> c' <= 0 ->
        exists c'', compare (OfString (lit "::1")) (OfIPv6 (mk 3)) = Ok c''
                    /\ c'' <= 0).
Proof.
  apply (compare_is_the_order_of_values (OfString (lit "::1")) (OfBigInt 2)
           (OfIPv6 (mk 3)) 1 2 3); reflexivity.
Defined.

Lemma equals_true x y :
  equals x y = Ok true
  <-> (x = None /\ y = None)
      \/ exists a b v, x = Some a /\ y = Some b
                       /\ toBigInt (Some a) = Ok v /\ toBigInt (Some b) = Ok v.
Proof.
  destruct x as [a |], y as [b |]; cbn [equals].
  - unfold compare.
    destruct (toBigInt (Some a)) as [va | ea] eqn:Ea; cbn [bind tryCatch].
    + destruct (toBigInt (Some b)) as [vb | eb] eqn:Eb; cbn [bind tryCatch].
      * split.
        -- intros H. right. exists a, b, va. injection H as H.
           destruct (va <? vb) eqn:E1; [discriminate |].
           destruct (va >? vb) eqn:E2; [discriminate |].
           apply Z.ltb_ge in E1. rewrite Z.gtb_ltb in E2. apply Z.ltb_ge in E2.
           replace vb with va in * by lia. repeat split; assumption.
        -- intros [[H _] | (a' & b' & v & Ha & Hb & Hva & Hvb)]; [discriminate |].
           injection Ha as <-. injection Hb as <-.
           rewrite Ea in Hva. rewrite Eb in Hvb.
           injection Hva as ->. injection Hvb as ->.
           rewrite Z.ltb_irrefl, Z.gtb_ltb, Z.ltb_irrefl. reflexivity.
      * split; [discriminate |].
        intros [[H _] | (a' & b' & v & Ha & Hb & Hva & Hvb)]; [discriminate |].
        injection Hb as <-. rewrite Eb in Hvb. discriminate.
    + split; [discriminate |].
      intros [[H _] | (a' & b' & v & Ha & Hb & Hva & Hvb)]; [discriminate |].
      injection Ha as <-. rewrite Ea in Hva. discriminate.
  - split; [discriminate |].
    intros [[H _] | (a' & b' & v & Ha & Hb & _)]; discriminate.
  - split; [discriminate |].
    intros [[_ H] | (a' & b' & v & Ha & Hb & _)]; discriminate.
  - split; [intros _; left; split; reflexivity | reflexivity].
Qed.

Lemma equals_bool x y : exists b, equals x y = Ok b.
Proof.
  destruct x as [a |], y as [b |]; cbn [equals]; try (eexists; reflexivity).
  destruct (compare a b); cbn [bind tryCatch]; eexists; reflexivity.
Qed.

(** X3. [equals] is a partial equivalence: it is symmetric and transitive,
    and an operand equals itself exactly when it is [null] or denotes an
    address; a string that is not an address does not equal itself. *)
Theorem equals_partial_equivalence :
  (forall x y, equals x y = equals y x)
  /\ (forall x y z,
        equals x y = Ok true -> equals y z = Ok true -> equals x z = Ok true)
  /\ (forall x,
        equals x x = Ok true
        <-> x = None \/ exists a v, x = Some a /\ toBigInt x = Ok v)
  /\ (forall s e,
        fromString s = Err e ->
        equals (Some (OfString s)) (Some (OfString s)) = Ok false).
Proof.
  assert (Hsym : forall x y, equals x y = Ok true -> equals y x = Ok true).
  { intros x y H. apply equals_true in H. apply equals_true.
    destruct H as [[-> ->] | (a & b & v & -> & -> & Ha & Hb)];
      [left; split; reflexivity | right; exists b, a, v; repeat split; assumption]. }
  split; [| split; [| split]].
  - intros x y. destruct (equals_bool x y) as [[] H], (equals_bool y x) as [[] H'];
      rewrite H, H'; try reflexivity.
    + apply Hsym in H. congruence.
    + apply Hsym in H'. congruence.
  - intros x y z H1 H2. apply equals_true in H1, H2. apply equals_true.
    destruct H1 as [[-> ->] | (a & b & v & -> & -> & Ha & Hb)].
    + destruct H2 as [[_ ->] | (a & b & v & Ha & _)];
        [left; split; reflexivity | discriminate].
    + destruct H2 as [[H _] | (b' & c & v' & Hb' & -> & Hvb & Hc)];
        [discriminate |].
      injection Hb' as <-. rewrite Hb in Hvb. injection Hvb as <-.
      right. exists a, c, v. repeat split; assumption.
  - intros x. rewrite equals_true. split.
    + intros [[-> _] | (a & b & v & -> & _ & Ha & _)];
        [left; reflexivity | right; exists a, v; split; [reflexivity | exact Ha]].
    + intros [-> | (a & v & -> & Ha)];
        [left; split; reflexivity
        | right; exists a, a, v; repeat split; assumption].
  - intros s e H. cbn [equals]. unfold compare. cbn [toBigInt]. rewrite H.
    reflexivity.
Qed.

Lemma equals_partial_equivalence_witness :
  equals (Some (OfString (lit "::2"))) (Some (OfIPv6 (mk 2))) = Ok true.
Proof.
  apply (proj1 (proj2 equals_partial_equivalence)
           (Some (OfString (lit "::2"))) (Some (OfBigInt 2)) (Some (OfIPv6 (mk 2))));
    reflexivity.
Defined.

(** ** What the parser gives: at most 128 bits, and errors of one class *)

Lemma digitVal_hex c : isHexDigit c = true -> 0 <= digitVal c <= 15.
Proof. each_char c; intros H; try discriminate H; cbv; split; discriminate. Qed.

Lemma parseIntRadix_hex_bound s :
  forallb isHexDigit s = true ->
  0 <= parseIntRadix 16 s < 16 ^ Z.of_nat (length s).
Proof.
  induction s as [| c s IH] using rev_ind; intros H; [cbn; lia |].
  rewrite forallb_app in H. apply andb_prop in H as [H1 H2].
  simpl in H2. rewrite andb_true_r in H2. apply digitVal_hex in H2.
  rewrite parseIntRadix_snoc, length_app. specialize (IH H1).
  cbn [length]. rewrite Nat2Z.inj_add, Z.pow_add_r by lia.
  change (16 ^ Z.of_nat 1) with 16. nia.
Qed.

Lemma padded_group g :
  0 <= g <= 0xFFFF ->
  padStart 4 "0"%char (toStringRadix 16 g) = fixedDigits 16 4 g.
Proof. intros Hg. apply padStart_toStringRadix; [lia | lia | simpl; lia]. Qed.

Lemma hex_fixedDigits n z : forallb isHexDigit (fixedDigits 16 n z) = true.
Proof.
  apply fixedDigits_forallb; [lia |].
  intros d Hd. apply isHexDigit_digitChar. lia.
Qed.

Lemma partLoop_digits popped : forall h out,
  partLoop popped h = Ok out ->
  (exists pre, out = pre ++ h
               /\ forallb isHexDigit pre = true
               /\ (length pre <= 4 * length popped)%nat)
  /\ (forall part rest, popped = part :: rest -> part <> [] -> out <> []).
Proof.
  induction popped as [| part popped IH]; intros h out H.
  - injection H as <-. split; [exists []; repeat split; simpl; lia |].
    intros part rest E. discriminate E.
  - cbn [partLoop] in H. destruct (isEmpty part) eqn:Ee.
    + injection H as <-. split; [exists []; repeat split; simpl; lia |].
      intros part' rest E Hne. injection E as <- <-.
      destruct part; [contradiction | discriminate].
    + destruct (parseHex part) as [g |]; cbn [tryCatch bind] in H; [| discriminate].
      destruct ((g <? 0) || (65535 <? g)) eqn:Er; cbn [throwIf bind] in H;
        [discriminate |].
      apply orb_false_iff in Er as [E1 E2]. apply Z.ltb_ge in E1, E2.
      rewrite padded_group in H by lia.
      apply IH in H as [(pre & -> & Hpre & Hlen) _].
      split.
      * exists (pre ++ fixedDigits 16 4 g). rewrite <- app_assoc.
        split; [reflexivity |]. split.
        -- rewrite forallb_app, Hpre, hex_fixedDigits. reflexivity.
        -- rewrite length_app, length_fixedDigits. cbn [length]. lia.
      * intros _ _ _ _ E. apply (f_equal (@length ascii)) in E.
        rewrite !length_app, length_fixedDigits in E. cbn [length] in E. lia.
Qed.

Lemma quadLoop_digits i : forall quads h out,
  quadLoop i quads h = Ok out ->
  forallb isHexDigit h = true ->
  forallb isHexDigit out = true /\ length out = (length h + 2 * i)%nat.
Proof.
  induction i as [| i IH]; intros quads h out H Hh.
  - injection H as <-. split; [exact Hh | lia].
  - cbn [quadLoop] in H. destruct quads as [| q quads]; [discriminate |].
    destruct (parseDecimal q) as [b |]; cbn [tryCatch bind] in H; [| discriminate].
    destruct ((b <? 0) || (255 <? b)) eqn:E; cbn [throwIf bind] in H; [discriminate |].
    apply orb_false_iff in E as [E1 E2]. apply Z.ltb_ge in E1, E2.
    rewrite hex2 in H by lia. apply IH in H.
    + rewrite length_app, length_fixedDigits in H. split; [apply H | lia].
    + rewrite forallb_app, Hh, hex_fixedDigits. reflexivity.
Qed.

Lemma lastChar_cons x s : s <> [] -> lastChar (x :: s) = lastChar s.
Proof. intros H. apply (lastChar_app [x] s H). Qed.

Lemma lastChar_none s : lastChar s = None -> s = [].
Proof.
  unfold lastChar. destruct (rev s) eqn:E; [| discriminate].
  intros _. apply (f_equal (@rev ascii)) in E. rewrite rev_involutive in E.
  exact E.
Qed.

(** The last piece of a split is empty only for a text that is empty or
    ends with the separator. *)
Lemma last_split_empty c s :
  last (split c s) [] = [] -> s = [] \/ lastChar s = Some c.
Proof.
  induction s as [| x s IH]; intros H; [left; reflexivity |]. right.
  cbn [split] in H. destruct (eqc x c) eqn:E.
  - apply Ascii.eqb_eq in E. subst x.
    destruct (split c s) as [| p ps] eqn:Es; [destruct (split_nonempty c s Es) |].
    change (last ([] :: p :: ps) []) with (last (p :: ps) []) in H.
    destruct (IH H) as [-> | Hl]; [reflexivity |].
    rewrite lastChar_cons; [exact Hl |]. intros ->. discriminate Hl.
  - destruct (split c s) as [| p ps] eqn:Es; [destruct (split_nonempty c s Es) |].
    destruct ps as [| p' ps]; [discriminate H |].
    change (last ((x :: p) :: p' :: ps) []) with (last (p :: p' :: ps) []) in H.
    destruct (IH H) as [-> | Hl]; [discriminate Es |].
    rewrite lastChar_cons; [exact Hl |]. intros ->. discriminate Hl.
Qed.

Lemma patchEnds_last value :
  patchEnds value = []
  \/ exists c, lastChar (patchEnds value) = Some c /\ isColon c = false.
Proof.
  unfold patchEnds.
  set (v := if indexOf ":"%char value =? 0 then lit "0" ++ value else value).
  destruct (lastChar v) as [c |] eqn:E.
  - right. destruct (isColon c) eqn:Ec.
    + exists "0"%char. split; [apply lastChar_snoc | reflexivity].
    + exists c. split; [exact E | exact Ec].
  - left. apply lastChar_none. exact E.
Qed.

Lemma normalize_patched s has y :
  normalize s = Ok (has, y) -> exists value, y = patchEnds value.
Proof.
  unfold normalize. intros H.
  destruct (if indexOf ":"%char (replaceSpace s) <? 0 then _ else _) as [v |];
    cbn [bind] in H; [| discriminate].
  destruct (if 1 <? countColonColons v then _ else _) as [w |];
    cbn [bind] in H; [| discriminate].
  injection H as _ <-. exists w. reflexivity.
Qed.

Lemma normalize_errors s e : normalize s = Err e -> In e parseErrors.
Proof.
  unfold normalize. intros H.
  set (v := replaceSpace s) in H.
  destruct (indexOf ":"%char v <? 0).
  - destruct (0 <? lastIndexOf "."%char v); cbn [negb throwIf bind] in H;
      [| injection H as <-; in_list].
    destruct (1 <? countColonColons _); cbn [bind] in H;
      [injection H as <-; in_list |].
    destruct (countColonColons _ =? 1); discriminate H.
  - cbn [bind] in H.
    destruct (1 <? countColonColons _); cbn [bind] in H;
      [injection H as <-; in_list |].
    destruct (countColonColons _ =? 1); discriminate H.
Qed.

Lemma quadLoop_parseErrors i : forall quads hexStr e,
  quadLoop i quads hexStr = Err e -> In e parseErrors.
Proof.
  induction i as [| i IH]; intros quads hexStr e H; [discriminate |].
  cbn [quadLoop] in H. destruct quads as [| q quads].
  - injection H as <-. in_list.
  - unfold parseDecimal in H.
    destruct (DECREGEX_test q && isFiniteNum (parseIntRadix 10 q));
      cbn [tryCatch bind] in H; [| injection H as <-; in_list].
    destruct ((parseIntRadix 10 q <? 0) || (255 <? parseIntRadix 10 q));
      cbn [throwIf bind] in H; [injection H as <-; in_list |].
    eapply IH. exact H.
Qed.

Lemma partLoop_parseErrors popped : forall hexStr e,
  partLoop popped hexStr = Err e -> In e parseErrors.
Proof.
  induction popped as [| part popped IH]; intros hexStr e H; [discriminate |].
  cbn [partLoop] in H. destruct (isEmpty part); [discriminate |].
  unfold parseHex in H.
  destruct (HEXREGEX_test part && isFiniteNum (parseIntRadix 16 part));
    cbn [tryCatch bind] in H; [| injection H as <-; in_list].
  destruct ((parseIntRadix 16 part <? 0) || (65535 <? parseIntRadix 16 part));
    cbn [throwIf bind] in H; [injection H as <-; in_list |].
  eapply IH. exact H.
Qed.

Lemma splitParts_out has y :
  match splitParts has y with
  | Ok (parts, hexStr) =>
      forallb isHexDigit hexStr = true
      /\ (if has then length hexStr = 8%nat
          else hexStr = [] /\ parts = split ":"%char y)
  | Err e => In e parseErrors
  end.
Proof.
  unfold splitParts. destruct has.
  - destruct (length _ =? 4)%nat; cbn [negb throwIf bind]; [| in_list].
    destruct (quadLoop 4 _ []) as [hexStr |] eqn:E; cbn [bind].
    + apply quadLoop_digits in E; [exact E | reflexivity].
    + eapply quadLoop_parseErrors. exact E.
  - repeat split.
Qed.

(** What [fromString] gives, on every text. *)
Lemma fromString_out s :
  match fromString s with
  | Ok v => 0 <= v <= MAX
  | Err e => In e parseErrors
  end.
Proof.
  unfold fromString.
  destruct (normalize s) as [[has y] |] eqn:En; cbn [bind];
    [| eapply normalize_errors; exact En].
  pose proof (splitParts_out has y) as Hs.
  destruct (splitParts has y) as [[parts hexStr] |]; cbn [bind]; [| exact Hs].
  destruct Hs as [Hhex Hs].
  destruct (_ =? 8) eqn:Ec; cbn [negb throwIf bind]; [| in_list].
  apply Z.eqb_eq in Ec.
  destruct (partLoop (rev parts) hexStr) as [out |] eqn:Ep; cbn [bind];
    [| eapply partLoop_parseErrors; exact Ep].
  apply partLoop_digits in Ep as [(pre & -> & Hpre & Hlen) Hfirst].
  rewrite length_rev in Hlen.
  assert (Hne : pre ++ hexStr <> []).
  { destruct has.
    - intros E. apply app_eq_nil in E as [_ ->]. discriminate Hs.
    - destruct Hs as [-> ->]. cbn in Ec.
      destruct (split ":"%char y) as [| p ps] eqn:Ey using rev_ind;
        [simpl in Ec; lia |].
      clear IHps. rewrite rev_app_distr in Hfirst. cbn [rev app] in Hfirst.
      apply (Hfirst p (rev ps) eq_refl).
      intros ->.
      assert (Hl : last (split ":"%char y) [] = [])
        by (rewrite Ey; apply last_last).
      apply normalize_patched in En as [value ->].
      apply last_split_empty in Hl as [Hl | Hl].
      + rewrite Hl in Ey. apply (f_equal (@length str)) in Ey.
        rewrite length_app in Ey, Ec. cbn in Ey, Ec. lia.
      + destruct (patchEnds_last value) as [E | (c & E1 & E2)].
        * rewrite E in Hl. discriminate Hl.
        * rewrite Hl in E1. injection E1 as <-. discriminate E2. }
  unfold bigIntOfHex. rewrite (isEmpty_false _ Hne).
  assert (Hd : forallb isHexDigit (pre ++ hexStr) = true)
    by (rewrite forallb_app, Hpre, Hhex; reflexivity).
  pose proof (parseIntRadix_hex_bound _ Hd) as Hb.
  assert (Hl : (length (pre ++ hexStr) <= 32)%nat).
  { rewrite length_app. destruct has.
    - rewrite Hs in Ec |- *. change (Z.of_nat 8 / 4) with 2 in Ec. lia.
    - destruct Hs as [-> _]. cbn in Ec. simpl. lia. }
  assert (16 ^ Z.of_nat (length (pre ++ hexStr)) <= 16 ^ 32)
    by (apply Z.pow_le_mono_r; lia).
  unfold MAX. change (2 ^ 128) with (16 ^ 32). lia.
Qed.

Lemma new_of_parsed s v :
  fromString s = Ok v -> new (Some (OfString s)) = Ok (mk v).
Proof.
  intros H. pose proof (fromString_out s) as Ho. rewrite H in Ho.
  unfold new. cbn [toBigInt]. rewrite H. cbn [bind].
  replace (MAX <? v) with false by (symmetry; apply Z.ltb_ge; lia).
  replace (v <? ZERO) with false by (symmetry; apply Z.ltb_ge; unfold ZERO; lia).
  reflexivity.
Qed.

(** X4. A text that the parser of addresses accepts never has more than 128
    bits: the parser gives a value between 0 and [MAX], so the constructor
    accepts every text that the parser accepts, and [toBigInt] gives the
    same number back for the instance. *)
Theorem parsed_value_fits s v :
  fromString s = Ok v ->
  0 <= v <= MAX
  /\ new (Some (OfString s)) = Ok (mk v)
  /\ toBigInt (Some (OfIPv6 (mk v))) = fromString s.
Proof.
  intros H. pose proof (fromString_out s) as Ho. rewrite H in Ho.
  split; [exact Ho |]. split; [| symmetry; exact H].
  apply new_of_parsed, H.
Qed.

Lemma parsed_value_fits_witness :
  0 <= 2 ^ 128 - 1 <= MAX
  /\ new (Some (OfString (lit "ffff:ffff:ffff:ffff:ffff:ffff:ffff:ffff")))
     = Ok (mk (2 ^ 128 - 1))
  /\ toBigInt (Some (OfIPv6 (mk (2 ^ 128 - 1))))
     = fromString (lit "ffff:ffff:ffff:ffff:ffff:ffff:ffff:ffff").
Proof.
  apply (parsed_value_fits (lit "ffff:ffff:ffff:ffff:ffff:ffff:ffff:ffff")).
  vm_compute. reflexivity.
Defined.

(** X5. On a string the constructor throws nothing but an [Error] with one
    of six messages: the range errors of the constructor and the syntax
    error of [BigInt] cannot come from a string. *)
Theorem string_errors s e :
  new (Some (OfString s)) = Err e ->
  In e parseErrors
  /\ e <> RangeError (lit "value has more than 128 bits")
  /\ e <> RangeError (lit "value is negative")
  /\ e <> SyntaxError (lit "Cannot convert 0x to a BigInt").
Proof.
  intros H.
  assert (Hin : In e parseErrors).
  { unfold new in H. cbn [toBigInt] in H.
    pose proof (fromString_out s) as Ho.
    destruct (fromString s) as [v |]; cbn [bind] in H.
    - replace (MAX <? v) with false in H by (symmetry; apply Z.ltb_ge; lia).
      replace (v <? ZERO) with false in H
        by (symmetry; apply Z.ltb_ge; unfold ZERO; lia).
      discriminate H.
    - injection H as <-. exact Ho. }
  split; [exact Hin |].
  repeat split; intros ->; simpl in Hin;
    repeat (destruct Hin as [Hin | Hin]; [discriminate Hin |]); exact Hin.
Qed.

Lemma string_errors_witness :
  In (Error (lit "Invalid address")) parseErrors
  /\ Error (lit "Invalid address") <> RangeError (lit "value has more than 128 bits")
  /\ Error (lit "Invalid address") <> RangeError (lit "value is negative")
  /\ Error (lit "Invalid address")
     <> SyntaxError (lit "Cannot convert 0x to a BigInt").
Proof. apply (string_errors (lit "foobar")). vm_compute. reflexivity. Defined.

(** ** The value of a well-formed text *)

Lemma concat_chunks_value w G :
  Forall (fun g => 0 <= g < 16 ^ Z.of_nat w) G ->
  parseIntRadix 16 (concat (map (fixedDigits 16 w) G))
  = fold_left (fun acc g => 16 ^ Z.of_nat w * acc + g) G 0.
Proof.
  induction G as [| g G IH] using rev_ind; intros H; [reflexivity |].
  apply Forall_app in H as [HG Hg]. inversion Hg as [| ? ? Hg' _]; subst.
  rewrite map_app, concat_app, fold_left_app. cbn [map concat fold_left].
  rewrite app_nil_r, parseIntRadix_app, length_fixedDigits, (IH HG).
  rewrite parseIntRadix_fixedDigits by lia.
  rewrite Z.mod_small by lia. ring.
Qed.

Lemma concat_groups_value G :
  Forall (fun g => 0 <= g <= 0xFFFF) G ->
  parseIntRadix 16 (concat (map (fixedDigits 16 4) G)) = groupsValue G.
Proof.
  intros H. rewrite (concat_chunks_value 4); [reflexivity |].
  revert H. apply Forall_impl. intros g Hg.
  change (16 ^ Z.of_nat 4) with 65536. lia.
Qed.

Lemma hexToks_range L G :
  Forall2 hexTok L G -> Forall (fun g => 0 <= g <= 0xFFFF) G.
Proof. induction 1 as [| u g L G (_ & _ & _ & Hg) _ IH]; constructor; assumption. Qed.

(** X6. Eight groups of hexadecimal digits with values up to [0xFFFF],
    written with colons between them, are read as the number that has
    these groups, the first the most significant: the case of the letters
    and zeros before a group do not matter. *)
Theorem full_form_value L G :
  Forall2 hexTok L G -> length L = 8%nat ->
  fromString (join (lit ":") L) = Ok (groupsValue G)
  /\ new (Some (OfString (join (lit ":") L))) = Ok (mk (groupsValue G)).
Proof.
  intros HT Hlen.
  assert (H : fromString (join (lit ":") L) = Ok (groupsValue G)).
  { rewrite (fromString_groups _ L G); [| | exact HT | exact Hlen].
    - rewrite concat_groups_value by (eapply hexToks_range; exact HT).
      reflexivity.
    - apply normalize_plain.
      + eapply hexTok_tokens; exact HT.
      + lia.
      + apply noDot_join. eapply hexToks_noDot; exact HT. }
  split; [exact H | apply new_of_parsed, H].
Qed.

Lemma full_form_value_witness :
  fromString (lit "0:00:000:0000:00000:A:0b:00Cd") = Ok 0x000A000B00CD
  /\ new (Some (OfString (lit "0:00:000:0000:00000:A:0b:00Cd")))
     = Ok (mk 0x000A000B00CD).
Proof.
  apply (full_form_value
           [lit "0"; lit "00"; lit "000"; lit "0000"; lit "00000"; lit "A";
            lit "0b"; lit "00Cd"]
           [0; 0; 0; 0; 0; 10; 11; 205]); [| reflexivity].
  repeat (constructor;
          [split; [discriminate |];
           split; [reflexivity |]; split; [reflexivity | simpl; lia] |]).
  constructor.
Defined.

(** X7. A text with one ["::"] between groups of hexadecimal digits, fewer
    than eight in all, is read as the number whose groups are those before
    the ["::"], then as many zero groups as are missing from eight, then
    those after it. *)
Theorem elided_form_value P Q GP GQ :
  Forall2 hexTok P GP -> Forall2 hexTok Q GQ ->
  (length P + length Q < 8)%nat ->
  fromString (join (lit ":") P ++ lit "::" ++ join (lit ":") Q)
  = Ok (groupsValue (GP ++ repeat 0 (8 - length P - length Q) ++ GQ)).
Proof.
  intros HP HQ Hlen.
  set (n := (8 - length P - length Q)%nat).
  assert (HT : Forall2 hexTok (P ++ zeros n ++ Q) (GP ++ repeat 0 n ++ GQ)).
  { apply Forall2_app; [exact HP |].
    apply Forall2_app; [apply hexToks_zeros | exact HQ]. }
  rewrite (fromString_groups _ (P ++ zeros n ++ Q) (GP ++ repeat 0 n ++ GQ)).
  - rewrite concat_groups_value by (eapply hexToks_range; exact HT).
    reflexivity.
  - apply (normalize_elided P Q false).
    + eapply hexTok_tokens; exact HP.
    + eapply hexTok_tokens; exact HQ.
    + apply hasIPv4_noDot. rewrite !noDot_app.
      rewrite (noDot_join P), (noDot_join Q); [reflexivity | |];
        eapply hexToks_noDot; eassumption.
    + exact Hlen.
  - exact HT.
  - rewrite !length_app. unfold zeros. rewrite repeat_length. unfold n. lia.
Qed.

Lemma elided_form_value_witness :
  fromString (lit "fe80::0202:B3FF") = Ok 0xfe80000000000000000000000202b3ff.
Proof.
  apply (elided_form_value [lit "fe80"] [lit "0202"; lit "B3FF"]
           [0xfe80] [0x0202; 0xb3ff]).
  - repeat (constructor;
            [split; [discriminate |];
             split; [reflexivity |]; split; [reflexivity | simpl; lia] |]).
    constructor.
  - repeat (constructor;
            [split; [discriminate |];
             split; [reflexivity |]; split; [reflexivity | simpl; lia] |]).
    constructor.
  - simpl. lia.
Defined.

(** ** The dot-decimal texts *)

Lemma split_join_dots us :
  us <> [] -> Forall (fun u => noChar "."%char u = true) us ->
  split "."%char (join (lit ".") us) = us.
Proof.
  induction us as [| u us IH]; intros Hne H; [congruence |].
  inversion H as [| ? ? Hu Hus]; subst.
  destruct us as [| w us]; [apply split_one; exact Hu |].
  change (join (lit ".") (u :: w :: us))
    with (u ++ "."%char :: join (lit ".") (w :: us)).
  rewrite split_more by exact Hu. f_equal. apply IH; [discriminate | exact Hus].
Qed.

Lemma clean_join_dots us :
  Forall (fun u => clean u = true) us -> clean (join (lit ".") us) = true.
Proof.
  induction 1 as [| u us Hu _ IH]; [reflexivity |].
  destruct us as [| w us]; [exact Hu |].
  change (join (lit ".") (u :: w :: us))
    with (u ++ lit "." ++ join (lit ".") (w :: us)).
  rewrite !clean_app, Hu, IH. reflexivity.
Qed.

Lemma indexOfFrom_clean s : forall i,
  clean s = true -> indexOfFrom ":"%char s i = -1.
Proof.
  induction s as [| c s IH]; intros i H; [reflexivity |].
  apply clean_cons in H as (Hc & _ & Hs). cbn [indexOfFrom].
  change (eqc c ":"%char) with (isColon c). rewrite Hc. apply IH, Hs.
Qed.

(** A text without colons is read as if [::FFFF:] stood before it. *)
Lemma normalize_bare x q :
  clean (x :: q) = true -> In "."%char q ->
  normalize (x :: q) = normalize (lit "::FFFF:" ++ x :: q).
Proof.
  intros Hc Hin. unfold normalize.
  rewrite (replaceSpace_noSpace (x :: q)) by (apply noSpace_clean, Hc).
  rewrite (replaceSpace_noSpace (lit "::FFFF:" ++ x :: q))
    by (rewrite noSpace_app, (noSpace_clean _ Hc); reflexivity).
  rewrite (hasIPv4_found x q Hin).
  change (lit "::FFFF:" ++ x :: q) with (":"%char :: (lit ":FFFF:" ++ x :: q)).
  rewrite (hasIPv4_found ":"%char (lit ":FFFF:" ++ x :: q))
    by (apply in_or_app; right; right; exact Hin).
  unfold indexOf at 1. rewrite (indexOfFrom_clean _ 0 Hc).
  reflexivity.
Qed.

Lemma decToks_clean us bs :
  Forall2 decTok us bs -> Forall (fun u => clean u = true) us.
Proof. induction 1; constructor; [eapply decTok_clean; eassumption | assumption]. Qed.

Lemma decToks_noDot us bs :
  Forall2 decTok us bs -> Forall (fun u => noChar "."%char u = true) us.
Proof. induction 1; constructor; [eapply decTok_noDot; eassumption | assumption]. Qed.

Lemma decToks_range us bs :
  Forall2 decTok us bs -> Forall (fun b => 0 <= b <= 255) bs.
Proof.
  induction 1 as [| u b ? ? (_ & _ & _ & Hb) _ IH]; constructor; assumption.
Qed.

Lemma hexTok_FFFF : hexTok (lit "FFFF") 0xFFFF.
Proof. repeat split; try reflexivity; try discriminate. Qed.

Lemma mapped_tokens F u0 u1 u2 u3 b0 b1 b2 b3 :
  hexTok F 0xFFFF ->
  Forall2 decTok [u0; u1; u2; u3] [b0; b1; b2; b3] ->
  fromString (lit "::" ++ F ++ lit ":" ++ join (lit ".") [u0; u1; u2; u3])
  = Ok (mappedValue b0 b1 b2 b3).
Proof.
  intros HF HT.
  set (us := [u0; u1; u2; u3]) in *. set (bs := [b0; b1; b2; b3]) in *.
  set (quad := join (lit ".") us).
  assert (Hclean : Forall (fun u => clean u = true) us)
    by apply (decToks_clean us bs HT).
  assert (Hdots : Forall (fun u => noChar "."%char u = true) us)
    by apply (decToks_noDot us bs HT).
  assert (Hrange : Forall (fun b => 0 <= b < 16 ^ Z.of_nat 2) bs).
  { apply (Forall_impl _ (P := fun b => 0 <= b <= 255));
      [| apply (decToks_range us bs HT)].
    intros b Hb. change (16 ^ Z.of_nat 2) with 256. lia. }
  assert (Hquad : token quad).
  { split; [| apply clean_join_dots, Hclean].
    inversion HT as [| ? ? ? ? (Hne & _) _]; subst.
    unfold quad, us. cbn [join]. intros E. apply app_eq_nil in E as [E _].
    contradiction. }
  assert (Hn : normalize (lit "::" ++ F ++ lit ":" ++ quad)
               = Ok (true, join (lit ":") (zeros 5 ++ [F; quad]))).
  { apply (normalize_elided [] [F; quad] true).
    - constructor.
    - constructor; [eapply hexTok_token; exact HF |].
      constructor; [exact Hquad | constructor].
    - apply hasIPv4_found. cbn [join app].
      right. apply in_or_app. right. apply in_or_app. right.
      unfold quad, us. cbn [join].
      apply in_or_app. right. left. reflexivity.
    - simpl. lia. }
  unfold fromString. rewrite Hn. cbn [bind]. unfold splitParts.
  rewrite split_join.
  - cbn [zeros repeat app last removelast].
    unfold quad. rewrite (split_join_dots us) by (discriminate || exact Hdots).
    cbn [us length Nat.eqb negb throwIf bind].
    change (quadLoop 4 us []) with (quadLoop (length us) us []).
    rewrite (quadLoop_tokens us bs [] HT).
    cbn [bind app].
    assert (Hl : length (concat (map (fixedDigits 16 2) bs)) = 8%nat).
    { unfold bs. cbn [map concat]. rewrite !length_app, !length_fixedDigits.
      reflexivity. }
    rewrite Hl.
    change (Z.of_nat 8 / 4
            + Z.of_nat (length [lit "0"; lit "0"; lit "0"; lit "0"; lit "0"; F])
            =? 8) with true.
    cbn [negb throwIf bind].
    rewrite (partLoop_tokens _ (rev [0; 0; 0; 0; 0; 0xFFFF])).
    + cbn [bind]. unfold bigIntOfHex. rewrite rev_involutive.
      rewrite isEmpty_false.
      * rewrite parseIntRadix_app, Hl.
        rewrite concat_groups_value by (repeat constructor; lia).
        rewrite (concat_chunks_value 2 bs Hrange).
        unfold bs, mappedValue, groupsValue. cbn [fold_left].
        change (16 ^ Z.of_nat 2) with 256. change (16 ^ Z.of_nat 8) with (2 ^ 32).
        f_equal. lia.
      * intros E. apply (f_equal (@length ascii)) in E.
        rewrite length_app, Hl in E. cbn in E. lia.
    + apply Forall2_rev.
      repeat (constructor;
              [first [exact HF
                     | repeat split; try reflexivity; try discriminate; lia] |]).
      constructor.
  - destruct (zeros 5); discriminate.
  - apply tokens_clean. apply Forall_app. split; [apply zeros_tokens |].
    constructor; [eapply hexTok_token; exact HF |].
    constructor; [exact Hquad | constructor].
Qed.

Lemma bytesOf_mapped b0 b1 b2 b3 :
  Forall (fun b => 0 <= b <= 255) [b0; b1; b2; b3] ->
  0 <= mappedValue b0 b1 b2 b3 <= MAX
  /\ mappedValue b0 b1 b2 b3 / 2 ^ 32 = 0xFFFF
  /\ bytesOf (mappedValue b0 b1 b2 b3) = [b0; b1; b2; b3].
Proof.
  intros H. inversion H as [| ? ? H0 H']; subst. inversion H' as [| ? ? H1 H'']; subst.
  inversion H'' as [| ? ? H2 H''']; subst. inversion H''' as [| ? ? H3 _]; subst.
  unfold mappedValue, MAX, bytesOf. cbn [chunksRev rev app].
  change (2 ^ 32) with 4294967296. change (2 ^ 24) with 16777216.
  change (2 ^ 16) with 65536. change (2 ^ 8) with 256.
  change (2 ^ 128) with 340282366920938463463374607431768211456.
  split; [lia |]. split; [Z.div_mod_to_equations; lia |].
  repeat f_equal; Z.div_mod_to_equations; lia.
Qed.

Lemma dotted_value u0 u1 u2 u3 b0 b1 b2 b3 :
  Forall2 decTok [u0; u1; u2; u3] [b0; b1; b2; b3] ->
  let quad := join (lit ".") [u0; u1; u2; u3] in
  let v := mappedValue b0 b1 b2 b3 in
  fromString quad = Ok v
  /\ fromString (lit "::ffff:" ++ quad) = Ok v
  /\ fromString (lit "::FFFF:" ++ quad) = Ok v.
Proof.
  intros HT quad v.
  assert (HF : fromString (lit "::FFFF:" ++ quad) = Ok v)
    by apply (mapped_tokens (lit "FFFF") u0 u1 u2 u3 b0 b1 b2 b3 hexTok_FFFF HT).
  assert (Hf : fromString (lit "::ffff:" ++ quad) = Ok v)
    by apply (mapped_tokens (lit "ffff") u0 u1 u2 u3 b0 b1 b2 b3 hexTok_ffff HT).
  split; [| split; assumption].
  rewrite <- HF. unfold fromString. f_equal.
  inversion HT as [| ? ? ? ? (Hne & _) _]; subst.
  destruct u0 as [| x u0]; [contradiction |].
  apply (normalize_bare x (u0 ++ lit "." ++ join (lit ".") [u1; u2; u3])).
  - apply (clean_join_dots [x :: u0; u1; u2; u3]).
    apply (decToks_clean _ _ HT).
  - apply in_or_app. right. left. reflexivity.
Qed.

(** X8. Four quads of decimal digits with values up to 255, written with
    dots between them, are read as the IPv4-mapped address of these four
    bytes, alone or behind [::ffff:] in either case; zeros before a quad do
    not matter (the quads are decimal, never octal), and [toIPv4String]
    writes the address with the quads in their shortest form. *)
Theorem dot_decimal_value u0 u1 u2 u3 b0 b1 b2 b3 :
  Forall2 decTok [u0; u1; u2; u3] [b0; b1; b2; b3] ->
  let quad := join (lit ".") [u0; u1; u2; u3] in
  let v := mappedValue b0 b1 b2 b3 in
  fromString quad = Ok v
  /\ fromString (lit "::ffff:" ++ quad) = Ok v
  /\ fromString (lit "::FFFF:" ++ quad) = Ok v
  /\ isIPv4 (OfString quad) = Ok true
  /\ toIPv4String (OfString quad) = Ok (dotted [b0; b1; b2; b3]).
Proof.
  intros HT quad v.
  destruct (dotted_value u0 u1 u2 u3 b0 b1 b2 b3 HT) as (Hq & Hf & HF).
  fold quad in Hq, Hf, HF. fold v in Hq, Hf, HF.
  assert (Hr : Forall (fun b => 0 <= b <= 255) [b0; b1; b2; b3])
    by apply (decToks_range _ _ HT).
  destruct (bytesOf_mapped b0 b1 b2 b3 Hr) as (Hv & Hup & Hbytes).
  fold v in Hv, Hup, Hbytes.
  assert (H4 : isIPv4_ (mk v) = true).
  { unfold isIPv4_. cbn [value]. rewrite (isIPv4_upper v Hv), Hup. reflexivity. }
  split; [exact Hq |]. split; [exact Hf |]. split; [exact HF |]. split.
  - unfold isIPv4. cbn [toBigInt]. rewrite Hq. cbn [bind].
    change (IPV4PREFIX =? Z.land IPV4MASK v) with (isIPv4_ (mk v)).
    rewrite H4. reflexivity.
  - unfold toIPv4String at 1. unfold from.
    rewrite (new_of_parsed quad v Hq). cbn [bind].
    pose proof (toIPv4String_mapped (mk v) Hv H4) as Ht.
    unfold toIPv4String in Ht. cbn [from bind] in Ht. rewrite Ht.
    cbn [value]. rewrite Hbytes. reflexivity.
Qed.

Lemma dot_decimal_value_witness :
  fromString (lit "010.0.00.1") = Ok 0xFFFF0A000001
  /\ fromString (lit "::ffff:010.0.00.1") = Ok 0xFFFF0A000001
  /\ fromString (lit "::FFFF:010.0.00.1") = Ok 0xFFFF0A000001
  /\ isIPv4 (OfString (lit "010.0.00.1")) = Ok true
  /\ toIPv4String (OfString (lit "010.0.00.1")) = Ok (lit "10.0.0.1").
Proof.
  apply (dot_decimal_value (lit "010") (lit "0") (lit "00") (lit "1") 10 0 0 1).
  repeat (constructor;
          [split; [discriminate |];
           split; [reflexivity |]; split; [reflexivity | simpl; lia] |]).
  constructor.
Defined.

(** ** Round trips *)

Lemma mapped_bytes v :
  0 <= v <= MAX -> v / 2 ^ 32 = 0xFFFF ->
  exists b0 b1 b2 b3,
    bytesOf v = [b0; b1; b2; b3]
    /\ Forall (fun b => 0 <= b <= 255) [b0; b1; b2; b3]
    /\ mappedValue b0 b1 b2 b3 = v.
Proof.
  intros Hv Hup. pose proof (bytesOf_range v) as Hr.
  unfold bytesOf in *. cbn [chunksRev rev app] in *.
  eexists _, _, _, _. split; [reflexivity |]. split; [exact Hr |].
  unfold mappedValue, MAX in *.
  change (2 ^ 32) with 4294967296 in *. change (2 ^ 24) with 16777216.
  change (2 ^ 16) with 65536. change (2 ^ 8) with 256.
  Z.div_mod_to_equations. lia.
Qed.

Lemma read_back a :
  0 <= value a <= MAX ->
  (exists text, toString a = Ok text /\ fromString text = Ok (value a))
  /\ (exists text, toIPv6String (OfIPv6 a) false = Ok text
                   /\ fromString text = Ok (value a)).
Proof.
  intros Hv. split.
  - destruct (isIPv4_ a) eqn:E4.
    + exists (dotted (bytesOf (value a))). unfold toString. rewrite E4.
      split; [apply toIPv4String_mapped; assumption |].
      pose proof E4 as Hup. unfold isIPv4_ in Hup.
      rewrite (isIPv4_upper _ Hv) in Hup. apply Z.eqb_eq in Hup.
      destruct (mapped_bytes _ Hv Hup) as (b0 & b1 & b2 & b3 & Eb & Hr & Em).
      rewrite Eb, <- Em.
      apply (dotted_value (toStringRadix 10 b0) (toStringRadix 10 b1)
               (toStringRadix 10 b2) (toStringRadix 10 b3)).
      inversion Hr as [| ? ? H0 H']; subst. inversion H' as [| ? ? H1 H'']; subst.
      inversion H'' as [| ? ? H2 H''']; subst. inversion H''' as [| ? ? H3 _]; subst.
      repeat (constructor; [apply decTok_toString; assumption |]). constructor.
    + exists (collapsed a). split; [apply toString_not_IPv4, E4 |].
      apply fromString_collapsed, Hv.
  - exists (collapsed a). split.
    + unfold toIPv6String. cbn [from bind]. rewrite andb_false_r. reflexivity.
    + apply fromString_collapsed, Hv.
Qed.

(** X9. Every text that the class writes for an address is read back as
    the same address: the text of [toString], which is dot-decimal for an
    IPv4-mapped address, and the text of [toIPv6String] without the
    dot-decimal notation. *)
Theorem renderings_read_back x a :
  new x = Ok a ->
  (exists text,
      toString a = Ok text /\ new (Some (OfString text)) = Ok a
      /\ equals_ a (Some (OfString text)) = Ok true)
  /\ (exists text,
        toIPv6String (OfIPv6 a) false = Ok text
        /\ new (Some (OfString text)) = Ok a
        /\ equals_ a (Some (OfString text)) = Ok true).
Proof.
  intros Hnew. pose proof (new_valid x a Hnew) as Hv.
  assert (Heq : forall text,
            fromString text = Ok (value a) ->
            new (Some (OfString text)) = Ok a
            /\ equals_ a (Some (OfString text)) = Ok true).
  { intros text H. split; [apply new_of_string; assumption |].
    unfold equals_, equals, compare. cbn [toBigInt bind]. rewrite H.
    cbn [bind tryCatch]. rewrite Z.ltb_irrefl, Z.gtb_ltb, Z.ltb_irrefl.
    reflexivity. }
  destruct (read_back a Hv) as [(t1 & H1 & F1) (t2 & H2 & F2)].
  split; [exists t1 | exists t2]; (split; [assumption | apply Heq; assumption]).
Qed.

Lemma renderings_read_back_witness :
  (exists text,
      toString (mk 0xFFFF0A000001) = Ok text
      /\ new (Some (OfString text)) = Ok (mk 0xFFFF0A000001)
      /\ equals_ (mk 0xFFFF0A000001) (Some (OfString text)) = Ok true)
  /\ (exists text,
        toIPv6String (OfIPv6 (mk 0xFFFF0A000001)) false = Ok text
        /\ new (Some (OfString text)) = Ok (mk 0xFFFF0A000001)
        /\ equals_ (mk 0xFFFF0A000001) (Some (OfString text)) = Ok true).
Proof.
  apply (renderings_read_back (Some (OfBigInt 0xFFFF0A000001))). reflexivity.
Defined.

(** X10. Two addresses that are written alike are the same address, for
    each of the ways of writing them. *)
Theorem renderings_injective x y a b :
  new x = Ok a -> new y = Ok b ->
  (toString a = toString b -> a = b)
  /\ (forall dotDec,
        toIPv6String (OfIPv6 a) dotDec = toIPv6String (OfIPv6 b) dotDec ->
        a = b).
Proof.
  intros Ha Hb.
  destruct (read_back a (new_valid x a Ha)) as [(ta & Hta & Hna) (ha & Hha & Hnha)].
  destruct (read_back b (new_valid y b Hb)) as [(tb & Htb & Hnb) (hb & Hhb & Hnhb)].
  assert (Hval : value a = value b -> a = b)
    by (destruct a, b; cbn [value]; intros ->; reflexivity).
  split.
  - intros E. rewrite Hta, Htb in E. injection E as <-. apply Hval. congruence.
  - intros [] E.
    + destruct (roundtrip_valid a (new_valid x a Ha)) as (ra & Hra & Hnra).
      destruct (roundtrip_valid b (new_valid y b Hb)) as (rb & Hrb & Hnrb).
      rewrite Hra, Hrb in E. injection E as <-. congruence.
    + rewrite Hha, Hhb in E. injection E as <-. apply Hval. congruence.
Qed.

Lemma renderings_injective_witness :
  (toString (mk 1) = toString (mk 1) -> mk 1 = mk 1)
  /\ (forall dotDec,
        toIPv6String (OfIPv6 (mk 1)) dotDec = toIPv6String (OfIPv6 (mk 1)) dotDec ->
        mk 1 = mk 1).
Proof.
  apply (renderings_injective (Some (OfBigInt 1)) (Some (OfString (lit "::1"))));
    reflexivity.
Defined.

(** X11. The canonical text is a fixed point: the text that the static
    [toIPv6String] or [toIPv4String] gives for a string is given again
    when the function is applied to that text. *)
Theorem canonical_text_is_fixed s text :
  (forall dotDec,
      toIPv6String (OfString s) dotDec = Ok text ->
      toIPv6String (OfString text) dotDec = Ok text)
  /\ (toIPv4String (OfString s) = Ok text ->
      toIPv4String (OfString text) = Ok text).
Proof.
  split.
  - intros dotDec H. unfold toIPv6String at 1 in H. unfold from in H.
    destruct (new (Some (OfString s))) as [a |] eqn:Ea; cbn [bind] in H;
      [| discriminate H].
    pose proof (new_valid _ _ Ea) as Hv.
    assert (Ht : toIPv6String (OfIPv6 a) dotDec = Ok text) by exact H.
    assert (Hn : new (Some (OfString text)) = Ok a).
    { destruct dotDec.
      - destruct (roundtrip_valid a Hv) as (t & H1 & H2). congruence.
      - destruct (read_back a Hv) as [_ (t & H1 & H2)].
        apply new_of_string; [exact Hv | congruence]. }
    unfold toIPv6String at 1. unfold from. rewrite Hn. exact H.
  - intros H. unfold toIPv4String at 1 in H. unfold from in H.
    destruct (new (Some (OfString s))) as [a |] eqn:Ea; cbn [bind] in H;
      [| discriminate H].
    pose proof (new_valid _ _ Ea) as Hv.
    destruct (isIPv4_ a) eqn:E4; [| discriminate H].
    assert (Ht : toString a = Ok text).
    { unfold toString, toIPv4String. cbn [from bind]. rewrite E4. exact H. }
    assert (Hn : new (Some (OfString text)) = Ok a).
    { destruct (read_back a Hv) as [(t & H1 & H2) _].
      apply new_of_string; [exact Hv | congruence]. }
    unfold toIPv4String at 1. unfold from. rewrite Hn. cbn [bind].
    rewrite E4. exact H.
Qed.

Lemma canonical_text_is_fixed_witness :
  toIPv6String (OfString (lit "::ffff:10.0.0.1")) true
  = Ok (lit "::ffff:10.0.0.1").
Proof.
  apply (proj1 (canonical_text_is_fixed (lit "0::FFFF:A00:1")
                  (lit "::ffff:10.0.0.1")) true).
  vm_compute. reflexivity.
Defined.

(** ** The case of the letters *)

Lemma upper_isSpace c : isSpace (toUpperChar c) = isSpace c.
Proof. each_char c; reflexivity. Qed.

Lemma upper_isColon c : isColon (toUpperChar c) = isColon c.
Proof. each_char c; reflexivity. Qed.

Lemma upper_isDot c : eqc (toUpperChar c) "."%char = eqc c "."%char.
Proof. each_char c; reflexivity. Qed.

Lemma upper_isDigit c : isDigit (toUpperChar c) = isDigit c.
Proof. each_char c; reflexivity. Qed.

Lemma upper_isHexDigit c : isHexDigit (toUpperChar c) = isHexDigit c.
Proof. each_char c; reflexivity. Qed.

Lemma upper_digitVal c :
  isHexDigit c = true -> digitVal (toUpperChar c) = digitVal c.
Proof. each_char c; intros H; try discriminate H; reflexivity. Qed.

Lemma upper_upper c : toUpperChar (toUpperChar c) = toUpperChar c.
Proof. each_char c; reflexivity. Qed.

Lemma upper_lower c : toUpperChar (toLowerChar c) = toUpperChar c.
Proof. each_char c; reflexivity. Qed.

Lemma upper_app a b : upper (a ++ b) = upper a ++ upper b.
Proof. apply map_app. Qed.

Lemma upper_dropSpaces s : dropSpaces (upper s) = upper (dropSpaces s).
Proof.
  induction s as [| c s IH]; [reflexivity |].
  cbn [upper map dropSpaces]. rewrite upper_isSpace.
  destruct (isSpace c); [apply IH | reflexivity].
Qed.

Lemma upper_replaceSpace s : replaceSpace (upper s) = upper (replaceSpace s).
Proof.
  induction s as [| c s IH]; [reflexivity |].
  cbn [upper map replaceSpace]. rewrite upper_isSpace.
  destruct (isSpace c); [apply upper_dropSpaces |].
  cbn [map]. f_equal. apply IH.
Qed.

Lemma upper_lastIndexOf s : forall i found,
  lastIndexOfFrom "."%char (upper s) i found
  = lastIndexOfFrom "."%char s i found.
Proof.
  induction s as [| c s IH]; intros i found; [reflexivity |].
  cbn [upper map lastIndexOfFrom]. rewrite upper_isDot. apply IH.
Qed.

Lemma upper_indexOf s : forall i,
  indexOfFrom ":"%char (upper s) i = indexOfFrom ":"%char s i.
Proof.
  induction s as [| c s IH]; intros i; [reflexivity |].
  cbn [upper map indexOfFrom].
  change (eqc (toUpperChar c) ":"%char) with (isColon (toUpperChar c)).
  rewrite upper_isColon. change (isColon c) with (eqc c ":"%char).
  destruct (eqc c ":"%char); [reflexivity | apply IH].
Qed.

Lemma upper_countColonColons s :
  countColonColons (upper s) = countColonColons s.
Proof.
  induction s as [| c | c d s IH1 IH2] using str_pair_ind; try reflexivity.
  change (upper (c :: d :: s))
    with (toUpperChar c :: toUpperChar d :: upper s).
  rewrite !countColonColons_step, !upper_isColon, IH2.
  change (toUpperChar d :: upper s) with (upper (d :: s)). rewrite IH1.
  reflexivity.
Qed.

Lemma upper_countColons s : countColons (upper s) = countColons s.
Proof.
  induction s as [| c s IH]; [reflexivity |].
  cbn [upper map countColons]. rewrite upper_isColon. f_equal. apply IH.
Qed.

Lemma upper_replaceColonColons R s :
  replaceColonColons (upper R) (upper s) = upper (replaceColonColons R s).
Proof.
  induction s as [| c | c d s IH1 IH2] using str_pair_ind; try reflexivity.
  change (upper (c :: d :: s))
    with (toUpperChar c :: toUpperChar d :: upper s).
  rewrite !replaceColonColons_step, !upper_isColon, IH2.
  change (toUpperChar d :: upper s) with (upper (d :: s)). rewrite IH1.
  destruct (isColon c && isColon d); [symmetry; apply upper_app | reflexivity].
Qed.

Lemma upper_makeReplacement m : upper (makeReplacement m) = makeReplacement m.
Proof.
  unfold makeReplacement. rewrite upper_app. f_equal.
  induction (Z.to_nat m) as [| n IH]; [reflexivity |].
  cbn [repeat concat]. rewrite upper_app, IH. reflexivity.
Qed.

Lemma upper_lastChar s : lastChar (upper s) = option_map toUpperChar (lastChar s).
Proof.
  unfold lastChar, upper. rewrite <- map_rev. destruct (rev s); reflexivity.
Qed.

Lemma upper_patchEnds v : patchEnds (upper v) = upper (patchEnds v).
Proof.
  unfold patchEnds, indexOf. rewrite upper_indexOf.
  set (w := if indexOfFrom ":"%char v 0 =? 0 then lit "0" ++ v else v).
  replace (if indexOfFrom ":"%char v 0 =? 0 then lit "0" ++ upper v else upper v)
    with (upper w) by (unfold w; destruct (_ =? 0); reflexivity).
  rewrite upper_lastChar. destruct (lastChar w) as [c |]; [| reflexivity].
  cbn [option_map]. rewrite upper_isColon.
  destruct (isColon c); [symmetry; apply upper_app | reflexivity].
Qed.

Lemma upper_normalize s :
  normalize (upper s)
  = match normalize s with
    | Ok (has, v) => Ok (has, upper v)
    | Err e => Err e
    end.
Proof.
  unfold normalize. rewrite upper_replaceSpace.
  set (v := replaceSpace s).
  unfold lastIndexOf, indexOf. rewrite upper_lastIndexOf, upper_indexOf.
  set (has := 0 <? lastIndexOfFrom "."%char v 0 (-1)).
  assert (Hrest : forall w,
    (value <- (if 1 <? countColonColons (upper w)
               then Err (Error (lit "too many " ++ dquote ++ lit "::" ++ dquote
                                ++ lit " in the IPv6 string"))
               else if countColonColons (upper w) =? 1
                    then Ok (expandColonColons has (upper w))
                    else Ok (upper w));;
     Ok (has, patchEnds value))
    = match (value <- (if 1 <? countColonColons w
                       then Err (Error (lit "too many " ++ dquote ++ lit "::"
                                        ++ dquote ++ lit " in the IPv6 string"))
                       else if countColonColons w =? 1
                            then Ok (expandColonColons has w)
                            else Ok w);;
             Ok (has, patchEnds value)) with
      | Ok (h, y) => Ok (h, upper y)
      | Err e => Err e
      end).
  { intros w. rewrite upper_countColonColons.
    destruct (1 <? countColonColons w); [reflexivity |].
    destruct (countColonColons w =? 1); cbn [bind].
    - unfold expandColonColons. rewrite upper_countColons.
      rewrite <- (upper_makeReplacement (_ - countColons w)) at 1.
      rewrite upper_replaceColonColons, upper_patchEnds. reflexivity.
    - rewrite upper_patchEnds. reflexivity. }
  destruct (indexOfFrom ":"%char v 0 <? 0).
  - destruct has eqn:Eh; cbn [negb throwIf bind]; [| reflexivity].
    change (lit "::FFFF:" ++ upper v) with (upper (lit "::FFFF:" ++ v)).
    apply Hrest.
  - cbn [bind]. apply Hrest.
Qed.

Lemma upper_split c s :
  (forall x, eqc (toUpperChar x) c = eqc x c) ->
  split c (upper s) = map upper (split c s).
Proof.
  intros Hc. induction s as [| x s IH]; [reflexivity |].
  cbn [upper map split]. rewrite Hc. fold (upper s). rewrite IH.
  destruct (eqc x c); [reflexivity |].
  destruct (split c s); reflexivity.
Qed.

Lemma upper_parseInt radix s :
  forallb isHexDigit s = true ->
  parseIntRadix radix (upper s) = parseIntRadix radix s.
Proof.
  induction s as [| c s IH] using rev_ind; intros H; [reflexivity |].
  rewrite forallb_app in H. apply andb_prop in H as [H1 H2].
  simpl in H2. rewrite andb_true_r in H2.
  rewrite upper_app. cbn [upper map]. fold (upper s).
  rewrite !parseIntRadix_snoc, (IH H1), (upper_digitVal c H2). reflexivity.
Qed.

Lemma upper_forallb (p : ascii -> bool) s :
  (forall c, p (toUpperChar c) = p c) -> forallb p (upper s) = forallb p s.
Proof.
  intros Hp. induction s as [| c s IH]; [reflexivity |].
  cbn [upper map forallb]. rewrite Hp. f_equal. apply IH.
Qed.

Lemma upper_isEmpty s : isEmpty (upper s) = isEmpty s.
Proof. destruct s; reflexivity. Qed.

Lemma upper_parseHex s : parseHex (upper s) = parseHex s.
Proof.
  unfold parseHex, HEXREGEX_test.
  rewrite upper_isEmpty, (upper_forallb isHexDigit s upper_isHexDigit).
  destruct (forallb isHexDigit s) eqn:E.
  - rewrite (upper_parseInt 16 s E). reflexivity.
  - rewrite andb_false_r. reflexivity.
Qed.

Lemma upper_parseDecimal s : parseDecimal (upper s) = parseDecimal s.
Proof.
  unfold parseDecimal, DECREGEX_test.
  rewrite upper_isEmpty, (upper_forallb isDigit s upper_isDigit).
  destruct (forallb isDigit s) eqn:E.
  - rewrite (upper_parseInt 10 s); [reflexivity |].
    revert E. apply forallb_impl, isDigit_isHexDigit.
  - rewrite andb_false_r. reflexivity.
Qed.

Lemma upper_quadLoop i : forall quads h,
  quadLoop i (map upper quads) h = quadLoop i quads h.
Proof.
  induction i as [| i IH]; intros quads h; [reflexivity |].
  destruct quads as [| q quads]; [reflexivity |].
  cbn [map quadLoop]. rewrite upper_parseDecimal.
  destruct (parseDecimal q) as [b |]; cbn [tryCatch bind]; [| reflexivity].
  destruct ((b <? 0) || (255 <? b)); cbn [throwIf bind]; [reflexivity |].
  apply IH.
Qed.

Lemma upper_partLoop popped : forall h,
  partLoop (map upper popped) h = partLoop popped h.
Proof.
  induction popped as [| part popped IH]; intros h; [reflexivity |].
  cbn [map partLoop]. rewrite upper_isEmpty, upper_parseHex.
  destruct (isEmpty part); [reflexivity |].
  destruct (parseHex part) as [g |]; cbn [tryCatch bind]; [| reflexivity].
  destruct ((g <? 0) || (65535 <? g)); cbn [throwIf bind]; [reflexivity |].
  apply IH.
Qed.

Lemma last_map_upper parts : last (map upper parts) [] = upper (last parts []).
Proof.
  induction parts as [| p parts IH]; [reflexivity |].
  destruct parts as [| q parts]; [reflexivity |].
  change (last (map upper (p :: q :: parts)) [])
    with (last (map upper (q :: parts)) []).
  rewrite IH. reflexivity.
Qed.

Lemma removelast_map_upper parts :
  removelast (map upper parts) = map upper (removelast parts).
Proof.
  induction parts as [| p parts IH]; [reflexivity |].
  destruct parts as [| q parts]; [reflexivity |].
  change (removelast (map upper (p :: q :: parts)))
    with (upper p :: removelast (map upper (q :: parts))).
  rewrite IH. reflexivity.
Qed.

Lemma upper_fromString s : fromString (upper s) = fromString s.
Proof.
  unfold fromString. rewrite upper_normalize.
  destruct (normalize s) as [[has v] |]; cbn [bind]; [| reflexivity].
  unfold splitParts. rewrite (upper_split ":"%char v upper_isColon).
  destruct has.
  - rewrite last_map_upper, (upper_split "."%char _ upper_isDot), length_map.
    destruct (length _ =? 4)%nat; cbn [negb throwIf bind]; [| reflexivity].
    rewrite upper_quadLoop.
    destruct (quadLoop 4 _ []) as [h |]; cbn [bind]; [| reflexivity].
    rewrite removelast_map_upper, length_map.
    destruct (_ =? 8); cbn [negb throwIf bind]; [| reflexivity].
    rewrite <- map_rev, upper_partLoop. reflexivity.
  - cbn [bind]. rewrite length_map.
    destruct (_ =? 8); cbn [negb throwIf bind]; [| reflexivity].
    rewrite <- map_rev, upper_partLoop. reflexivity.
Qed.

(** X12. The parser of addresses does not look at the case of the letters
    from [a] to [z]: two texts that differ in the case of these letters
    only are both refused with the same error or both read as the same
    number, and so are a text and the same text in lower or upper case. *)
Theorem case_does_not_matter s s' :
  upper s = upper s' ->
  fromString s = fromString s'
  /\ new (Some (OfString s)) = new (Some (OfString s'))
  /\ fromString (map toLowerChar s) = fromString s
  /\ fromString (upper s) = fromString s.
Proof.
  intros H.
  assert (E : fromString s = fromString s')
    by (rewrite <- (upper_fromString s), H; apply upper_fromString).
  split; [exact E |]. split; [| split; [| apply upper_fromString]].
  - unfold new. cbn [toBigInt]. rewrite E. reflexivity.
  - rewrite <- (upper_fromString (map toLowerChar s)), <- (upper_fromString s).
    f_equal. unfold upper. rewrite map_map.
    apply map_ext, upper_lower.
Qed.

Lemma case_does_not_matter_witness :
  fromString (lit "FE80::Ab") = fromString (lit "fe80::aB")
  /\ new (Some (OfString (lit "FE80::Ab")))
     = new (Some (OfString (lit "fe80::aB")))
  /\ fromString (map toLowerChar (lit "FE80::Ab")) = fromString (lit "FE80::Ab")
  /\ fromString (upper (lit "FE80::Ab")) = fromString (lit "FE80::Ab").
Proof.
  apply (case_does_not_matter (lit "FE80::Ab") (lit "fe80::aB")). reflexivity.
Defined.

(** ** More than one ["::"] *)

Lemma countColonColons_In s : 0 < countColonColons s -> In ":"%char s.
Proof.
  induction s as [| c | c d s IH1 IH2] using str_pair_ind; intros H;
    try (cbn in H; lia).
  rewrite countColonColons_step in H.
  destruct (isColon c) eqn:Ec; cbn [andb] in H.
  - left. apply isColon_eq, Ec.
  - right. apply IH1, H.
Qed.

(** X13. A text in which the pattern [/::/g] is found more than once is
    refused with the error that says so, whatever else it holds. *)
Theorem two_elisions_refused s :
  1 < countColonColons (replaceSpace s) ->
  fromString s
  = Err (Error (lit "too many " ++ dquote ++ lit "::" ++ dquote
                ++ lit " in the IPv6 string"))
  /\ new (Some (OfString s))
     = Err (Error (lit "too many " ++ dquote ++ lit "::" ++ dquote
                   ++ lit " in the IPv6 string")).
Proof.
  intros H.
  assert (E : fromString s
              = Err (Error (lit "too many " ++ dquote ++ lit "::" ++ dquote
                            ++ lit " in the IPv6 string"))).
  { unfold fromString, normalize.
    replace (indexOf ":"%char (replaceSpace s) <? 0) with false
      by (symmetry; apply Z.ltb_ge, indexOfFrom_found;
          [lia | apply countColonColons_In; lia]).
    cbn [bind].
    replace (1 <? countColonColons (replaceSpace s)) with true
      by (symmetry; apply Z.ltb_lt, H).
    reflexivity. }
  split; [exact E |]. unfold new. cbn [toBigInt]. rewrite E. reflexivity.
Qed.

Lemma two_elisions_refused_witness :
  fromString (lit "1::2::3")
  = Err (Error (lit "too many " ++ dquote ++ lit "::" ++ dquote
                ++ lit " in the IPv6 string"))
  /\ new (Some (OfString (lit "1::2::3")))
     = Err (Error (lit "too many " ++ dquote ++ lit "::" ++ dquote
                   ++ lit " in the IPv6 string")).
Proof. apply (two_elisions_refused (lit "1::2::3")). vm_compute. reflexivity. Defined.

(** ** Three colons in a row *)

Lemma partLoop_stops R G : forall rest h,
  Forall2 hexTok R G ->
  partLoop (R ++ [] :: rest) h
  = Ok (concat (map (fixedDigits 16 4) (rev G)) ++ h).
Proof.
  intros rest h H. revert h.
  induction H as [| u g R G Hu _ IH]; intros h; [reflexivity |].
  cbn [app partLoop]. pose proof Hu as (Hne & _ & _ & Hg).
  rewrite (isEmpty_false u Hne), (parseHex_tok u g Hu). cbn [tryCatch bind].
  replace ((g <? 0) || (65535 <? g)) with false
    by (symmetry; apply orb_false_iff; split; apply Z.ltb_ge; lia).
  cbn [throwIf bind]. rewrite IH, (padded_group g Hg).
  cbn [rev]. rewrite map_app, concat_app. cbn [map concat].
  rewrite app_nil_r, <- app_assoc. reflexivity.
Qed.

Lemma tidy_colon_join Q :
  Q <> [] -> Forall token Q -> tidy (lit ":" ++ join (lit ":") Q) = true.
Proof.
  intros Hne HQ.
  change (lit ":" ++ join (lit ":") Q) with (":"%char :: join (lit ":") Q).
  cbn [tidy]. change (isColon ":"%char) with true. cbv iota.
  rewrite (tidy_join Q HQ), andb_true_r.
  destruct (join (lit ":") Q) as [| d r] eqn:E.
  - exfalso. revert E. apply join_nonempty; assumption.
  - rewrite (join_head Q d r HQ E). reflexivity.
Qed.

(** X14. When three colons stand in a row between groups, the loop over the
    groups stops at the empty group that they leave: what stands before
    them is not read at all, whatever it is, and the text is read as the
    groups that stand after them. *)
Theorem text_before_three_colons_ignored P Q GQ :
  Forall token P -> noDot (join (lit ":") P) = true -> P <> [] ->
  Forall2 hexTok Q GQ -> Q <> [] ->
  (length P + length Q <= 7)%nat ->
  fromString (join (lit ":") P ++ lit ":::" ++ join (lit ":") Q)
  = Ok (groupsValue GQ).
Proof.
  intros HP HdP HneP HQ HneQ Hlen.
  pose proof (hexTok_tokens Q GQ HQ) as HtQ.
  set (m := (7 - length P - length Q)%nat).
  set (parts := P ++ zeros m ++ [] :: Q).
  set (T := join (lit ":") P ++ lit ":::" ++ join (lit ":") Q).
  assert (HT : T = join (lit ":") P ++ lit "::" ++ (lit ":" ++ join (lit ":") Q))
    by reflexivity.
  assert (Hn : normalize T = Ok (false, join (lit ":") parts)).
  { unfold normalize.
    assert (Hns : noSpace T = true).
    { unfold T. rewrite !noSpace_app, (noSpace_join P HP), (noSpace_join Q HtQ).
      reflexivity. }
    rewrite (replaceSpace_noSpace T Hns).
    assert (Hd : noDot T = true).
    { unfold T. rewrite !noDot_app, HdP, (noDot_join Q); [reflexivity |].
      eapply hexToks_noDot; exact HQ. }
    rewrite (hasIPv4_noDot T Hd).
    replace (indexOf ":"%char T <? 0) with false
      by (symmetry; apply Z.ltb_ge; rewrite HT;
          apply indexOfFrom_found; [lia | apply In_app_colons]).
    cbn [bind].
    assert (Hcc : countColonColons T = 1).
    { rewrite HT, countColonColons_tidy_app by (apply tidy_join, HP).
      rewrite tidy_countColonColons by (apply tidy_colon_join; assumption).
      reflexivity. }
    rewrite Hcc. change (1 <? 1) with false. change (1 =? 1) with true.
    cbn [bind]. unfold expandColonColons.
    assert (Hc : countColons T = Z.of_nat (length P) + Z.of_nat (length Q) + 1).
    { unfold T. rewrite !countColons_app.
      rewrite !countColons_join
        by (assumption || (apply tokens_clean; assumption)).
      change (countColons (lit ":::")) with 3. lia. }
    rewrite Hc.
    replace (8 - (Z.of_nat (length P) + Z.of_nat (length Q) + 1))
      with (Z.of_nat m) by (unfold m; lia).
    rewrite HT at 1.
    rewrite replaceColonColons_tidy_app by (apply tidy_join, HP).
    rewrite tidy_replaceColonColons by (apply tidy_colon_join; assumption).
    rewrite makeReplacement_eq, Nat2Z.id.
    assert (He : join (lit ":") P
                 ++ (lit ":" ++ concat (repeat (lit "0:") m))
                 ++ lit ":" ++ join (lit ":") Q
                 = join (lit ":") parts).
    { unfold parts.
      rewrite join_app by (assumption || (destruct (zeros m); discriminate)).
      rewrite <- concat_zeros_join by discriminate.
      rewrite <- !app_assoc.
      destruct Q as [| q Q]; [contradiction | reflexivity]. }
    rewrite He.
    rewrite (patchEnds_cases (join (lit ":") parts) false false).
    - cbn [app]. rewrite app_nil_r. reflexivity.
    - rewrite <- He. apply startsWithColon_join; assumption.
    - cbn [app]. rewrite <- He.
      replace (join (lit ":") P
               ++ (lit ":" ++ concat (repeat (lit "0:") m))
               ++ lit ":" ++ join (lit ":") Q)
        with ((join (lit ":") P ++ lit ":" ++ concat (repeat (lit "0:") m)
               ++ lit ":") ++ join (lit ":") Q)
        by (rewrite <- !app_assoc; reflexivity).
      apply endsWithColon_join; assumption. }
  unfold fromString. rewrite Hn. cbn [bind]. unfold splitParts.
  rewrite split_join.
  - cbn [bind length].
    replace (Z.of_nat 0 / 4 + Z.of_nat (length parts) =? 8) with true.
    + cbn [negb throwIf bind]. unfold parts.
      rewrite !rev_app_distr. cbn [rev]. rewrite <- !app_assoc. cbn [app].
      rewrite (partLoop_stops (rev Q) (rev GQ)) by (apply Forall2_rev, HQ).
      cbn [bind]. rewrite rev_involutive, app_nil_r.
      unfold bigIntOfHex. rewrite isEmpty_false.
      * rewrite concat_groups_value by (eapply hexToks_range; exact HQ).
        reflexivity.
      * inversion HQ as [| u g Q' G' Hu HQ']; subst; [contradiction |].
        cbn [map concat]. intros E. apply app_eq_nil in E as [E _].
        apply (f_equal (@length ascii)) in E.
        rewrite length_fixedDigits in E. discriminate E.
    + symmetry. apply Z.eqb_eq. unfold parts, zeros.
      rewrite !length_app, repeat_length. cbn [length]. unfold m.
      change (Z.of_nat 0 / 4) with 0. lia.
  - unfold parts. intros E. apply app_eq_nil in E as [E _]. contradiction.
  - unfold parts. apply Forall_app. split; [apply tokens_clean, HP |].
    apply Forall_app. split; [apply tokens_clean, zeros_tokens |].
    constructor; [reflexivity | apply tokens_clean, HtQ].
Qed.

Lemma text_before_three_colons_ignored_witness :
  fromString (lit "not:an:address:::1:2") = Ok 0x00010002.
Proof.
  apply (text_before_three_colons_ignored
           [lit "not"; lit "an"; lit "address"] [lit "1"; lit "2"] [1; 2]).
  - repeat (constructor; [split; [discriminate | reflexivity] |]). constructor.
  - reflexivity.
  - discriminate.
  - repeat (constructor;
            [split; [discriminate |];
             split; [reflexivity |]; split; [reflexivity | simpl; lia] |]).
    constructor.
  - discriminate.
  - simpl. lia.
Defined.

(** ** The run of zero groups that is collapsed *)

(** X15. What [toIPv6String] writes for an address that is not written with
    a dot-decimal part: with [len] the length of the longest run of zero
    groups and [start] the place of the leftmost run of that length, the
    eight groups in four digits each when [len] is at most 1, and otherwise
    the groups before the run and the groups after it in their shortest
    form, with ["::"] between them. *)
Theorem longest_zero_run_collapsed x a (dotDec : bool) :
  new x = Ok a -> isIPv4_ a && dotDec = false ->
  exists start len,
    (start + len <= 8)%nat
    /\ allZero (groupsOf (value a)) (Z.of_nat start) (Z.of_nat len)
    /\ (forall from l,
          (from + l <= 8)%nat ->
          allZero (groupsOf (value a)) (Z.of_nat from) (Z.of_nat l) ->
          (l <= len)%nat /\ (l = len -> 0 < len -> start <= from)%nat)
    /\ toIPv6String (OfIPv6 a) dotDec
       = Ok (if (len <=? 1)%nat
             then join (lit ":") (map (fixedDigits 16 4) (groupsOf (value a)))
             else join (lit ":")
                    (map (toStringRadix 16) (firstn start (groupsOf (value a))))
                  ++ lit "::"
                  ++ join (lit ":")
                       (map (toStringRadix 16)
                          (skipn (start + len) (groupsOf (value a))))).
Proof.
  intros Hnew H4. apply toIPv6String_longest_run; [| exact H4].
  eapply new_valid. exact Hnew.
Qed.

Lemma longest_zero_run_collapsed_witness :
  exists start len,
    (start + len <= 8)%nat
    /\ allZero (groupsOf 0x00010000000000040000000000000008)
         (Z.of_nat start) (Z.of_nat len)
    /\ (forall from l,
          (from + l <= 8)%nat ->
          allZero (groupsOf 0x00010000000000040000000000000008)
            (Z.of_nat from) (Z.of_nat l) ->
          (l <= len)%nat /\ (l = len -> 0 < len -> start <= from)%nat)
    /\ toIPv6String (OfIPv6 (mk 0x00010000000000040000000000000008)) true
       = Ok (if (len <=? 1)%nat
             then join (lit ":")
                    (map (fixedDigits 16 4)
                       (groupsOf 0x00010000000000040000000000000008))
             else join (lit ":")
                    (map (toStringRadix 16)
                       (firstn start
                          (groupsOf 0x00010000000000040000000000000008)))
                  ++ lit "::"
                  ++ join (lit ":")
                       (map (toStringRadix 16)
                          (skipn (start + len)
                             (groupsOf 0x00010000000000040000000000000008)))).
Proof.
  apply (longest_zero_run_collapsed
           (Some (OfBigInt 0x00010000000000040000000000000008))
           (mk 0x00010000000000040000000000000008) true);
    reflexivity.
Defined.

(** ** The characters of the text of an address *)

Lemma forallb_join (p : ascii -> bool) sep l :
  forallb p sep = true -> Forall (fun u => forallb p u = true) l ->
  forallb p (join sep l) = true.
Proof.
  intros Hsep. induction 1 as [| u l Hu _ IH]; [reflexivity |].
  destruct l as [| w l]; [exact Hu |].
  change (join sep (u :: w :: l)) with (u ++ sep ++ join sep (w :: l)).
  rewrite !forallb_app, Hu, Hsep, IH. reflexivity.
Qed.

Lemma forallb_concat (p : ascii -> bool) l :
  Forall (fun u => forallb p u = true) l -> forallb p (concat l) = true.
Proof.
  induction 1 as [| u l Hu _ IH]; [reflexivity |].
  cbn [concat]. rewrite forallb_app, Hu, IH. reflexivity.
Qed.

Lemma addressChar_digit d : 0 <= d < 16 -> addressChar (digitChar d) = true.
Proof. intros Hd. each_digit d Hd; reflexivity. Qed.

Lemma addressChar_number radix z :
  2 <= radix <= 16 -> 0 <= z ->
  forallb addressChar (toStringRadix radix z) = true.
Proof.
  intros Hr Hz. apply toStringRadix_forallb; [lia | | exact Hz].
  intros d Hd. apply addressChar_digit. lia.
Qed.

Lemma addressChar_dotted bytes :
  Forall (fun b => 0 <= b <= 255) bytes ->
  forallb addressChar (dotted bytes) = true.
Proof.
  intros H. unfold dotted. apply forallb_join; [reflexivity |].
  apply Forall_map. revert H. apply Forall_impl.
  intros b Hb. apply addressChar_number; lia.
Qed.

Lemma addressChar_collapsed a :
  0 <= value a <= MAX -> forallb addressChar (collapsed a) = true.
Proof.
  intros Hv. rewrite (collapsed_groups a Hv). cbv zeta.
  pose proof (groupsOf_range (value a)) as Hr.
  set (groups := groupsOf (value a)) in *.
  destruct (_ <=? 1).
  - apply forallb_join; [reflexivity |]. apply Forall_map.
    apply Forall_forall. intros g _.
    apply fixedDigits_forallb; [lia |]. intros d Hd. apply addressChar_digit, Hd.
  - assert (Hpiece : forall (f : Z -> str) l,
              (forall g, 0 <= g <= 0xFFFF -> forallb addressChar (f g) = true) ->
              Forall (fun g => 0 <= g <= 0xFFFF) l ->
              forallb addressChar (concat (map f l)) = true).
    { intros f l Hf Hl. apply forallb_concat, Forall_map.
      revert Hl. apply Forall_impl. exact Hf. }
    rewrite !forallb_app.
    rewrite Hpiece, Hpiece.
    + destruct (_ =? 0), (_ =? 8); reflexivity.
    + intros g Hg. rewrite forallb_app, addressChar_number by lia. reflexivity.
    + apply (Forall_firstn_skipn _ _ groups Hr).
    + intros g Hg. rewrite forallb_app, addressChar_number by lia. reflexivity.
    + apply (Forall_firstn_skipn _ _ groups Hr).
Qed.

Lemma rendering_chars a text :
  0 <= value a <= MAX ->
  toString a = Ok text
  \/ (exists dotDec, toIPv6String (OfIPv6 a) dotDec = Ok text) ->
  forallb addressChar text = true.
Proof.
  intros Hv H.
  assert (H4 : isIPv4_ a = true ->
               toIPv4String (OfIPv6 a) = Ok text ->
               forallb addressChar text = true).
  { intros E4 Ht. rewrite (toIPv4String_mapped a Hv E4) in Ht.
    injection Ht as <-. apply addressChar_dotted, bytesOf_range. }
  destruct H as [H | (dotDec & H)].
  - unfold toString in H. destruct (isIPv4_ a) eqn:E4; [apply H4; auto |].
    unfold toIPv6String in H. cbn [from bind] in H. rewrite E4 in H.
    injection H as <-. apply addressChar_collapsed, Hv.
  - unfold toIPv6String in H. cbn [from bind] in H.
    destruct (isIPv4_ a && dotDec) eqn:E.
    + apply andb_prop in E as [E4 _].
      rewrite (toIPv4String_mapped a Hv E4) in H. cbn [bind] in H.
      assert (E' : text = lit "::ffff:" ++ dotted (bytesOf (value a)))
        by (injection H as <-; reflexivity).
      rewrite E', forallb_app.
      rewrite (addressChar_dotted _ (bytesOf_range (value a))). reflexivity.
    + injection H as <-. apply addressChar_collapsed, Hv.
Qed.

(** X16. Whatever way an address is written, by [toString] or by
    [toIPv6String] with or without the dot-decimal notation, the text
    holds only digits, the letters from [a] to [f] in lower case, colons
    and dots. *)
Theorem renderings_are_lower_case x a text :
  new x = Ok a ->
  toString a = Ok text
  \/ (exists dotDec, toIPv6String (OfIPv6 a) dotDec = Ok text) ->
  forallb addressChar text = true /\ toLowerCase text = text.
Proof.
  intros Hnew H.
  assert (Hc : forallb addressChar text = true)
    by (apply (rendering_chars a text (new_valid x a Hnew) H)).
  split; [exact Hc |].
  clear - Hc. induction text as [| c text IH]; [reflexivity |].
  cbn [forallb] in Hc. apply andb_prop in Hc as [H1 H2].
  cbn [toLowerCase map]. fold (toLowerCase text). rewrite (IH H2). f_equal.
  clear - H1. revert H1. each_char c; intros H; try discriminate H; reflexivity.
Qed.

Lemma renderings_are_lower_case_witness :
  forallb addressChar (lit "::ffff:10.0.0.1") = true
  /\ toLowerCase (lit "::ffff:10.0.0.1") = lit "::ffff:10.0.0.1".
Proof.
  apply (renderings_are_lower_case (Some (OfString (lit "::FFFF:A00:1")))
           (mk 0xFFFF0A000001)).
  - reflexivity.
  - right. exists true. reflexivity.
Defined.

(** ** The dot-decimal texts that are refused *)

Lemma digitTok_clean u : digitTok u -> clean u = true.
Proof. intros [_ H]. revert H. apply forallb_impl, isDigit_cleanChar. Qed.

Lemma digitTok_noDot u : digitTok u -> noChar "."%char u = true.
Proof. intros [_ H]. revert H. apply forallb_impl, isDigit_not_dot. Qed.

Lemma quadLoop_refuses i : forall quads h,
  Forall digitTok quads -> (i <= length quads)%nat ->
  Exists (fun u => 255 < parseIntRadix 10 u) (firstn i quads) ->
  exists e, quadLoop i quads h = Err e /\ isInvalidIPv4 e.
Proof.
  induction i as [| i IH]; intros quads h Hq Hlen Hex;
    [cbn in Hex; inversion Hex |].
  destruct quads as [| q quads]; [cbn in Hlen; lia |].
  inversion Hq as [| ? ? [Hne Hd] Hq']; subst.
  cbn [quadLoop]. unfold parseDecimal, DECREGEX_test.
  rewrite (isEmpty_false q Hne), Hd. cbn [negb andb].
  destruct (isFiniteNum (parseIntRadix 10 q)); cbn [tryCatch bind];
    [| eexists; split; [reflexivity | right; reflexivity]].
  destruct ((parseIntRadix 10 q <? 0) || (255 <? parseIntRadix 10 q)) eqn:E;
    cbn [throwIf bind]; [eexists; split; [reflexivity | left; reflexivity] |].
  apply orb_false_iff in E as [_ E]. apply Z.ltb_ge in E.
  apply IH; [exact Hq' | cbn in Hlen; lia |].
  cbn [firstn] in Hex. inversion Hex as [? ? Hbad | ? ? Hrest]; subst;
    [lia | exact Hrest].
Qed.

(** X17. A text of quads of decimal digits with dots between them, and no
    colon, is refused with one of the two errors "Invalid IP v 4 address"
    when it has not four quads or when one of the four is above 255. *)
Theorem bad_dot_decimal_refused us :
  Forall digitTok us -> (2 <= length us)%nat ->
  length us <> 4%nat \/ Exists (fun u => 255 < parseIntRadix 10 u) us ->
  exists e,
    fromString (join (lit ".") us) = Err e /\ isInvalidIPv4 e
    /\ new (Some (OfString (join (lit ".") us))) = Err e.
Proof.
  intros Hus Hlen Hbad.
  assert (Hclean : Forall (fun u => clean u = true) us)
    by (revert Hus; apply Forall_impl, digitTok_clean).
  assert (Hdots : Forall (fun u => noChar "."%char u = true) us)
    by (revert Hus; apply Forall_impl, digitTok_noDot).
  set (quad := join (lit ".") us).
  assert (Hq : clean quad = true) by apply (clean_join_dots us Hclean).
  assert (Hshape : exists x q, quad = x :: q /\ In "."%char q).
  { unfold quad. destruct us as [| u0 [| u1 us]]; try (cbn in Hlen; lia).
    inversion Hus as [| ? ? [Hne _] _]; subst.
    destruct u0 as [| x u0]; [contradiction |].
    exists x, (u0 ++ lit "." ++ join (lit ".") (u1 :: us)).
    split; [reflexivity |]. apply in_or_app. right. left. reflexivity. }
  destruct Hshape as (x & q & Equad & Hin).
  assert (Hn : normalize quad
               = Ok (true, join (lit ":") (zeros 5 ++ [lit "FFFF"; quad]))).
  { rewrite Equad, (normalize_bare x q) by (try rewrite <- Equad; assumption).
    rewrite <- Equad.
    apply (normalize_elided [] [lit "FFFF"; quad] true).
    - constructor.
    - constructor; [eapply hexTok_token; apply hexTok_FFFF |].
      constructor; [| constructor].
      split; [rewrite Equad; discriminate | exact Hq].
    - apply hasIPv4_found. cbn [join app]. right. apply in_or_app. right.
      apply in_or_app. right. rewrite Equad. right. exact Hin.
    - simpl. lia. }
  assert (H : exists e, fromString quad = Err e /\ isInvalidIPv4 e).
  { unfold fromString. rewrite Hn. cbn [bind]. unfold splitParts.
    rewrite split_join.
    - cbn [zeros repeat app last removelast].
      unfold quad at 1 2. rewrite (split_join_dots us)
        by (try exact Hdots; intros ->; cbn in Hlen; lia).
      destruct (length us =? 4)%nat eqn:E4; cbn [negb throwIf bind].
      + apply Nat.eqb_eq in E4.
        destruct Hbad as [Hbad | Hbad]; [contradiction |].
        destruct (quadLoop_refuses 4 us [] Hus ltac:(lia)) as (e & He & Hi).
        * rewrite firstn_all2 by lia. exact Hbad.
        * rewrite He. cbn [bind]. exists e. split; [reflexivity | exact Hi].
      + eexists. split; [reflexivity | left; reflexivity].
    - destruct (zeros 5); discriminate.
    - apply tokens_clean. apply Forall_app. split; [apply zeros_tokens |].
      constructor; [eapply hexTok_token; apply hexTok_FFFF |].
      constructor; [| constructor].
      split; [rewrite Equad; discriminate | exact Hq]. }
  destruct H as (e & He & Hi). exists e. split; [exact He |].
  split; [exact Hi |]. unfold new. cbn [toBigInt]. fold quad. rewrite He.
  reflexivity.
Qed.

Lemma bad_dot_decimal_refused_witness :
  exists e,
    fromString (lit "1.2.3.256") = Err e /\ isInvalidIPv4 e
    /\ new (Some (OfString (lit "1.2.3.256"))) = Err e.
Proof.
  apply (bad_dot_decimal_refused [lit "1"; lit "2"; lit "3"; lit "256"]).
  - repeat (constructor; [split; [discriminate | reflexivity] |]). constructor.
  - simpl. lia.
  - right. do 3 apply Exists_cons_tl. apply Exists_cons_hd.
    vm_compute. reflexivity.
Defined.

(** * Properties of the HttpURL class *)

Import HttpURL.

Lemma eqs_eq a : forall b, eqs a b = true <-> a = b.
Proof.
  induction a as [| x a IH]; intros [| y b]; simpl; split; intros H;
    try reflexivity; try discriminate.
  - apply andb_prop in H as [H1 H2]. apply Ascii.eqb_eq in H1.
    apply IH in H2. subst. reflexivity.
  - injection H as -> ->. unfold eqc. rewrite Ascii.eqb_refl. simpl.
    apply IH. reflexivity.
Qed.

Lemma pop_snoc stack x : pop (stack ++ [x]) = Some stack.
Proof.
  unfold pop. destruct (stack ++ [x]) eqn:E.
  - apply app_eq_nil in E as [_ E]. discriminate.
  - rewrite <- E, removelast_last. reflexivity.
Qed.

Lemma pathLoop_walk segments : forall pathStack,
  pathLoop segments pathStack
  = match walk segments (rev pathStack) with
    | Some path => Ok path
    | None => Err (Error (lit "Invalid path"))
    end.
Proof.
  induction segments as [| segment segments IH]; intros pathStack.
  - simpl. rewrite rev_involutive. reflexivity.
  - cbn [pathLoop walk]. destruct (isEmpty segment); cbn [negb andb]; [apply IH |].
    destruct (eqs (lit ".") segment); cbn [negb]; [apply IH |].
    destruct (eqs (lit "..") segment).
    + destruct pathStack as [| x pathStack] using rev_ind; [reflexivity |].
      rewrite pop_snoc, rev_app_distr. cbn [rev app]. apply IH.
    + rewrite IH, rev_app_distr. reflexivity.
Qed.

Lemma pathLoop_app a : forall b pathStack,
  pathLoop (a ++ b) pathStack
  = (st <- pathLoop a pathStack;; pathLoop b st).
Proof.
  induction a as [| segment a IH]; intros b pathStack; [reflexivity |].
  cbn [app pathLoop].
  destruct (negb (isEmpty segment) && negb (eqs (lit ".") segment)); [| apply IH].
  destruct (eqs (lit "..") segment); [| apply IH].
  destruct (pop pathStack); [apply IH | reflexivity].
Qed.

Lemma pathLoop_fails segments : forall pathStack e,
  pathLoop segments pathStack = Err e ->
  e = Error (lit "Invalid path")
  /\ exists before after,
       segments = before ++ lit ".." :: after
       /\ pathLoop before pathStack = Ok [].
Proof.
  induction segments as [| segment segments IH]; intros pathStack e H;
    [discriminate |].
  cbn [pathLoop] in H.
  assert (Hstep : forall st,
            pathLoop segments st = Err e ->
            pathLoop [segment] pathStack = Ok st ->
            e = Error (lit "Invalid path")
            /\ exists before after,
                 segment :: segments = before ++ lit ".." :: after
                 /\ pathLoop before pathStack = Ok []).
  { intros st Hst H1. destruct (IH st e Hst) as (He & before & after & -> & Hb).
    split; [exact He |]. exists (segment :: before), after.
    split; [reflexivity |].
    change (segment :: before) with ([segment] ++ before).
    rewrite pathLoop_app, H1. exact Hb. }
  destruct (negb (isEmpty segment) && negb (eqs (lit ".") segment)) eqn:E1.
  - destruct (eqs (lit "..") segment) eqn:E2.
    + destruct (pop pathStack) as [st |] eqn:E3.
      * apply (Hstep st H). cbn [pathLoop]. rewrite E1, E2, E3. reflexivity.
      * injection H as <-. split; [reflexivity |].
        apply eqs_eq in E2. subst segment.
        exists [], segments. split; [reflexivity |].
        destruct pathStack; [reflexivity | discriminate].
    + apply (Hstep _ H). cbn [pathLoop]. rewrite E1, E2. reflexivity.
  - apply (Hstep _ H). cbn [pathLoop]. rewrite E1. reflexivity.
Qed.

Lemma climbsOut_fails segments :
  climbsOut segments <-> pathLoop segments [] = Err (Error (lit "Invalid path")).
Proof.
  split.
  - intros (before & after & -> & Hb). rewrite pathLoop_app, Hb. reflexivity.
  - intros H. apply pathLoop_fails in H as (_ & before & after & H1 & H2).
    exists before, after. split; assumption.
Qed.

(** ** The errors of the steps before and after the path *)

Lemma addressErrors_not_path e : In e addressErrors -> e <> pathError.
Proof.
  intros H. simpl in H.
  repeat (destruct H as [<- | H]; [discriminate |]). destruct H.
Qed.

Lemma toString_total a : exists text, IPv6.toString a = Ok text.
Proof.
  unfold IPv6.toString, toIPv6String, toIPv4String. cbn [from bind].
  destruct (isIPv4_ a); cbn [andb]; eexists; reflexivity.
Qed.

Lemma addressHost_errors text e : addressHost text = Err e -> e <> pathError.
Proof.
  unfold addressHost, IPv6.new. cbn [toBigInt].
  destruct (fromString text) as [v |] eqn:E; cbn [bind].
  - destruct (MAX <? v); [intros H; injection H as <-; discriminate |].
    destruct (v <? ZERO); [intros H; injection H as <-; discriminate |].
    cbn [bind].
    destruct (toString_total (IPv6.mk v)) as (s & ->). discriminate.
  - intros H. injection H as <-.
    apply addressErrors_not_path. eapply fromString_errors. exact E.
Qed.

Lemma hostOf_errors parts e : hostOf parts = Err e -> e <> pathError.
Proof.
  unfold hostOf.
  destruct (truthy (parts 2%nat)); [apply addressHost_errors |].
  destruct (truthy (parts 3%nat)); [apply addressHost_errors |].
  destruct (parts 4%nat); [discriminate |].
  intros H. injection H as <-. discriminate.
Qed.

Lemma portOf_errors scheme parts e : portOf scheme parts = Err e -> e <> pathError.
Proof.
  unfold portOf. destruct (truthy (parts 5%nat)); [| discriminate].
  destruct ((parsePort s <? 0) || (65535 <? parsePort s)); cbn [throwIf bind];
    [| discriminate].
  intros H. injection H as <-. discriminate.
Qed.

Lemma isDirOf_errors parts path e : isDirOf parts path = Err e -> e <> pathError.
Proof.
  unfold isDirOf. destruct (length path =? 0)%nat; [discriminate |].
  destruct (parts 6%nat); [discriminate |].
  intros H. injection H as <-. discriminate.
Qed.

Lemma queryOf_total parts : exists query, queryOf parts = Ok query.
Proof.
  unfold queryOf. destruct (truthy (parts 7%nat)); [| eexists; reflexivity].
  assert (H : forall l, exists qs, mapM (fun q => QueryParam.new q None) l = Ok qs).
  { induction l as [| q l [qs IH]]; [eexists; reflexivity |].
    cbn [mapM]. unfold QueryParam.new at 1. cbn [truthy].
    destruct (0 <=? indexOf "="%char q); cbn [bind]; rewrite IH; eexists; reflexivity. }
  destruct (H (matchQSep [] s)) as [qs ->]. eexists. reflexivity.
Qed.

(** The constructor fails on the path exactly when the steps before it have
    succeeded and the loop over the segments fails. *)
Lemma build_path_error parts :
  build parts = Err pathError
  <-> (exists h port,
         hostOf parts = Ok h /\ portOf (schemeOf parts) parts = Ok port)
      /\ pathOf parts = Err pathError.
Proof.
  unfold build. split.
  - intros H.
    destruct (hostOf parts) as [[ip h] | e] eqn:Eh; cbn [bind] in H;
      [| injection H as ->; exfalso; eapply hostOf_errors; [exact Eh | reflexivity]].
    destruct (portOf (schemeOf parts) parts) as [port | e] eqn:Ep; cbn [bind] in H;
      [| injection H as ->; exfalso; eapply portOf_errors; [exact Ep | reflexivity]].
    split; [eexists; eexists; split; reflexivity |].
    destruct (pathOf parts) as [path | e] eqn:Epath; cbn [bind] in H;
      [| injection H as ->; reflexivity].
    exfalso.
    destruct (isDirOf parts path) as [d | e] eqn:Ed; cbn [bind] in H;
      [| injection H as ->; eapply isDirOf_errors; [exact Ed | reflexivity]].
    destruct (queryOf_total parts) as [q Eq]. rewrite Eq in H. discriminate.
  - intros [(h & port & Hh & Hp) Hpath]. rewrite Hh. destruct h as [ip h].
    cbn [bind]. rewrite Hp. cbn [bind]. rewrite Hpath. reflexivity.
Qed.

Lemma build_path parts u :
  build parts = Ok u -> pathOf parts = Ok (HttpURL.path u).
Proof.
  unfold build.
  destruct (hostOf parts) as [[ip h] |]; cbn [bind]; [| discriminate].
  destruct (portOf _ parts); cbn [bind]; [| discriminate].
  destruct (pathOf parts) as [p |]; cbn [bind]; [| discriminate].
  destruct (isDirOf parts p); cbn [bind]; [| discriminate].
  destruct (queryOf parts); cbn [bind]; [| discriminate].
  intros H. injection H as <-. reflexivity.
Qed.

(** C4. The loop over the segments of the raw path is the walk with a stack
    that the specification describes: empty segments and [.] are skipped,
    [..] pops a segment, any other segment is pushed, and the final stack is
    the path. The walk fails exactly when a [..] is met on the empty stack,
    and the constructor then throws "Invalid path" (host and port being
    accepted). The three examples follow. *)
Theorem path_resolution :
  (forall segments,
      pathLoop segments []
      = match walk segments [] with
        | Some path => Ok path
        | None => Err (Error (lit "Invalid path"))
        end)
  /\ (forall segments, walk segments [] = None <-> climbsOut segments)
  /\ (forall url u,
        HttpURL.new url = Ok u ->
        exists parts,
          Regex.exec regEx (replacePct url) = Some parts
          /\ match truthy (parts 6%nat) with
             | Some raw => walk (split "/"%char raw) [] = Some (HttpURL.path u)
             | None => HttpURL.path u = []
             end)
  /\ (forall url,
        HttpURL.new url = Err (Error (lit "Invalid path"))
        <-> exists parts raw h port,
              Regex.exec regEx (replacePct url) = Some parts
              /\ hostOf parts = Ok h
              /\ portOf (schemeOf parts) parts = Ok port
              /\ truthy (parts 6%nat) = Some raw
              /\ climbsOut (split "/"%char raw))
  /\ (exists u, HttpURL.new (lit "http://a/a/b/c/../../.././/d") = Ok u
                /\ HttpURL.path u = [lit "d"])
  /\ (exists u, HttpURL.new (lit "http://a/a/b/c/../../.././/") = Ok u
                /\ HttpURL.path u = [] /\ HttpURL.isDir u = true)
  /\ HttpURL.new (lit "foo.com/a/../../b") = Err (Error (lit "Invalid path")).
Proof.
  assert (Hwalk : forall segments,
            pathLoop segments []
            = match walk segments [] with
              | Some path => Ok path
              | None => Err (Error (lit "Invalid path"))
              end) by (intros; apply (pathLoop_walk segments [])).
  assert (Hclimb : forall segments, walk segments [] = None <-> climbsOut segments).
  { intros segments. rewrite climbsOut_fails, Hwalk.
    destruct (walk segments []); split; (discriminate || reflexivity). }
  split; [exact Hwalk |]. split; [exact Hclimb |].
  split; [| split; [| split; [| split]]].
  - intros url u H. unfold HttpURL.new in H.
    destruct (Regex.exec regEx (replacePct url)) as [parts |]; [| discriminate].
    exists parts. split; [reflexivity |].
    apply build_path in H. unfold pathOf in H.
    destruct (truthy (parts 6%nat)) as [raw |].
    + rewrite Hwalk in H. destruct (walk (split "/"%char raw) []);
        [injection H as ->; reflexivity | discriminate].
    + injection H as <-. reflexivity.
  - intros url. unfold HttpURL.new.
    destruct (Regex.exec regEx (replacePct url)) as [parts |].
    + fold pathError. rewrite build_path_error. unfold pathOf. split.
      * intros [(h & port & Hh & Hp) Hpath].
        destruct (truthy (parts 6%nat)) as [raw |] eqn:Eraw; [| discriminate].
        exists parts, raw, h, port.
        split; [reflexivity |]. split; [exact Hh |]. split; [exact Hp |].
        split; [exact Eraw |]. apply climbsOut_fails. exact Hpath.
      * intros (parts' & raw & h & port & E & Hh & Hp & Hraw & Hc).
        injection E as <-. split; [exists h, port; split; assumption |].
        rewrite Hraw. apply climbsOut_fails. exact Hc.
    + split; [discriminate |].
      intros (parts' & raw & h & port & E & _). discriminate.
  - eexists. split; [vm_compute; reflexivity | reflexivity].
  - eexists. split; [vm_compute; reflexivity | split; reflexivity].
  - vm_compute. reflexivity.
Qed.

Lemma path_resolution_witness :
  exists parts,
    Regex.exec regEx (replacePct (lit "http://a/a/b/c/../../.././/d")) = Some parts
    /\ match truthy (parts 6%nat) with
       | Some raw => walk (split "/"%char raw) [] = Some [lit "d"]
       | None => [lit "d"] = []
       end.
Proof.
  apply (proj1 (proj2 (proj2 path_resolution))
           (lit "http://a/a/b/c/../../.././/d")
           (HttpURL.mk (lit "http") None (lit "a") 80 [lit "d"] [] None false)).
  vm_compute. reflexivity.
Defined.

Lemma In_allAscii c : In c allAscii.
Proof.
  unfold allAscii. rewrite <- (ascii_nat_embedding c).
  apply in_map, in_seq. pose proof (nat_ascii_bounded c). lia.
Qed.

Lemma only_spec x p c : only x (Chr p) = true -> p c = true -> c = x.
Proof.
  unfold only. rewrite forallb_forall. intros H Hp.
  specialize (H c (In_allAscii c)). rewrite Hp in H. simpl in H.
  apply Ascii.eqb_eq. exact H.
Qed.

Lemma caps_eq_dec (a b : option str) : {a = b} + {a <> b}.
Proof. decide equality. apply list_eq_dec, ascii_dec. Qed.

Lemma moves_refl r s c :
  match r with Chr _ => False | _ => True end -> moves r s c s c.
Proof.
  intros Hr. exists []. split; [reflexivity |]. split; [reflexivity |].
  split; [intros n; left; reflexivity |].
  split; [intros x n _ H; congruence |].
  destruct r; try exact I. destruct Hr.
Qed.

Lemma moves_seq a b s c s1 c1 s' c' :
  moves a s c s1 c1 -> moves b s1 c1 s' c' -> moves (Seq a b) s c s' c'.
Proof.
  intros (wa & Ha1 & Ha2 & Ha3 & Ha4 & Ha5) (wb & Hb1 & Hb2 & Hb3 & Hb4 & _).
  exists (wa ++ wb). split; [subst; rewrite app_assoc; reflexivity |].
  split.
  { rewrite forallb_app. apply andb_true_intro. split.
    - revert Ha2. apply forallb_impl. intros x Hx. cbn [alphabet].
      rewrite Hx. reflexivity.
    - revert Hb2. apply forallb_impl. intros x Hx. cbn [alphabet].
      rewrite Hx. apply orb_true_r. }
  split.
  { intros n. destruct (Hb3 n) as [E | (v & E & Hv)].
    - rewrite E. destruct (Ha3 n) as [E' | (v & E' & Hv)]; [left; exact E' |].
      right. exists v. split; [exact E' |].
      revert Hv. apply forallb_impl. intros x Hx. cbn [groupAlphabet].
      rewrite Hx. reflexivity.
    - right. exists v. split; [exact E |].
      revert Hv. apply forallb_impl. intros x Hx. cbn [groupAlphabet].
      rewrite Hx. apply orb_true_r. }
  split; [| exact I].
  intros x n Hm Hne. cbn [marks] in Hm. apply in_or_app.
  destruct (only x a) eqn:Eo.
  - left. destruct a; try discriminate Eo.
    destruct wa as [| y wa]; [congruence |]. left.
    cbn [alphabet forallb] in Ha2. apply andb_prop in Ha2 as [Hy _].
    eapply only_spec; eassumption.
  - cbn [orb] in Hm. apply andb_prop in Hm as [Hma Hmb].
    destruct (caps_eq_dec (c1 n) (c n)) as [E | E].
    + right. apply (Hb4 x n Hmb). congruence.
    + left. apply (Ha4 x n Hma E).
Qed.

Lemma moves_weaken r r' s c s' c' :
  (forall x, alphabet r x = true -> alphabet r' x = true) ->
  (forall n x, groupAlphabet r n x = true -> groupAlphabet r' n x = true) ->
  (forall x n, marks x n r' = true -> marks x n r = true) ->
  match r' with Chr _ => False | _ => True end ->
  moves r s c s' c' -> moves r' s c s' c'.
Proof.
  intros HA HG HM Hr (w & H1 & H2 & H3 & H4 & _).
  exists w. split; [exact H1 |].
  split; [revert H2; apply forallb_impl; exact HA |].
  split.
  { intros n. destruct (H3 n) as [E | (v & E & Hv)]; [left; exact E |].
    right. exists v. split; [exact E |]. revert Hv. apply forallb_impl, HG. }
  split; [intros x n Hm; apply H4, HM, Hm |].
  destruct r'; try exact I. destruct Hr.
Qed.

Lemma moves_trans r s c s1 c1 s' c' :
  match r with Chr _ => False | _ => True end ->
  moves r s c s1 c1 -> moves r s1 c1 s' c' -> moves r s c s' c'.
Proof.
  intros Hr (wa & Ha1 & Ha2 & Ha3 & Ha4 & _) (wb & Hb1 & Hb2 & Hb3 & Hb4 & _).
  exists (wa ++ wb). split; [subst; rewrite app_assoc; reflexivity |].
  split; [rewrite forallb_app, Ha2, Hb2; reflexivity |].
  split.
  { intros n. destruct (Hb3 n) as [E | (v & E & Hv)].
    - rewrite E. apply Ha3.
    - right. exists v. split; assumption. }
  split.
  { intros x n Hm Hne. apply in_or_app.
    destruct (caps_eq_dec (c1 n) (c n)) as [E | E].
    - right. apply (Hb4 x n Hm). congruence.
    - left. apply (Ha4 x n Hm E). }
  destruct r; try exact I. destruct Hr.
Qed.

Lemma moves_group n a s c s' c1 :
  moves a s c s' c1 ->
  moves (Group n a) s c s' (setCap n (firstn (length s - length s') s) c1).
Proof.
  intros (w & H1 & H2 & H3 & H4 & _).
  assert (Hw : firstn (length s - length s') s = w).
  { subst s. rewrite length_app.
    replace (length w + length s' - length s')%nat with (length w) by lia.
    rewrite firstn_app, Nat.sub_diag, firstn_all. cbn [firstn]. apply app_nil_r. }
  rewrite Hw. exists w. split; [exact H1 |]. split; [exact H2 |].
  split.
  { intros m. unfold setCap. destruct (m =? n)%nat eqn:E.
    - right. exists w. split; [reflexivity |].
      revert H2. apply forallb_impl. intros x Hx. cbn [groupAlphabet].
      rewrite Nat.eqb_sym, E, Hx. reflexivity.
    - destruct (H3 m) as [E' | (v & E' & Hv)]; [left; exact E' |].
      right. exists v. split; [exact E' |].
      revert Hv. apply forallb_impl. intros x Hx. cbn [groupAlphabet].
      rewrite Hx. apply orb_true_r. }
  split; [| exact I].
  intros x m Hm Hne. cbn [marks] in Hm. apply andb_prop in Hm as [Hnm Hm].
  apply negb_true_iff in Hnm. unfold setCap in Hne.
  rewrite Nat.eqb_sym, Hnm in Hne. apply (H4 x m Hm Hne).
Qed.

(** The matcher is sound: a result comes from a match of the pattern,
    followed by the continuation. *)
Lemma run_moves r : forall s c k res,
  run r s c k = Some res ->
  exists s' c', moves r s c s' c' /\ k s' c' = Some res.
Proof.
  induction r as [| p | a IHa b IHb | a IHa b IHb | a IHa | n a IHa |];
    intros s c k res H.
  - exists s, c. split; [apply moves_refl; exact I | exact H].
  - cbn [run] in H. destruct s as [| x s]; [discriminate |].
    destruct (p x) eqn:Ep; [| discriminate].
    exists s, c. split; [| exact H].
    exists [x]. split; [reflexivity |].
    split; [cbn; rewrite Ep; reflexivity |].
    split; [intros n; left; reflexivity |].
    split; [intros y n _ Hne; congruence | discriminate].
  - cbn [run] in H. apply IHa in H as (s1 & c1 & Ha & H).
    apply IHb in H as (s' & c' & Hb & H).
    exists s', c'. split; [eapply moves_seq; eassumption | exact H].
  - cbn [run] in H. destruct (run a s c k) as [res' |] eqn:Ea.
    + injection H as <-. apply IHa in Ea as (s' & c' & Ha & Hk).
      exists s', c'. split; [| exact Hk].
      revert Ha. apply moves_weaken; cbn [alphabet groupAlphabet marks];
        try exact I.
      * intros x ->. reflexivity.
      * intros m x ->. reflexivity.
      * intros x m Hm. apply andb_prop in Hm as [Hm _]. exact Hm.
    + apply IHb in H as (s' & c' & Hb & Hk).
      exists s', c'. split; [| exact Hk].
      revert Hb. apply moves_weaken; cbn [alphabet groupAlphabet marks];
        try exact I.
      * intros x ->. apply orb_true_r.
      * intros m x ->. apply orb_true_r.
      * intros x m Hm. apply andb_prop in Hm as [_ Hm]. exact Hm.
  - cbn [run] in H. revert H. generalize (length s) at 1. intros fuel.
    revert s c. induction fuel as [| fuel IH]; intros s c H.
    + exists s, c. split; [apply moves_refl; exact I | exact H].
    + match type of H with
      | match ?m with _ => _ end = _ => destruct m as [res' |] eqn:Ea
      end.
      * injection H as <-. apply IHa in Ea as (s1 & c1 & Ha & Hk).
        destruct (length s1 <? length s)%nat; [| discriminate].
        apply IH in Hk as (s' & c' & Hs & Hk).
        exists s', c'. split; [| exact Hk].
        apply (moves_trans (Star a) s c s1 c1); [exact I | | exact Hs].
        revert Ha. apply moves_weaken; cbn [alphabet groupAlphabet marks];
          auto.
      * exists s, c. split; [apply moves_refl; exact I | exact H].
  - cbn [run] in H. apply IHa in H as (s' & c1 & Ha & Hk).
    eexists. eexists. split; [apply moves_group; exact Ha | exact Hk].
  - cbn [run] in H. destruct s; [| discriminate].
    exists [], c. split; [apply moves_refl; exact I | exact H].
Qed.

(** [exec]: the groups of the result hold characters of their alphabet, and
    a group that marks [x] is set only when [x] is in the text. *)
Lemma exec_sound r s parts :
  exec r s = Some parts ->
  (forall n v, parts n = Some v -> forallb (groupAlphabet r n) v = true)
  /\ (forall x n v, marks x n r = true -> parts n = Some v -> In x s).
Proof.
  unfold exec. intros H.
  apply run_moves in H as (s' & c' & (w & H1 & H2 & H3 & H4 & _) & Hk).
  injection Hk as ->. split.
  - intros n v Hv. destruct (H3 n) as [E | (v' & E & Hv')].
    + rewrite Hv in E. discriminate.
    + rewrite Hv in E. injection E as ->. exact Hv'.
  - intros x n v Hm Hv. rewrite H1. apply in_or_app. left.
    apply (H4 x n Hm). rewrite Hv. discriminate.
Qed.

Lemma groupAlphabet_captured r n c :
  groupAlphabet r n c = true -> captured r c = true.
Proof.
  induction r as [| p | a IHa b IHb | a IHa b IHb | a IHa | m a IHa |];
    cbn [groupAlphabet captured]; intros H; try discriminate; try (apply IHa, H).
  - apply orb_prop in H as [H | H]; [rewrite (IHa H) | rewrite (IHb H)];
      [reflexivity | apply orb_true_r].
  - apply orb_prop in H as [H | H]; [rewrite (IHa H) | rewrite (IHb H)];
      [reflexivity | apply orb_true_r].
  - apply orb_prop in H as [H | H].
    + apply andb_prop in H as [_ H]. rewrite H. reflexivity.
    + rewrite (IHa H). apply orb_true_r.
Qed.

Lemma regEx_captured c : captured regEx c = true -> eqc c "#"%char = false.
Proof.
  assert (H : forallb (fun c => implb (captured regEx c) (negb (eqc c "#"%char)))
                allAscii = true) by (vm_compute; reflexivity).
  rewrite forallb_forall in H. specialize (H c (In_allAscii c)).
  intros Hc. rewrite Hc in H. simpl in H. apply negb_true_iff. exact H.
Qed.

Lemma regEx_marks_fragment : marks "#"%char 8 regEx = true.
Proof. vm_compute. reflexivity. Qed.

(** What [exec] gives for [HttpURL.regEx]. *)
Lemma regEx_sound s parts :
  exec regEx s = Some parts ->
  (forall n v, parts n = Some v -> noHash v = true)
  /\ (forall v, parts 8%nat = Some v -> In "#"%char s).
Proof.
  intros H. apply exec_sound in H as [H1 H2]. split.
  - intros n v Hv. specialize (H1 n v Hv). revert H1. apply forallb_impl.
    intros c Hc. apply groupAlphabet_captured, regEx_captured in Hc.
    rewrite Hc. reflexivity.
  - intros v Hv. apply (H2 "#"%char 8%nat v regEx_marks_fragment Hv).
Qed.

(** ** Texts without [#] *)

Lemma noHash_app a b : noHash (a ++ b) = noHash a && noHash b.
Proof. apply forallb_app. Qed.

Lemma noHash_In s : noHash s = true -> ~ In "#"%char s.
Proof.
  unfold noHash, noChar. rewrite forallb_forall. intros H Hin.
  specialize (H _ Hin). unfold eqc in H. rewrite Ascii.eqb_refl in H. discriminate.
Qed.

Lemma noHash_firstn n s : noHash s = true -> noHash (firstn n s) = true.
Proof.
  intros H. rewrite <- (firstn_skipn n s), noHash_app in H.
  apply andb_prop in H as [H _]. exact H.
Qed.

Lemma noHash_skipn n s : noHash s = true -> noHash (skipn n s) = true.
Proof.
  intros H. rewrite <- (firstn_skipn n s), noHash_app in H.
  apply andb_prop in H as [_ H]. exact H.
Qed.

Lemma noHash_join sep l :
  noHash sep = true -> Forall (fun u => noHash u = true) l ->
  noHash (join sep l) = true.
Proof.
  intros Hs. induction 1 as [| u l Hu Hl IH]; [reflexivity |].
  destruct l as [| w l]; [exact Hu |].
  change (join sep (u :: w :: l)) with (u ++ sep ++ join sep (w :: l)).
  rewrite !noHash_app, Hu, Hs, IH. reflexivity.
Qed.

Lemma noHash_concat l :
  Forall (fun u => noHash u = true) l -> noHash (concat l) = true.
Proof.
  induction 1 as [| u l Hu Hl IH]; [reflexivity |].
  cbn [concat]. rewrite noHash_app, Hu, IH. reflexivity.
Qed.

Lemma noHash_split c s :
  noHash s = true -> Forall (fun u => noHash u = true) (split c s).
Proof.
  induction s as [| x s IH]; intros H; [repeat constructor |].
  unfold noHash in H. cbn [noChar forallb] in H. apply andb_prop in H as [Hx Hs].
  specialize (IH Hs). cbn [split]. destruct (eqc x c).
  - constructor; [reflexivity | exact IH].
  - destruct (split c s) as [| p ps]; [repeat constructor; cbn; rewrite Hx; reflexivity |].
    inversion IH as [| ? ? Hp Hps]; subst.
    constructor; [| exact Hps]. unfold noHash. cbn [noChar forallb].
    rewrite Hx. exact Hp.
Qed.

Lemma digitChar_noHash d : 0 <= d < 16 -> negb (eqc (digitChar d) "#"%char) = true.
Proof. intros H. each_digit d H; reflexivity. Qed.

Lemma noHash_toStringRadix radix z :
  2 <= radix <= 16 -> 0 <= z -> noHash (toStringRadix radix z) = true.
Proof.
  intros Hr Hz. apply toStringRadix_forallb; [lia | | exact Hz].
  intros d Hd. apply digitChar_noHash. lia.
Qed.

Lemma noHash_fixedDigits n z : noHash (fixedDigits 16 n z) = true.
Proof.
  apply fixedDigits_forallb; [lia |]. intros d Hd. apply digitChar_noHash. lia.
Qed.

Lemma toLowerChar_noHash c :
  negb (eqc c "#"%char) = true -> negb (eqc (toLowerChar c) "#"%char) = true.
Proof. each_char c; intros H; try discriminate H; reflexivity. Qed.

Lemma toUpperChar_noHash c :
  negb (eqc c "#"%char) = true -> negb (eqc (toUpperChar c) "#"%char) = true.
Proof. each_char c; intros H; try discriminate H; reflexivity. Qed.

Lemma noHash_toLowerCase s : noHash s = true -> noHash (toLowerCase s) = true.
Proof.
  unfold noHash, noChar, toLowerCase.
  induction s as [| c s IH]; [reflexivity |]. cbn [map forallb]. intros H.
  apply andb_prop in H as [H1 H2].
  rewrite (toLowerChar_noHash c H1), (IH H2). reflexivity.
Qed.

Lemma replacePct_step c h1 h2 s :
  replacePct (c :: h1 :: h2 :: s)
  = if eqc c "%"%char && isHexDigit h1 && isHexDigit h2
    then normalizeTriplet h1 h2 ++ replacePct s
    else c :: replacePct (h1 :: h2 :: s).
Proof. reflexivity. Qed.

Lemma isHexDigit_noHash c :
  isHexDigit c = true -> negb (eqc c "#"%char) = true.
Proof. each_char c; intros H; try discriminate H; reflexivity. Qed.

Lemma chr_noHash z :
  0 <= z < 256 -> z <> 35 -> negb (eqc (chr z) "#"%char) = true.
Proof.
  intros Hz Hne. apply negb_true_iff. unfold eqc.
  destruct (Ascii.eqb (chr z) "#"%char) eqn:E; [| reflexivity].
  apply Ascii.eqb_eq in E. apply (f_equal N_of_ascii) in E.
  unfold chr in E. rewrite N_ascii_embedding in E by lia.
  change (N_of_ascii "#"%char) with 35%N in E. lia.
Qed.

Lemma normalizeTriplet_noHash h1 h2 :
  isHexDigit h1 = true -> isHexDigit h2 = true ->
  noHash (normalizeTriplet h1 h2) = true.
Proof.
  intros H1 H2. unfold normalizeTriplet.
  set (hexNum := parseIntRadix 16 [h1; h2]).
  destruct (_ || _) eqn:E.
  - unfold noHash. cbn [noChar forallb]. rewrite chr_noHash; [reflexivity | |].
    + repeat (apply orb_prop in E as [E | E]);
        try (apply andb_prop in E as [Ea Eb]; apply Z.leb_le in Ea, Eb; lia);
        apply Z.eqb_eq in E; lia.
    + repeat (apply orb_prop in E as [E | E]);
        try (apply andb_prop in E as [Ea Eb]; apply Z.leb_le in Ea, Eb; lia);
        apply Z.eqb_eq in E; lia.
  - unfold noHash. cbn [toUpperCase map noChar forallb].
    rewrite !toUpperChar_noHash; try reflexivity;
      try (apply isHexDigit_noHash; assumption).
Qed.

Lemma replacePct_hash_bounded n : forall s,
  (length s <= n)%nat -> In "#"%char (replacePct s) -> In "#"%char s.
Proof.
  induction n as [| n IH]; intros s Hlen H.
  - destruct s; [exact H | simpl in Hlen; lia].
  - destruct s as [| c [| h1 [| h2 s]]]; try exact H.
    rewrite replacePct_step in H.
    destruct (eqc c "%"%char && isHexDigit h1 && isHexDigit h2) eqn:E.
    + apply andb_prop in E as [E E2]. apply andb_prop in E as [_ E1].
      apply in_app_or in H as [H | H].
      * exfalso. revert H. apply noHash_In, normalizeTriplet_noHash; assumption.
      * right. right. right. apply IH; [cbn [length] in *; lia | exact H].
    + destruct H as [H | H]; [left; exact H |].
      right. apply IH; [cbn [length] in *; lia | exact H].
Qed.

Lemma replacePct_hash s : In "#"%char (replacePct s) -> In "#"%char s.
Proof. apply (replacePct_hash_bounded (length s)). lia. Qed.

(** ** The fields of a URL *)

Lemma build_fields parts u :
  build parts = Ok u ->
  scheme u = schemeOf parts
  /\ hostOf parts = Ok (ipAddress u, host u)
  /\ portOf (schemeOf parts) parts = Ok (port u)
  /\ pathOf parts = Ok (path u)
  /\ isDirOf parts (path u) = Ok (isDir u)
  /\ queryOf parts = Ok (query u)
  /\ fragment u = fragmentOf parts.
Proof.
  unfold build.
  destruct (hostOf parts) as [[ip h] |]; cbn [bind]; [| discriminate].
  destruct (portOf _ parts); cbn [bind]; [| discriminate].
  destruct (pathOf parts) as [p |]; cbn [bind]; [| discriminate].
  destruct (isDirOf parts p) eqn:Ed; cbn [bind]; [| discriminate].
  destruct (queryOf parts); cbn [bind]; [| discriminate].
  intros H. injection H as <-. cbn. rewrite Ed. repeat split; reflexivity.
Qed.

Lemma truthy_inv v s : truthy v = Some s -> v = Some s.
Proof.
  unfold truthy. destruct v as [x |]; [| discriminate].
  destruct (isEmpty x); [discriminate | exact (fun H => H)].
Qed.

Section NoHash.

Variable parts : caps.
Hypothesis parts_noHash : forall n v, parts n = Some v -> noHash v = true.

Lemma schemeOf_noHash : noHash (schemeOf parts) = true.
Proof.
unfold schemeOf. destruct (truthy (parts 1%nat)) as [p |] eqn:E; [| reflexivity].
apply noHash_toLowerCase. apply truthy_inv in E. eapply parts_noHash, E.
Qed.

Lemma noHash_dotted bytes :
Forall (fun b => 0 <= b <= 255) bytes -> noHash (dotted bytes) = true.
Proof.
intros H. unfold dotted. apply noHash_join; [reflexivity |].
apply Forall_map. eapply Forall_impl; [| exact H].
intros b Hb. cbv beta in Hb. apply noHash_toStringRadix; lia.
Qed.

Lemma noHash_collapsed a : 0 <= value a <= MAX -> noHash (collapsed a) = true.
Proof.
intros Hv. rewrite (collapsed_groups a Hv). cbv zeta.
pose proof (groupsOf_range (value a)) as Hr.
set (groups := groupsOf (value a)) in *.
destruct (_ <=? 1).
- apply noHash_join; [reflexivity |]. apply Forall_map.
  apply Forall_forall. intros g _. apply noHash_fixedDigits.
- assert (Hpiece : forall (f : Z -> str) l,
            (forall g, 0 <= g <= 0xFFFF -> noHash (f g) = true) ->
            Forall (fun g => 0 <= g <= 0xFFFF) l ->
            noHash (concat (map f l)) = true).
  { intros f l Hf Hl. apply noHash_concat, Forall_map.
    eapply Forall_impl; [| exact Hl]. exact Hf. }
  rewrite !noHash_app.
  rewrite Hpiece, Hpiece.
  + destruct (_ =? 0), (_ =? 8); reflexivity.
  + intros g Hg. rewrite noHash_app, noHash_toStringRadix by lia. reflexivity.
  + apply (Forall_firstn_skipn _ _ groups Hr).
  + intros g Hg. rewrite noHash_app, noHash_toStringRadix by lia. reflexivity.
  + apply (Forall_firstn_skipn _ _ groups Hr).
Qed.

Lemma addressHost_noHash text ip h :
addressHost text = Ok (ip, h) -> noHash h = true.
Proof.
unfold addressHost.
destruct (IPv6.new (Some (OfString text))) as [a |] eqn:En; cbn [bind];
  [| discriminate].
pose proof (new_valid _ _ En) as Hv.
unfold IPv6.toString. destruct (isIPv4_ a) eqn:E4.
- rewrite (toIPv4String_mapped a Hv E4). cbn [bind].
  intros H. injection H as _ <-. apply noHash_dotted, bytesOf_range.
- rewrite (proj2 (toString_not_IPv4 a E4)). cbn [bind].
  intros H. injection H as _ <-. apply noHash_collapsed, Hv.
Qed.

Lemma hostOf_noHash ip h : hostOf parts = Ok (ip, h) -> noHash h = true.
Proof.
unfold hostOf.
destruct (truthy (parts 2%nat)); [apply addressHost_noHash |].
destruct (truthy (parts 3%nat)); [apply addressHost_noHash |].
destruct (parts 4%nat) as [p |] eqn:E; [| discriminate].
intros H. injection H as _ <-. apply noHash_toLowerCase.
eapply parts_noHash, E.
Qed.

Lemma portOf_nonneg scheme port : portOf scheme parts = Ok port -> 0 <= port.
Proof.
unfold portOf. destruct (truthy (parts 5%nat)) as [p |].
- destruct ((parsePort p <? 0) || (65535 <? parsePort p)) eqn:E;
    cbn [throwIf bind]; [discriminate |].
  intros H. injection H as <-. apply orb_false_iff in E as [E _].
  apply Z.ltb_ge in E. exact E.
- destruct (eqs (lit "http") scheme); intros H; injection H as <-; lia.
Qed.

Lemma pathLoop_In segments : forall pathStack path,
pathLoop segments pathStack = Ok path ->
forall x, In x path -> In x segments \/ In x pathStack.
Proof.
induction segments as [| segment segments IH]; intros pathStack path H x Hx.
- injection H as <-. right. exact Hx.
- cbn [pathLoop] in H.
  destruct (negb (isEmpty segment) && negb (eqs (lit ".") segment)).
  + destruct (eqs (lit "..") segment).
    * unfold pop in H. destruct pathStack as [| y st]; [discriminate |].
      destruct (IH _ _ H x Hx) as [Hin | Hin]; [left; right; exact Hin |].
      right. rewrite (app_removelast_last y (l := y :: st)) by discriminate.
      apply in_or_app. left. exact Hin.
    * destruct (IH _ _ H x Hx) as [Hin | Hin]; [left; right; exact Hin |].
      apply in_app_or in Hin as [Hin | [<- | []]];
        [right; exact Hin | left; left; reflexivity].
  + destruct (IH _ _ H x Hx) as [Hin | Hin]; [left; right; exact Hin |].
    right. exact Hin.
Qed.

Lemma pathOf_noHash path :
pathOf parts = Ok path -> Forall (fun u => noHash u = true) path.
Proof.
unfold pathOf. destruct (truthy (parts 6%nat)) as [p |] eqn:E.
- intros H. apply Forall_forall. intros x Hx.
  destruct (pathLoop_In _ _ _ H x Hx) as [Hin | []].
  apply truthy_inv in E.
  pose proof (noHash_split "/"%char p (parts_noHash _ _ E)) as Hs.
  rewrite Forall_forall in Hs. apply Hs, Hin.
- intros H. injection H as <-. constructor.
Qed.

Lemma matchQSep_noHash s : forall cur,
noHash cur = true -> noHash s = true ->
Forall (fun u => noHash u = true) (matchQSep cur s).
Proof.
induction s as [| c s IH]; intros cur Hc Hs.
- cbn [matchQSep]. destruct (isEmpty cur); repeat constructor. exact Hc.
- unfold noHash in Hs. cbn [noChar forallb] in Hs.
  apply andb_prop in Hs as [Hx Hs]. cbn [matchQSep].
  destruct (isSep c).
  + apply Forall_app. split; [| apply IH; [reflexivity | exact Hs]].
    destruct (isEmpty cur); repeat constructor. exact Hc.
  + apply IH; [| exact Hs]. rewrite noHash_app, Hc. unfold noHash.
    cbn [noChar forallb]. rewrite Hx. reflexivity.
Qed.

Lemma QueryParam_noHash q p :
noHash q = true -> QueryParam.new q None = Ok p ->
noHash (QueryParam.toString p) = true.
Proof.
intros Hq. unfold QueryParam.new. cbn [truthy].
destruct (0 <=? indexOf "="%char q); intros H; injection H as <-;
  unfold QueryParam.toString; cbn [QueryParam.name QueryParam.value].
- destruct (truthy _) as [v |] eqn:E.
  + apply truthy_inv in E. injection E as <-.
    rewrite !noHash_app, noHash_firstn, noHash_skipn by assumption.
    reflexivity.
  + apply noHash_firstn, Hq.
- exact Hq.
Qed.

Lemma mapM_noHash l : forall qs,
Forall (fun u => noHash u = true) l ->
mapM (fun q => QueryParam.new q None) l = Ok qs ->
Forall (fun p => noHash (QueryParam.toString p) = true) qs.
Proof.
induction l as [| q l IH]; intros qs Hl H.
- injection H as <-. constructor.
- inversion Hl as [| ? ? Hq Hl']; subst. cbn [mapM] in H.
  destruct (QueryParam.new q None) as [p |] eqn:Ep; cbn [bind] in H;
    [| discriminate].
  destruct (mapM _ l) as [ps |]; cbn [bind] in H; [| discriminate].
  injection H as <-. constructor; [eapply QueryParam_noHash; eassumption |].
  apply IH; [exact Hl' | reflexivity].
Qed.

Lemma In_insertSorted {A} (cmp : A -> A -> Z) x y l :
In y (insertSorted cmp x l) -> y = x \/ In y l.
Proof.
induction l as [| z l IH]; cbn [insertSorted]; intros H.
- destruct H as [<- | []]. left. reflexivity.
- destruct (cmp x z <? 0).
  + destruct H as [<- | H]; [left; reflexivity | right; exact H].
  + destruct H as [<- | H]; [right; left; reflexivity |].
    destruct (IH H) as [-> | Hin]; [left; reflexivity | right; right; exact Hin].
Qed.

Lemma In_sort {A} (cmp : A -> A -> Z) l y : In y (sort cmp l) -> In y l.
Proof.
unfold sort.
assert (H : forall acc, In y (fold_left (fun acc x => insertSorted cmp x acc) l acc)
                        -> In y l \/ In y acc).
{ induction l as [| x l IH]; intros acc Hy; [right; exact Hy |].
  cbn [fold_left] in Hy. destruct (IH _ Hy) as [Hin | Hin]; [left; right; exact Hin |].
  apply In_insertSorted in Hin as [-> | Hin]; [left; left; reflexivity | right; exact Hin]. }
intros Hy. destruct (H [] Hy) as [Hin | []]. exact Hin.
Qed.

Lemma queryOf_noHash query :
queryOf parts = Ok query ->
Forall (fun p => noHash (QueryParam.toString p) = true) query.
Proof.
unfold queryOf. destruct (truthy (parts 7%nat)) as [p |] eqn:E.
- destruct (mapM _ _) as [qs |] eqn:Em; cbn [bind]; [| discriminate].
  intros H. injection H as <-.
  apply truthy_inv in E.
  pose proof (mapM_noHash _ _
                (matchQSep_noHash p [] eq_refl (parts_noHash _ _ E)) Em) as Hq.
  rewrite Forall_forall in *. intros x Hx. apply Hq. eapply In_sort, Hx.
- intros H. injection H as <-. constructor.
Qed.

(** The rendering of a URL that [build] gives holds no [#]. *)
Lemma toString_noHash u :
build parts = Ok u -> noHash (HttpURL.toString u) = true.
Proof.
intros H. apply build_fields in H as (Hs & Hh & Hp & Hpath & _ & Hq & Hf).
pose proof (hostOf_noHash _ _ Hh) as Hhost.
unfold HttpURL.toString. cbv zeta. rewrite !noHash_app.
repeat (apply andb_true_intro; split); try reflexivity.
- rewrite Hs. apply schemeOf_noHash.
- destruct (ipAddress u) as [ip |]; [| exact Hhost].
  destruct (negb (isIPv4_ ip)); [| exact Hhost].
  rewrite !noHash_app, Hhost. reflexivity.
- apply noHash_toStringRadix; [lia | eapply portOf_nonneg, Hp].
- destruct (negb _); [| reflexivity].
  rewrite noHash_app, noHash_join; [reflexivity | reflexivity |].
  apply pathOf_noHash, Hpath.
- destruct (isDir u); reflexivity.
- destruct (negb _); [| reflexivity].
  rewrite noHash_app, noHash_join; [reflexivity | reflexivity |].
  apply Forall_map, queryOf_noHash, Hq.
- rewrite Hf. unfold fragmentOf.
  destruct (truthy (parts 8%nat)) as [f |] eqn:E; [| reflexivity].
  cbn [truthy]. apply truthy_inv in E.
  destruct (isEmpty f); [reflexivity | eapply parts_noHash, E].
Qed.

End NoHash.

(** The rendering of a URL holds no [#]. *)
Lemma rendering_noHash url u :
  HttpURL.new url = Ok u -> noHash (HttpURL.toString u) = true.
Proof.
  intros Hnew. unfold HttpURL.new in Hnew.
  destruct (exec regEx (replacePct url)) as [parts |] eqn:E; [| discriminate].
  apply regEx_sound in E as [Hparts _].
  eapply toString_noHash; eassumption.
Qed.

(** A URL with a fragment is never what its rendering parses to. *)
Lemma reparse_differs url u :
  HttpURL.new url = Ok u -> fragment u <> None ->
  HttpURL.new (HttpURL.toString u) <> Ok u.
Proof.
  intros Hnew Hf Hre. unfold HttpURL.new in Hnew, Hre.
  destruct (exec regEx (replacePct url)) as [parts |] eqn:E; [| discriminate].
  destruct (exec regEx (replacePct (HttpURL.toString u))) as [parts' |] eqn:E';
    [| discriminate].
  apply regEx_sound in E as [Hparts _].
  apply regEx_sound in E' as [_ Hhash].
  apply build_fields in Hre as (_ & _ & _ & _ & _ & _ & Hf').
  destruct (fragment u) as [f |] eqn:Ef; [| congruence].
  unfold fragmentOf in Hf'. symmetry in Hf'. apply truthy_inv in Hf'.
  apply Hhash, replacePct_hash in Hf'.
  revert Hf'. apply noHash_In. eapply toString_noHash; eassumption.
Qed.

(** C1. The constructor accepts the README's example
    [Foo.org/a/./c/../B//%64/CR%9a?b=c;a=;C=%64#], and [toString] of the
    URL it makes is [http://foo.org:80/a/B/d/CR%9A?C=d&a&b=c]; the fields of
    the URL are those that the example's steps describe. *)
Theorem readme_example :
  exists u,
    HttpURL.new (lit "Foo.org/a/./c/../B//%64/CR%9a?b=c;a=;C=%64#") = Ok u
    /\ HttpURL.toString u = lit "http://foo.org:80/a/B/d/CR%9A?C=d&a&b=c"
    /\ scheme u = lit "http"
    /\ host u = lit "foo.org"
    /\ port u = 80
    /\ path u = [lit "a"; lit "B"; lit "d"; lit "CR%9A"]
    /\ map QueryParam.toString (query u) = [lit "C=d"; lit "a"; lit "b=c"]
    /\ fragment u = None.
Proof.
  eexists. split; [vm_compute; reflexivity |].
  repeat split; vm_compute; reflexivity.
Qed.

Lemma build_fragment parts u :
  build parts = Ok u -> fragment u = fragmentOf parts.
Proof.
  unfold build.
  destruct (hostOf parts) as [[ip h] |]; cbn [bind]; [| discriminate].
  destruct (portOf _ parts); cbn [bind]; [| discriminate].
  destruct (pathOf parts) as [p |]; cbn [bind]; [| discriminate].
  destruct (isDirOf parts p); cbn [bind]; [| discriminate].
  destruct (queryOf parts); cbn [bind]; [| discriminate].
  intros H. injection H as <-. reflexivity.
Qed.

Lemma truthy_some v s : truthy v = Some s -> s <> [] /\ truthy (Some s) = Some s.
Proof.
  unfold truthy. destruct v as [x |]; [| discriminate].
  destruct x; [discriminate |]. intros H. injection H as <-.
  split; [discriminate | reflexivity].
Qed.

(** C10. For every URL that the constructor makes with a fragment,
    [toString] is the text of the URL without the fragment followed by the
    fragment alone: no [#] stands before it, and none anywhere in the text.
    The constructor therefore never makes, from that text, a URL equal to
    the one rendered; for [http://a/x#f] the text is [http://a:80/xf],
    which parses to a URL of path [xf] and no fragment. *)
Theorem fragment_without_separator :
  (forall url u f,
      HttpURL.new url = Ok u -> fragment u = Some f ->
      f <> []
      /\ HttpURL.toString u = HttpURL.toString (withoutFragment u) ++ f
      /\ noHash (HttpURL.toString u) = true
      /\ HttpURL.new (HttpURL.toString u) <> Ok u)
  /\ (exists u,
        HttpURL.new (lit "http://a/x#f") = Ok u
        /\ fragment u = Some (lit "f")
        /\ HttpURL.toString u = lit "http://a:80/xf"
        /\ HttpURL.toString u <> lit "http://a:80/x#f"
        /\ exists u',
             HttpURL.new (HttpURL.toString u) = Ok u'
             /\ u' <> u
             /\ path u' = [lit "xf"]
             /\ fragment u' = None).
Proof.
  split.
  - intros url u f Hnew Hf.
    assert (Hhash := rendering_noHash url u Hnew).
    assert (Hre : HttpURL.new (HttpURL.toString u) <> Ok u)
      by (apply (reparse_differs url); [exact Hnew | congruence]).
    split; [| split; [| split; assumption]]; clear Hhash Hre;
      unfold HttpURL.new in Hnew;
      (destruct (Regex.exec regEx (replacePct url)) as [parts |];
       [| discriminate]);
      apply build_fragment in Hnew; unfold fragmentOf in Hnew;
      rewrite Hf in Hnew; symmetry in Hnew;
      apply truthy_some in Hnew as [Hne Ht]; [exact Hne |].
    unfold HttpURL.toString, withoutFragment.
    cbn [scheme ipAddress host port path query fragment isDir truthy].
    rewrite Hf, Ht. rewrite app_nil_r, <- !app_assoc. reflexivity.
  - eexists. split; [vm_compute; reflexivity |].
    split; [reflexivity |]. split; [vm_compute; reflexivity |].
    split; [vm_compute; discriminate |].
    eexists. split; [vm_compute; reflexivity |].
    split; [discriminate |]. split; reflexivity.
Qed.

Lemma fragment_without_separator_witness :
  let u :=
    mk (lit "http") None (lit "a") 80 [lit "x"] [] (Some (lit "f")) false in
  lit "f" <> []
  /\ HttpURL.toString u = HttpURL.toString (withoutFragment u) ++ lit "f"
  /\ noHash (HttpURL.toString u) = true
  /\ HttpURL.new (HttpURL.toString u) <> Ok u.
Proof.
  intros u.
  apply (proj1 fragment_without_separator (lit "http://a/x#f")).
  - vm_compute. reflexivity.
  - reflexivity.
Defined.

(** * Further properties of the HttpURL class *)

From Stdlib Require Sorted Permutation.

(** ** The matcher finds matches of the pattern only *)

Lemma sets_refl r c : sets r c c.
Proof. intros n. left. reflexivity. Qed.

Lemma sets_weaken r r' c c' :
  (forall n a, In a (groupBodies r n) -> In a (groupBodies r' n)) ->
  sets r c c' -> sets r' c c'.
Proof.
  intros Hin H n. destruct (H n) as [E | (v & a & E & Ha & Hm)];
    [left; exact E | right; exists v, a; repeat split; auto].
Qed.

Lemma sets_trans r c c1 c2 : sets r c c1 -> sets r c1 c2 -> sets r c c2.
Proof.
  intros H1 H2 n. destruct (H2 n) as [E | H]; [| right; exact H].
  rewrite E. apply H1.
Qed.

Lemma sets_keeps r c c' n : sets r c c' -> c n <> None -> c' n <> None.
Proof.
  intros H Hn. destruct (H n) as [E | (v & a & E & _)]; rewrite E;
    [exact Hn | discriminate].
Qed.

Lemma matches_star_one a u : matches a u -> matches (Star a) u.
Proof.
  intros H. rewrite <- (app_nil_r u). apply matches_more; [exact H | constructor].
Qed.

Lemma run_matches r : forall s c k res,
  run r s c k = Some res ->
  exists w s' c',
    s = w ++ s' /\ matches r w /\ sets r c c'
    /\ (forall ns, mustSet ns r = true -> exists n, In n ns /\ c' n <> None)
    /\ k s' c' = Some res.
Proof.
  induction r as [| p | a IHa b IHb | a IHa b IHb | a IHa | n a IHa |];
    intros s c k res H.
  - exists [], s, c. repeat split; [constructor | apply sets_refl | | exact H].
    intros ns Hns. discriminate Hns.
  - cbn [run] in H. destruct s as [| x s]; [discriminate |].
    destruct (p x) eqn:Ep; [| discriminate].
    exists [x], s, c.
    repeat split; [constructor; exact Ep | apply sets_refl | | exact H].
    intros ns Hns. discriminate Hns.
  - cbn [run] in H. apply IHa in H as (w1 & s1 & c1 & -> & Hm1 & Hs1 & Hn1 & H).
    apply IHb in H as (w2 & s2 & c2 & -> & Hm2 & Hs2 & Hn2 & H).
    exists (w1 ++ w2), s2, c2. rewrite <- app_assoc.
    split; [reflexivity |]. split; [constructor; assumption |].
    split; [| split; [| exact H]].
    + apply (sets_trans _ c c1 c2).
      * revert Hs1. apply sets_weaken. intros m x Hx. cbn [groupBodies].
        apply in_or_app. left. exact Hx.
      * revert Hs2. apply sets_weaken. intros m x Hx. cbn [groupBodies].
        apply in_or_app. right. exact Hx.
    + intros ns Hns. cbn [mustSet] in Hns. apply orb_prop in Hns as [Hns | Hns].
      * destruct (Hn1 ns Hns) as (m & Hin & Hm). exists m. split; [exact Hin |].
        eapply sets_keeps; eassumption.
      * apply Hn2, Hns.
  - cbn [run] in H. destruct (run a s c k) as [res' |] eqn:Ea.
    + injection H as <-. apply IHa in Ea as (w & s' & c' & -> & Hm & Hs & Hn & Hk).
      exists w, s', c'. split; [reflexivity |].
      split; [apply matches_left; exact Hm |]. split; [| split; [| exact Hk]].
      * revert Hs. apply sets_weaken. intros m x Hx. cbn [groupBodies].
        apply in_or_app. left. exact Hx.
      * intros ns Hns. cbn [mustSet] in Hns. apply andb_prop in Hns as [Hns _].
        apply Hn, Hns.
    + apply IHb in H as (w & s' & c' & -> & Hm & Hs & Hn & Hk).
      exists w, s', c'. split; [reflexivity |].
      split; [apply matches_right; exact Hm |]. split; [| split; [| exact Hk]].
      * revert Hs. apply sets_weaken. intros m x Hx. cbn [groupBodies].
        apply in_or_app. right. exact Hx.
      * intros ns Hns. cbn [mustSet] in Hns. apply andb_prop in Hns as [_ Hns].
        apply Hn, Hns.
  - cbn [run] in H. revert H. generalize (length s) at 1. intros fuel.
    revert s c. induction fuel as [| fuel IH]; intros s c H.
    + exists [], s, c.
      repeat split; [constructor | apply sets_refl | | exact H].
      intros ns Hns. discriminate Hns.
    + match type of H with
      | match ?m with _ => _ end = _ => destruct m as [res' |] eqn:Ea
      end.
      * injection H as <-.
        apply IHa in Ea as (w1 & s1 & c1 & -> & Hm1 & Hs1 & _ & Hk).
        destruct (length s1 <? length (w1 ++ s1))%nat; [| discriminate].
        apply IH in Hk as (w2 & s2 & c2 & -> & Hm2 & Hs2 & _ & Hk).
        exists (w1 ++ w2), s2, c2. rewrite <- app_assoc.
        split; [reflexivity |]. split; [apply matches_more; assumption |].
        split; [| split; [| exact Hk]].
        -- apply (sets_trans _ c c1 c2); [| exact Hs2].
           revert Hs1. apply sets_weaken. intros m x Hx. exact Hx.
        -- intros ns Hns. discriminate Hns.
      * exists [], s, c.
        repeat split; [constructor | apply sets_refl | | exact H].
        intros ns Hns. discriminate Hns.
  - cbn [run] in H. apply IHa in H as (w & s' & c1 & -> & Hm & Hs & Hn & Hk).
    rewrite length_app, Nat.add_sub, firstn_app, Nat.sub_diag, firstn_all in Hk.
    cbn [firstn] in Hk. rewrite app_nil_r in Hk.
    exists w, s', (setCap n w c1). split; [reflexivity |].
    split; [constructor; exact Hm |]. split; [| split; [| exact Hk]].
    + intros m. unfold setCap. destruct (m =? n)%nat eqn:E.
      * right. exists w, a. split; [reflexivity |]. split; [| exact Hm].
        cbn [groupBodies]. rewrite Nat.eqb_sym, E. left. reflexivity.
      * destruct (Hs m) as [E1 | (v & x & E1 & Hx & Hv)]; [left; exact E1 |].
        right. exists v, x. split; [exact E1 |]. split; [| exact Hv].
        cbn [groupBodies]. apply in_or_app. right. exact Hx.
    + intros ns Hns. cbn [mustSet] in Hns. apply orb_prop in Hns as [Hns | Hns].
      * apply existsb_exists in Hns as (m & Hin & Hm'). apply Nat.eqb_eq in Hm'.
        subst m. exists n. split; [exact Hin |]. unfold setCap.
        rewrite Nat.eqb_refl. discriminate.
      * destruct (Hn ns Hns) as (m & Hin & Hm'). exists m. split; [exact Hin |].
        unfold setCap. destruct (m =? n)%nat; [discriminate | exact Hm'].
  - cbn [run] in H. destruct s; [| discriminate].
    exists [], [], c.
    repeat split; [constructor | apply sets_refl | | exact H].
    intros ns Hns. discriminate Hns.
Qed.

(** What [exec] gives: every group that is set holds a text that one of
    its patterns matches, and one group is set of every list that no match
    can avoid. *)
Lemma exec_matches r s parts :
  exec r s = Some parts ->
  (forall n v, parts n = Some v ->
               exists a, In a (groupBodies r n) /\ matches a v)
  /\ (forall ns, mustSet ns r = true -> exists n, In n ns /\ parts n <> None).
Proof.
  unfold exec. intros H.
  apply run_matches in H as (w & s' & c' & _ & _ & Hs & Hn & Hk).
  injection Hk as ->. split; [| exact Hn].
  intros n v Hv. destruct (Hs n) as [E | (v' & a & E & Ha & Hm)].
  - rewrite Hv in E. discriminate E.
  - rewrite Hv in E. injection E as <-. exists a. split; assumption.
Qed.

Lemma matches_nullable r w : matches r w -> w = [] -> nullable r = true.
Proof.
  induction 1 as [| p x Hp | a b u v _ IHa _ IHb | a b u _ IH | a b u _ IH
                 | a | a u v _ _ _ _ | n a u _ IH |]; intros E;
    cbn [nullable]; try reflexivity.
  - discriminate E.
  - apply app_eq_nil in E as [-> ->]. rewrite IHa, IHb; reflexivity.
  - rewrite IH by exact E. reflexivity.
  - rewrite IH by exact E. apply orb_true_r.
  - apply IH, E.
Qed.

(** The texts of a word of the pattern: the word, in any case. *)
Lemma matches_text w : forall v,
  matches (text w) v -> toLowerCase v = toLowerCase w.
Proof.
  induction w as [| x w IH]; intros v H.
  - inversion H. reflexivity.
  - cbn [text] in H. inversion H as [| | a b u v' Hu Hv | | | | | |]; subst.
    inversion Hu as [| p c Hc | | | | | | |]; subst.
    apply Ascii.eqb_eq in Hc. cbn [app toLowerCase map]. rewrite Hc.
    f_equal. apply IH, Hv.
Qed.

(** ** What the pattern of a URL gives *)

Lemma regEx_groups s parts :
  exec regEx s = Some parts ->
  (forall v, parts 1%nat = Some v ->
             toLowerCase v = lit "http" \/ toLowerCase v = lit "https")
  /\ (forall n v, In n [2; 3; 4]%nat -> parts n = Some v -> v <> [])
  /\ (exists n, In n [2; 3; 4]%nat /\ parts n <> None).
Proof.
  intros H. apply exec_matches in H as [Hg Hm]. split; [| split].
  - intros v Hv. destruct (Hg 1%nat v Hv) as (a & Ha & Hmv).
    change (groupBodies regEx 1)
      with [Alt (text (lit "http")) (text (lit "https"))] in Ha.
    destruct Ha as [<- | []].
    inversion Hmv as [| | | a b u Hu | a b u Hu | | | |]; subst;
      [left; apply (matches_text (lit "http") v Hu)
      | right; apply (matches_text (lit "https") v Hu)].
  - intros n v Hn Hv. destruct (Hg n v Hv) as (a & Ha & Hmv). intros ->.
    pose proof (matches_nullable a [] Hmv eq_refl) as Hnull.
    destruct Hn as [<- | [<- | [<- | []]]];
      (destruct Ha as [<- | []]; discriminate Hnull).
  - apply Hm. reflexivity.
Qed.

Lemma hostOf_out parts :
  (forall n v, In n [2; 3; 4]%nat -> parts n = Some v -> v <> []) ->
  (exists n, In n [2; 3; 4]%nat /\ parts n <> None) ->
  (exists text, text <> [] /\ hostOf parts = addressHost text)
  \/ (exists p, p <> [] /\ parts 4%nat = Some p
                /\ hostOf parts = Ok (None, toLowerCase p)).
Proof.
  intros Hne (n & Hn & Hset). unfold hostOf.
  destruct (truthy (parts 2%nat)) as [p |] eqn:E2.
  { left. exists p. split; [apply (truthy_some _ _ E2) | reflexivity]. }
  destruct (truthy (parts 3%nat)) as [p |] eqn:E3.
  { left. exists p. split; [apply (truthy_some _ _ E3) | reflexivity]. }
  assert (Hnone : forall m, In m [2; 3]%nat -> truthy (parts m) = None ->
                            parts m = None).
  { intros m Hm Ht. destruct (parts m) as [v |] eqn:Ev; [| reflexivity].
    assert (v <> []) by (apply (Hne m v); [simpl in *; tauto | exact Ev]).
    destruct v; [contradiction | discriminate Ht]. }
  destruct (parts 4%nat) as [p |] eqn:E4.
  - right. exists p. split; [| split; reflexivity].
    apply (Hne 4%nat p); [simpl; tauto | exact E4].
  - exfalso. destruct Hn as [<- | [<- | [<- | []]]].
    + apply Hset, Hnone; [simpl; tauto | exact E2].
    + apply Hset, Hnone; [simpl; tauto | exact E3].
    + apply Hset, E4.
Qed.

Lemma addressHost_out text :
  match addressHost text with
  | Ok (ip, h) =>
      exists a, ip = Some a /\ 0 <= IPv6.value a <= MAX
                /\ IPv6.toString a = Ok h
                /\ IPv6.new (Some (OfString h)) = Ok a
  | Err e => In e parseErrors
  end.
Proof.
  unfold addressHost. pose proof (fromString_out text) as Ho.
  unfold IPv6.new. cbn [toBigInt].
  destruct (fromString text) as [v |]; cbn [bind]; [| exact Ho].
  replace (MAX <? v) with false by (symmetry; apply Z.ltb_ge; lia).
  replace (v <? ZERO) with false by (symmetry; apply Z.ltb_ge; unfold ZERO; lia).
  cbn [bind].
  destruct (read_back (IPv6.mk v) Ho) as [(h & Hh & Hn) _].
  rewrite Hh. cbn [bind]. exists (IPv6.mk v).
  split; [reflexivity |]. split; [exact Ho |]. split; [exact Hh |].
  apply new_of_parsed, Hn.
Qed.

Lemma portOf_out scheme parts :
  match portOf scheme parts with
  | Ok port => 0 <= port <= 65535
  | Err e => e = Error (lit "Invalid port")
  end.
Proof.
  unfold portOf. destruct (truthy (parts 5%nat)) as [p |].
  - destruct ((parsePort p <? 0) || (65535 <? parsePort p)) eqn:E;
      cbn [throwIf bind]; [reflexivity |].
    apply orb_false_iff in E as [E1 E2]. apply Z.ltb_ge in E1, E2. lia.
  - destruct (eqs (lit "http") scheme); lia.
Qed.

Lemma isDirOf_out parts path :
  pathOf parts = Ok path ->
  exists d, isDirOf parts path = Ok d /\ (path = [] -> d = true).
Proof.
  unfold pathOf, isDirOf. intros H.
  destruct path as [| seg path]; [exists true; split; reflexivity |].
  cbn [length Nat.eqb].
  destruct (truthy (parts 6%nat)) as [p |] eqn:E; [| discriminate H].
  apply truthy_inv in E. rewrite E.
  eexists. split; [reflexivity | discriminate].
Qed.

(** What [build] gives, for the groups of a match. *)
Lemma build_out parts :
  (forall v, parts 1%nat = Some v ->
             toLowerCase v = lit "http" \/ toLowerCase v = lit "https") ->
  (forall n v, In n [2; 3; 4]%nat -> parts n = Some v -> v <> []) ->
  (exists n, In n [2; 3; 4]%nat /\ parts n <> None) ->
  match build parts with
  | Ok u =>
      (scheme u = lit "http" \/ scheme u = lit "https")
      /\ 0 <= port u <= 65535
      /\ (path u = [] -> isDir u = true)
      /\ fragment u <> Some []
      /\ host u <> []
      /\ (forall a, ipAddress u = Some a ->
                    0 <= IPv6.value a <= MAX
                    /\ IPv6.toString a = Ok (host u)
                    /\ IPv6.new (Some (OfString (host u))) = Ok a)
  | Err e => In e urlErrors
  end.
Proof.
  intros Hscheme Hne Hset. unfold build.
  assert (Hs : schemeOf parts = lit "http" \/ schemeOf parts = lit "https").
  { unfold schemeOf. destruct (truthy (parts 1%nat)) as [p |] eqn:E;
      [| left; reflexivity].
    apply truthy_inv in E. apply Hscheme, E. }
  assert (Hh : match hostOf parts with
               | Ok (ip, h) =>
                   h <> []
                   /\ forall a, ip = Some a ->
                                0 <= IPv6.value a <= MAX
                                /\ IPv6.toString a = Ok h
                                /\ IPv6.new (Some (OfString h)) = Ok a
               | Err e => In e parseErrors
               end).
  { destruct (hostOf_out parts Hne Hset)
      as [(text & _ & ->) | (p & Hp & _ & ->)].
    - pose proof (addressHost_out text) as Ha.
      destruct (addressHost text) as [[ip h] |]; [| exact Ha].
      destruct Ha as (a & -> & Hv & Ht & Hn). split.
      + intros ->. discriminate Hn.
      + intros a' E. injection E as <-. repeat split; assumption || apply Hv.
    - split; [| discriminate].
      destruct p; [contradiction | discriminate]. }
  destruct (hostOf parts) as [[ip h] |]; cbn [bind];
    [| right; right; right; exact Hh].
  pose proof (portOf_out (schemeOf parts) parts) as Hp.
  destruct (portOf _ parts) as [prt |]; cbn [bind];
    [| subst; right; left; reflexivity].
  destruct (pathOf parts) as [pth |] eqn:Epath; cbn [bind].
  - destruct (isDirOf_out parts pth Epath) as (d & -> & Hd). cbn [bind].
    destruct (queryOf_total parts) as (query & ->). cbn [bind].
    cbn [scheme port path isDir fragment host ipAddress].
    split; [exact Hs |]. split; [exact Hp |]. split; [exact Hd |].
    split; [| exact Hh].
    unfold fragmentOf, truthy. destruct (parts 8%nat) as [[| c f] |];
      discriminate.
  - unfold pathOf in Epath.
    destruct (truthy (parts 6%nat)); [| discriminate Epath].
    apply pathLoop_fails in Epath as [-> _]. right. right. left. reflexivity.
Qed.

Lemma new_out url :
  match HttpURL.new url with
  | Ok u =>
      (scheme u = lit "http" \/ scheme u = lit "https")
      /\ 0 <= port u <= 65535
      /\ (path u = [] -> isDir u = true)
      /\ fragment u <> Some []
      /\ host u <> []
      /\ (forall a, ipAddress u = Some a ->
                    0 <= IPv6.value a <= MAX
                    /\ IPv6.toString a = Ok (host u)
                    /\ IPv6.new (Some (OfString (host u))) = Ok a)
  | Err e => In e urlErrors
  end.
Proof.
  unfold HttpURL.new.
  destruct (exec regEx (replacePct url)) as [parts |] eqn:E;
    [| left; reflexivity].
  apply regEx_groups in E as (H1 & H2 & H3). apply build_out; assumption.
Qed.

(** X18. The fields of every URL that the constructor makes: the scheme is
    [http] or [https], the port is between 0 and 65535, a URL without path
    segments is a directory, the fragment is not the empty text, the host
    is not empty, and the host of a URL with an address is the text of
    [toString] of that address, which reads back as the address. *)
Theorem fields_of_a_url url u :
  HttpURL.new url = Ok u ->
  (scheme u = lit "http" \/ scheme u = lit "https")
  /\ 0 <= port u <= 65535
  /\ (path u = [] -> isDir u = true)
  /\ fragment u <> Some []
  /\ host u <> []
  /\ (forall a, ipAddress u = Some a ->
                0 <= IPv6.value a <= MAX
                /\ IPv6.toString a = Ok (host u)
                /\ IPv6.new (Some (OfString (host u))) = Ok a).
Proof. intros H. pose proof (new_out url) as Ho. rewrite H in Ho. exact Ho. Qed.

Lemma fields_of_a_url_witness :
  let u := HttpURL.mk (lit "https") (Some (IPv6.mk 1)) (lit "::1") 443 [] []
             None true in
  (scheme u = lit "http" \/ scheme u = lit "https")
  /\ 0 <= port u <= 65535
  /\ (path u = [] -> isDir u = true)
  /\ fragment u <> Some []
  /\ host u <> []
  /\ (forall a, ipAddress u = Some a ->
                0 <= IPv6.value a <= MAX
                /\ IPv6.toString a = Ok (host u)
                /\ IPv6.new (Some (OfString (host u))) = Ok a).
Proof.
  intros u. apply (fields_of_a_url (lit "HTTPS://[0:0::1]")).
  vm_compute. reflexivity.
Defined.

(** X19. The constructor throws nothing but an [Error] with one of nine
    messages: "Invalid URL", "Invalid port", "Invalid path" and the six of
    the parser of addresses; reading a group that did not take part in the
    match never makes it throw a [TypeError]. *)
Theorem url_errors url e :
  HttpURL.new url = Err e ->
  In e urlErrors
  /\ (forall message, e <> TypeError message)
  /\ exists message, e = Error message.
Proof.
  intros H. pose proof (new_out url) as Ho. rewrite H in Ho.
  split; [exact Ho |].
  assert (He : exists message, e = Error message).
  { unfold urlErrors, parseErrors in Ho. simpl in Ho.
    repeat (destruct Ho as [<- | Ho]; [eexists; reflexivity |]).
    destruct Ho. }
  split; [| exact He].
  intros message ->. destruct He as (m & He). discriminate He.
Qed.

Lemma url_errors_witness :
  In (Error (lit "Invalid port")) urlErrors
  /\ (forall message, Error (lit "Invalid port") <> TypeError message)
  /\ exists message, Error (lit "Invalid port") = Error message.
Proof. apply (url_errors (lit "a.b:70000/c")). vm_compute. reflexivity. Defined.

(** ** The resolved path *)

Lemma split_noChar c s : Forall (fun p => noChar c p = true) (split c s).
Proof.
  induction s as [| x s IH]; [repeat constructor |].
  cbn [split]. destruct (eqc x c) eqn:E.
  - constructor; [reflexivity | exact IH].
  - destruct (split c s) as [| p ps]; [repeat constructor; cbn; rewrite E; reflexivity |].
    inversion IH as [| ? ? Hp Hps]; subst.
    constructor; [| exact Hps]. unfold noChar in *. cbn [forallb].
    rewrite E, Hp. reflexivity.
Qed.

Lemma split_join_char c us :
  us <> [] -> Forall (fun u => noChar c u = true) us ->
  split c (join [c] us) = us.
Proof.
  induction us as [| u us IH]; intros Hne H; [congruence |].
  inversion H as [| ? ? Hu Hus]; subst.
  destruct us as [| w us]; [apply split_one; exact Hu |].
  change (join [c] (u :: w :: us)) with (u ++ c :: join [c] (w :: us)).
  rewrite split_more by exact Hu. f_equal. apply IH; [discriminate | exact Hus].
Qed.

Lemma eqs_false a b : a <> b -> eqs a b = false.
Proof.
  intros H. destruct (eqs a b) eqn:E; [| reflexivity].
  apply eqs_eq in E. contradiction.
Qed.

Lemma Forall_removelast {A} (P : A -> Prop) l :
  Forall P l -> Forall P (removelast l).
Proof.
  induction 1 as [| x l Hx Hl IH]; [constructor |].
  destruct l as [| y l]; [constructor |].
  change (removelast (x :: y :: l)) with (x :: removelast (y :: l)).
  constructor; assumption.
Qed.

Lemma pop_removelast pathStack st :
  pop pathStack = Some st -> st = removelast pathStack.
Proof.
  unfold pop. destruct pathStack; [discriminate |].
  intros H. injection H as <-. reflexivity.
Qed.

Lemma pathLoop_plain segments : forall pathStack path,
  pathLoop segments pathStack = Ok path ->
  Forall plainSegment pathStack ->
  Forall (fun p => noChar "/"%char p = true) segments ->
  Forall plainSegment path.
Proof.
  induction segments as [| segment segments IH]; intros pathStack path H Hst Hseg.
  - injection H as <-. exact Hst.
  - inversion Hseg as [| ? ? Hs Hseg']; subst. cbn [pathLoop] in H.
    destruct (isEmpty segment) eqn:E0; cbn [negb andb] in H;
      [apply (IH _ _ H Hst Hseg') |].
    destruct (eqs (lit ".") segment) eqn:E1; cbn [negb] in H;
      [apply (IH _ _ H Hst Hseg') |].
    destruct (eqs (lit "..") segment) eqn:E2.
    + destruct (pop pathStack) as [st |] eqn:Ep; [| discriminate H].
      apply (IH _ _ H); [| exact Hseg'].
      apply pop_removelast in Ep. subst st. apply Forall_removelast, Hst.
    + apply (IH _ _ H); [| exact Hseg'].
      apply Forall_app. split; [exact Hst |]. constructor; [| constructor].
      repeat split.
      * intros ->. discriminate E0.
      * intros ->. discriminate E1.
      * intros ->. discriminate E2.
      * exact Hs.
Qed.

Lemma pathLoop_plain_id path : forall pathStack,
  Forall plainSegment path -> pathLoop path pathStack = Ok (pathStack ++ path).
Proof.
  induction path as [| segment path IH]; intros pathStack H.
  - rewrite app_nil_r. reflexivity.
  - inversion H as [| ? ? (H0 & H1 & H2 & _) H']; subst. cbn [pathLoop].
    rewrite (isEmpty_false segment H0).
    rewrite (eqs_false (lit ".") segment) by congruence.
    rewrite (eqs_false (lit "..") segment) by congruence.
    cbn [negb andb]. rewrite IH by exact H'.
    rewrite <- app_assoc. reflexivity.
Qed.

Lemma pathOf_plain parts path :
  pathOf parts = Ok path -> Forall plainSegment path.
Proof.
  unfold pathOf. destruct (truthy (parts 6%nat)) as [raw |].
  - intros H. apply (pathLoop_plain _ _ _ H); [constructor | apply split_noChar].
  - intros H. injection H as <-. constructor.
Qed.

(** X20. The path of every URL that the constructor makes is resolved: no
    segment is empty, [.] or [..], and none holds a [/]; the loop over the
    segments leaves such a path as it is, and so does the loop over the
    segments of the path as [toString] writes it. *)
Theorem path_is_resolved url u :
  HttpURL.new url = Ok u ->
  Forall plainSegment (path u)
  /\ pathLoop (path u) [] = Ok (path u)
  /\ pathLoop (split "/"%char (join (lit "/") (path u))) [] = Ok (path u).
Proof.
  intros H. unfold HttpURL.new in H.
  destruct (exec regEx (replacePct url)) as [parts |]; [| discriminate H].
  apply build_path, pathOf_plain in H.
  split; [exact H |]. split; [apply (pathLoop_plain_id _ [] H) |].
  destruct (path u) as [| segment rest] eqn:E; [reflexivity |].
  change (lit "/") with ["/"%char]. rewrite split_join_char.
  - apply (pathLoop_plain_id _ [] H).
  - discriminate.
  - revert H. apply Forall_impl. intros p (_ & _ & _ & Hp). exact Hp.
Qed.

Lemma path_is_resolved_witness :
  Forall plainSegment [lit "b"; lit "d"]
  /\ pathLoop [lit "b"; lit "d"] [] = Ok [lit "b"; lit "d"]
  /\ pathLoop (split "/"%char (join (lit "/") [lit "b"; lit "d"])) []
     = Ok [lit "b"; lit "d"].
Proof.
  apply (path_is_resolved (lit "x.org/a/../b/./c/..//d")
           (HttpURL.mk (lit "http") None (lit "x.org") 80 [lit "b"; lit "d"] []
              None false)).
  vm_compute. reflexivity.
Defined.

(** ** The case of the host and of the scheme *)

Lemma lower_lower c : toLowerChar (toLowerChar c) = toLowerChar c.
Proof. each_char c; reflexivity. Qed.

Lemma addressChar_lower c : addressChar c = true -> toLowerChar c = c.
Proof. each_char c; intros H; try discriminate H; reflexivity. Qed.

Lemma lower_fixed (p : ascii -> bool) s :
  (forall c, p c = true -> toLowerChar c = c) ->
  forallb p s = true -> toLowerCase s = s.
Proof.
  intros Hp. induction s as [| c s IH]; intros H; [reflexivity |].
  cbn [forallb] in H. apply andb_prop in H as [H1 H2].
  cbn [toLowerCase map]. fold (toLowerCase s).
  rewrite (Hp c H1), (IH H2). reflexivity.
Qed.

(** X21. The host and the scheme of every URL that the constructor makes
    are in lower case, the host of a URL with an address too: changing them
    to lower case leaves them as they are. *)
Theorem host_and_scheme_lower_case url u :
  HttpURL.new url = Ok u ->
  toLowerCase (host u) = host u /\ toLowerCase (scheme u) = scheme u.
Proof.
  intros H. pose proof (new_out url) as Ho. rewrite H in Ho.
  destruct Ho as (Hs & _ & _ & _ & _ & Hip). split.
  - unfold HttpURL.new in H.
    destruct (exec regEx (replacePct url)) as [parts |] eqn:E; [| discriminate H].
    apply regEx_groups in E as (_ & H2 & H3).
    apply build_fields in H as (_ & Hh & _).
    destruct (ipAddress u) as [a |] eqn:Ea.
    + destruct (Hip a eq_refl) as (Hv & Ht & _).
      apply (lower_fixed addressChar); [apply addressChar_lower |].
      apply (rendering_chars a (host u) Hv). left. exact Ht.
    + destruct (hostOf_out parts H2 H3) as [(text & _ & E) | (p & _ & _ & E)];
        rewrite E in Hh.
      * pose proof (addressHost_out text) as Ha. rewrite Hh in Ha.
        destruct Ha as (a & Ha & _). discriminate Ha.
      * injection Hh as <-. unfold toLowerCase. rewrite map_map.
        apply map_ext, lower_lower.
  - destruct Hs as [-> | ->]; reflexivity.
Qed.

Lemma host_and_scheme_lower_case_witness :
  toLowerCase (lit "fe80::ab") = lit "fe80::ab"
  /\ toLowerCase (lit "https") = lit "https".
Proof.
  apply (host_and_scheme_lower_case (lit "HTTPS://[FE80:0::AB]/X")
           (HttpURL.mk (lit "https") (Some (IPv6.mk 0xfe8000000000000000000000000000ab))
              (lit "fe80::ab") 443 [lit "X"] [] None false)).
  vm_compute. reflexivity.
Defined.

(** ** The order of texts *)

Lemma code_inj a b : code a = code b -> a = b.
Proof.
  unfold code. intros H. apply N2Z.inj in H.
  rewrite <- (ascii_N_embedding a), <- (ascii_N_embedding b), H. reflexivity.
Qed.

Lemma strCompare_eq a : forall b, strCompare a b = Eq <-> a = b.
Proof.
  induction a as [| x a IH]; intros [| y b]; cbn [strCompare]; split; intros H;
    try reflexivity; try discriminate H.
  - destruct (code x ?= code y) eqn:E; try discriminate H.
    apply Z.compare_eq, code_inj in E. apply IH in H. subst. reflexivity.
  - injection H as -> ->. rewrite Z.compare_refl. apply IH. reflexivity.
Qed.

Lemma strCompare_antisym a : forall b,
  strCompare b a = CompOpp (strCompare a b).
Proof.
  induction a as [| x a IH]; intros [| y b]; cbn [strCompare]; try reflexivity.
  rewrite (Z.compare_antisym (code x) (code y)).
  destruct (code x ?= code y); cbn [CompOpp]; [apply IH | reflexivity | reflexivity].
Qed.

Lemma strCompare_trans a : forall b c,
  strCompare a b = Lt -> strCompare b c = Lt -> strCompare a c = Lt.
Proof.
  induction a as [| x a IH]; intros [| y b] [| z c]; cbn [strCompare];
    intros H1 H2; try reflexivity; try discriminate.
  destruct (Z.compare_spec (code x) (code y)) as [E1 | E1 | E1];
    try discriminate H1;
    destruct (Z.compare_spec (code y) (code z)) as [E2 | E2 | E2];
    try discriminate H2.
  - rewrite E1, E2, Z.compare_refl. eapply IH; eassumption.
  - rewrite E1. apply Z.compare_lt_iff in E2. rewrite E2. reflexivity.
  - rewrite <- E2. apply Z.compare_lt_iff in E1. rewrite E1. reflexivity.
  - assert (E : code x < code z) by lia. apply Z.compare_lt_iff in E.
    rewrite E. reflexivity.
Qed.

Lemma compareStrings_range a b :
  compareStrings a b = -1 \/ compareStrings a b = 0 \/ compareStrings a b = 1.
Proof. unfold compareStrings. destruct (strCompare a b); auto. Qed.

Lemma compareStrings_zero a b : compareStrings a b = 0 <-> a = b.
Proof.
  unfold compareStrings. rewrite <- strCompare_eq.
  destruct (strCompare a b); split; intros H; try reflexivity; discriminate H.
Qed.

Lemma compareStrings_antisym a b : compareStrings b a = - compareStrings a b.
Proof.
  unfold compareStrings. rewrite (strCompare_antisym a b).
  destruct (strCompare a b); reflexivity.
Qed.

Lemma compareStrings_lt a b : compareStrings a b < 0 <-> strCompare a b = Lt.
Proof.
  unfold compareStrings. destruct (strCompare a b); split; intros H;
    try reflexivity; try discriminate H; lia.
Qed.

Lemma compareStrings_trans a b c :
  compareStrings a b <= 0 -> compareStrings b c <= 0 ->
  compareStrings a c <= 0
  /\ (compareStrings a b < 0 \/ compareStrings b c < 0 ->
      compareStrings a c < 0).
Proof.
  intros H1 H2.
  destruct (compareStrings_range a b) as [E1 | [E1 | E1]]; [| | lia];
    destruct (compareStrings_range b c) as [E2 | [E2 | E2]]; try lia.
  - assert (compareStrings a c < 0); [| lia].
    apply compareStrings_lt. apply (strCompare_trans a b c);
      apply compareStrings_lt; lia.
  - apply compareStrings_zero in E2. subst c. lia.
  - apply compareStrings_zero in E1. subst b. lia.
  - apply compareStrings_zero in E1. apply compareStrings_zero in E2. subst.
    rewrite (proj2 (compareStrings_zero c c) eq_refl). lia.
Qed.

(** ** The order of the parameters of a query *)

Lemma QueryParam_compare_eq qa qb :
  QueryParam.compare qa qb
  = if compareStrings (QueryParam.name qa) (QueryParam.name qb) =? 0
    then compareStrings (QueryParam.valueOrEmpty qa) (QueryParam.valueOrEmpty qb)
    else compareStrings (QueryParam.name qa) (QueryParam.name qb).
Proof. reflexivity. Qed.

Lemma QueryParam_compare_antisym qa qb :
  QueryParam.compare qb qa = - QueryParam.compare qa qb.
Proof.
  rewrite !QueryParam_compare_eq.
  rewrite (compareStrings_antisym (QueryParam.name qa) (QueryParam.name qb)).
  rewrite (compareStrings_antisym (QueryParam.valueOrEmpty qa)
             (QueryParam.valueOrEmpty qb)).
  destruct (compareStrings_range (QueryParam.name qa) (QueryParam.name qb))
    as [-> | [-> | ->]]; reflexivity.
Qed.

Lemma QueryParam_compare_trans qa qb qc :
  QueryParam.compare qa qb <= 0 -> QueryParam.compare qb qc <= 0 ->
  QueryParam.compare qa qc <= 0.
Proof.
  rewrite !QueryParam_compare_eq.
  set (na := QueryParam.name qa). set (nb := QueryParam.name qb).
  set (nc := QueryParam.name qc).
  set (va := QueryParam.valueOrEmpty qa). set (vb := QueryParam.valueOrEmpty qb).
  set (vc := QueryParam.valueOrEmpty qc).
  intros H1 H2.
  assert (Hab : compareStrings na nb <= 0)
    by (destruct (compareStrings na nb =? 0) eqn:E;
        [apply Z.eqb_eq in E; lia | exact H1]).
  assert (Hbc : compareStrings nb nc <= 0)
    by (destruct (compareStrings nb nc =? 0) eqn:E;
        [apply Z.eqb_eq in E; lia | exact H2]).
  destruct (compareStrings_trans na nb nc Hab Hbc) as [Hac Hstrict].
  destruct (compareStrings na nc =? 0) eqn:Eac; [| exact Hac].
  apply Z.eqb_eq in Eac.
  assert (E1 : compareStrings na nb = 0) by lia.
  assert (E2 : compareStrings nb nc = 0) by lia.
  rewrite E1 in H1. rewrite E2 in H2. cbn in H1, H2.
  apply (compareStrings_trans va vb vc H1 H2).
Qed.

(** X22. [QueryParam.compare] orders the parameters by name and then by
    value: it gives -1, 0 or 1, the opposite number when the operands are
    exchanged, 0 exactly for the same name and the same value, a missing
    value counting as an empty one, and it is transitive; it is a
    consistent comparison for [sort]. *)
Theorem query_param_order qa qb qc :
  (QueryParam.compare qa qb = -1 \/ QueryParam.compare qa qb = 0
   \/ QueryParam.compare qa qb = 1)
  /\ QueryParam.compare qb qa = - QueryParam.compare qa qb
  /\ (QueryParam.compare qa qb = 0
      <-> QueryParam.name qa = QueryParam.name qb
          /\ QueryParam.valueOrEmpty qa = QueryParam.valueOrEmpty qb)
  /\ (QueryParam.compare qa qb < 0
      <-> strCompare (QueryParam.name qa) (QueryParam.name qb) = Lt
          \/ (QueryParam.name qa = QueryParam.name qb
              /\ strCompare (QueryParam.valueOrEmpty qa)
                   (QueryParam.valueOrEmpty qb) = Lt))
  /\ (QueryParam.compare qa qb <= 0 -> QueryParam.compare qb qc <= 0 ->
      QueryParam.compare qa qc <= 0).
Proof.
  split; [| split; [apply QueryParam_compare_antisym |
                    split; [| split; [| apply QueryParam_compare_trans]]]].
  - rewrite QueryParam_compare_eq. destruct (_ =? 0) eqn:E.
    + apply compareStrings_range.
    + apply Z.eqb_neq in E.
      destruct (compareStrings_range (QueryParam.name qa) (QueryParam.name qb))
        as [-> | [E' | ->]]; auto; contradiction.
  - rewrite QueryParam_compare_eq. destruct (_ =? 0) eqn:E.
    + apply Z.eqb_eq in E. rewrite compareStrings_zero in *. tauto.
    + apply Z.eqb_neq in E. rewrite <- (compareStrings_zero (QueryParam.name qa)).
      tauto.
  - rewrite QueryParam_compare_eq. rewrite <- !compareStrings_lt.
    rewrite <- (compareStrings_zero (QueryParam.name qa)).
    destruct (_ =? 0) eqn:E.
    + apply Z.eqb_eq in E. lia.
    + apply Z.eqb_neq in E. lia.
Qed.

Lemma query_param_order_witness :
  QueryParam.compare (QueryParam.mk (lit "a") None)
    (QueryParam.mk (lit "b") (Some (lit "1"))) <= 0.
Proof.
  apply (proj2 (proj2 (proj2 (proj2
           (query_param_order (QueryParam.mk (lit "a") None)
              (QueryParam.mk (lit "a") (Some []))
              (QueryParam.mk (lit "b") (Some (lit "1")))))))).
  - vm_compute. discriminate.
  - vm_compute. discriminate.
Defined.

(** ** The sort *)

Section Sorting.
Variable A : Type.
Variable cmp : A -> A -> Z.
Hypothesis cmp_antisym : forall x y, cmp y x = - cmp x y.
Hypothesis cmp_trans : forall x y z, cmp x y <= 0 -> cmp y z <= 0 -> cmp x z <= 0.

Lemma insertSorted_perm x l : Permutation.Permutation (x :: l) (insertSorted cmp x l).
Proof.
  induction l as [| y l IH]; [apply Permutation.Permutation_refl |].
  cbn [insertSorted]. destruct (cmp x y <? 0); [apply Permutation.Permutation_refl |].
  eapply Permutation.Permutation_trans; [apply Permutation.perm_swap |]. apply Permutation.perm_skip, IH.
Qed.

Lemma insertSorted_sorted x l :
  Sorted.StronglySorted (fun a b => cmp a b <= 0) l ->
  Sorted.StronglySorted (fun a b => cmp a b <= 0) (insertSorted cmp x l).
Proof.
  induction 1 as [| y l Hl IH Hy]; [repeat constructor |].
  cbn [insertSorted]. destruct (cmp x y <? 0) eqn:E.
  - apply Z.ltb_lt in E. constructor; [constructor; assumption |].
    constructor; [lia |]. revert Hy. apply Forall_impl.
    intros z Hz. apply (cmp_trans x y z); [lia | exact Hz].
  - apply Z.ltb_ge in E. constructor; [exact IH |].
    apply (Permutation.Permutation_Forall (insertSorted_perm x l)).
    constructor; [rewrite cmp_antisym; lia | exact Hy].
Qed.

Lemma sort_from acc l :
  Sorted.StronglySorted (fun a b => cmp a b <= 0) acc ->
  Sorted.StronglySorted (fun a b => cmp a b <= 0)
    (fold_left (fun acc x => insertSorted cmp x acc) l acc)
  /\ Permutation.Permutation (l ++ acc)
       (fold_left (fun acc x => insertSorted cmp x acc) l acc).
Proof.
  revert acc. induction l as [| x l IH]; intros acc Hacc.
  - split; [exact Hacc | apply Permutation.Permutation_refl].
  - cbn [fold_left]. destruct (IH (insertSorted cmp x acc)) as [H1 H2];
      [apply insertSorted_sorted, Hacc |].
    split; [exact H1 |].
    eapply Permutation.Permutation_trans; [| exact H2].
    cbn [app]. eapply Permutation.Permutation_trans; [apply Permutation.Permutation_middle |].
    apply Permutation.Permutation_app_head, insertSorted_perm.
Qed.

Lemma sort_sorted l :
  Sorted.StronglySorted (fun a b => cmp a b <= 0) (sort cmp l)
  /\ Permutation.Permutation l (sort cmp l).
Proof.
  destruct (sort_from [] l (Sorted.SSorted_nil _)) as [H1 H2].
  rewrite app_nil_r in H2. split; assumption.
Qed.

End Sorting.

(** X23. The query of every URL that the constructor makes is in the order
    of [QueryParam.compare], each parameter before every later one, and it
    holds the parameters that the pieces of the query text between [&] and
    [;] give, each as often as it is given, no more and no less. *)
Theorem query_is_sorted url u :
  HttpURL.new url = Ok u ->
  Sorted.StronglySorted (fun qa qb => QueryParam.compare qa qb <= 0) (query u)
  /\ exists parts,
       exec regEx (replacePct url) = Some parts
       /\ match truthy (parts 7%nat) with
          | Some raw =>
              exists params,
                mapM (fun q => QueryParam.new q None) (matchQSep [] raw)
                = Ok params
                /\ Permutation.Permutation params (query u)
          | None => query u = []
          end.
Proof.
  intros H. unfold HttpURL.new in H.
  destruct (exec regEx (replacePct url)) as [parts |]; [| discriminate H].
  apply build_fields in H as (_ & _ & _ & _ & _ & Hq & _).
  unfold queryOf in Hq.
  destruct (truthy (parts 7%nat)) as [raw |] eqn:E7.
  - destruct (mapM _ (matchQSep [] raw)) as [params |] eqn:Em; cbn [bind] in Hq;
      [| discriminate Hq].
    injection Hq as <-.
    destruct (sort_sorted _ QueryParam.compare QueryParam_compare_antisym
                QueryParam_compare_trans params) as [H1 H2].
    split; [exact H1 |]. exists parts. split; [reflexivity |]. rewrite E7.
    exists params. split; [exact Em | exact H2].
  - injection Hq as Hq. rewrite <- Hq. split; [apply Sorted.SSorted_nil |].
    exists parts. split; [reflexivity |]. rewrite E7. reflexivity.
Qed.

Lemma query_is_sorted_witness :
  Sorted.StronglySorted (fun qa qb => QueryParam.compare qa qb <= 0)
    [QueryParam.mk (lit "a") (Some (lit "2"));
     QueryParam.mk (lit "b") (Some (lit "1"))].
Proof.
  apply (query_is_sorted (lit "x.org?b=1&a=2")
           (HttpURL.mk (lit "http") None (lit "x.org") 80 [] 
              [QueryParam.mk (lit "a") (Some (lit "2"));
               QueryParam.mk (lit "b") (Some (lit "1"))] None true)).
  vm_compute. reflexivity.
Defined.

(** ** The text of a parameter *)

Lemma indexOfFrom_cases c s : forall i,
  0 <= i ->
  (indexOfFrom c s i = -1 /\ noChar c s = true)
  \/ (exists a b,
        s = a ++ c :: b /\ noChar c a = true
        /\ indexOfFrom c s i = i + Z.of_nat (length a)).
Proof.
  induction s as [| x s IH]; intros i Hi; [left; split; reflexivity |].
  cbn [indexOfFrom]. destruct (eqc x c) eqn:E.
  - right. exists [], s. apply Ascii.eqb_eq in E. subst x.
    split; [reflexivity |]. split; [reflexivity | cbn; lia].
  - destruct (IH (i + 1) ltac:(lia)) as [[H1 H2] | (a & b & -> & Ha & Hidx)].
    + left. split; [exact H1 |]. unfold noChar in *. cbn [forallb].
      rewrite E, H2. reflexivity.
    + right. exists (x :: a), b. split; [reflexivity |]. split.
      * unfold noChar in *. cbn [forallb]. rewrite E, Ha. reflexivity.
      * rewrite Hidx. cbn [length]. lia.
Qed.

(** X24. The constructor of [QueryParam] accepts every text alone: the name
    is the text before the first [=], without any [=], and the value the
    text behind it; [toString] gives the text back, but for a text whose
    first [=] is its last character, which loses it. With a [=] in the
    name and a value that is not empty the constructor throws. *)
Theorem query_param_text q :
  (exists p,
      QueryParam.new q None = Ok p
      /\ noChar "="%char (QueryParam.name p) = true
      /\ (forall v, QueryParam.value p = Some v ->
                    q = QueryParam.name p ++ lit "=" ++ v)
      /\ (QueryParam.value p = None -> q = QueryParam.name p)
      /\ (QueryParam.toString p = q
          \/ (QueryParam.value p = Some []
              /\ QueryParam.toString p ++ lit "=" = q)))
  /\ (forall v,
        In "="%char q -> v <> [] ->
        QueryParam.new q (Some v)
        = Err (Error
                 (lit "Value specified in both name and value parameters."))).
Proof.
  destruct (indexOfFrom_cases "="%char q 0 ltac:(lia))
    as [[H1 H2] | (a & b & -> & Ha & Hidx)].
  - split.
    + exists (QueryParam.mk q None). unfold QueryParam.new, indexOf.
      rewrite H1. cbn [Z.leb Z.compare QueryParam.name QueryParam.value].
      split; [reflexivity |]. split; [exact H2 |].
      split; [discriminate |]. split; [reflexivity |]. left. reflexivity.
    + intros v Hin _. exfalso. unfold noChar in H2.
      rewrite forallb_forall in H2. specialize (H2 _ Hin). discriminate H2.
  - assert (Hidx' : indexOf "="%char (a ++ "="%char :: b) = Z.of_nat (length a))
      by (unfold indexOf; rewrite Hidx; lia).
    split.
    + exists (QueryParam.mk a (Some b)). unfold QueryParam.new. rewrite Hidx'.
      replace (0 <=? Z.of_nat (length a)) with true
        by (symmetry; apply Z.leb_le; lia).
      cbn [truthy]. rewrite Nat2Z.id.
      replace (Z.to_nat (Z.of_nat (length a) + 1)) with (S (length a)) by lia.
      rewrite firstn_app, Nat.sub_diag, firstn_all. cbn [firstn].
      rewrite app_nil_r.
      change (a ++ "="%char :: b) with (a ++ [("="%char)] ++ b).
      rewrite app_assoc, skipn_app, length_app. cbn [length].
      rewrite (skipn_all2 (n := S (length a))) by (rewrite length_app; simpl; lia).
      replace (S (length a) - (length a + 1))%nat with 0%nat by lia.
      cbn [skipn app QueryParam.name QueryParam.value].
      split; [reflexivity |]. split; [exact Ha |].
      split; [intros v Hv; injection Hv as <-; rewrite <- app_assoc; reflexivity |].
      split; [discriminate |].
      unfold QueryParam.toString. cbn [QueryParam.name QueryParam.value truthy].
      destruct b as [| c b]; cbn [isEmpty].
      * right. split; [reflexivity | rewrite app_nil_r; reflexivity].
      * left. rewrite <- app_assoc. reflexivity.
    + intros v _ Hv. unfold QueryParam.new. rewrite Hidx'.
      replace (0 <=? Z.of_nat (length a)) with true
        by (symmetry; apply Z.leb_le; lia).
      cbn [truthy]. rewrite (isEmpty_false v Hv). reflexivity.
Qed.

Lemma query_param_text_witness :
  QueryParam.new (lit "a=b") (Some (lit "c"))
  = Err (Error (lit "Value specified in both name and value parameters.")).
Proof.
  apply (proj2 (query_param_text (lit "a=b"))).
  - right. left. reflexivity.
  - discriminate.
Defined.

(** ** The order of URLs *)

(** X25. The static [compare] of [HttpURL] orders two URLs as their texts
    ([toString]) are ordered: it gives -1, 0 or 1, 0 exactly for the same
    text, the opposite number when the operands are exchanged, and it is
    transitive. An operand that is not an instance stands for the URL that
    the constructor makes of its text, and the error of the constructor is
    the error of [compare] when there is none. *)
Theorem url_order a b c ua ub uc :
  cast a = Ok ua -> cast b = Ok ub -> cast c = Ok uc ->
  compare a b = Ok (compareStrings (HttpURL.toString ua) (HttpURL.toString ub))
  /\ compare a b = compare (OfHttpURL ua) (OfHttpURL ub)
  /\ (compare a b = Ok 0 <-> HttpURL.toString ua = HttpURL.toString ub)
  /\ (exists r, compare a b = Ok r /\ compare b a = Ok (- r)
                /\ (r = -1 \/ r = 0 \/ r = 1))
  /\ (forall r r',
        compare a b = Ok r -> compare b c = Ok r' -> r <= 0 -> r' <= 0 ->
        exists r'', compare a c = Ok r'' /\ r'' <= 0)
  /\ (forall text e,
        HttpURL.new text = Err e ->
        compare (OfObject text) b = Err e /\ compare a (OfObject text) = Err e).
Proof.
  intros Ha Hb Hc.
  assert (Hab : forall x y ux uy,
            cast x = Ok ux -> cast y = Ok uy ->
            compare x y
            = Ok (compareStrings (HttpURL.toString ux) (HttpURL.toString uy))).
  { intros x y ux uy Hx Hy. unfold compare. rewrite Hx, Hy. reflexivity. }
  rewrite (Hab a b ua ub Ha Hb), (Hab b a ub ua Hb Ha), (Hab a c ua uc Ha Hc),
    (Hab b c ub uc Hb Hc).
  split; [reflexivity |]. split; [reflexivity |]. split; [| split; [| split]].
  - rewrite <- compareStrings_zero. split; intros H; [injection H as H | f_equal];
      exact H.
  - eexists. split; [reflexivity |]. split.
    + rewrite (compareStrings_antisym (HttpURL.toString ua)). reflexivity.
    + apply compareStrings_range.
  - intros r r' H1 H2 Hr Hr'. injection H1 as <-. injection H2 as <-.
    eexists. split; [reflexivity |].
    apply (compareStrings_trans _ _ _ Hr Hr').
  - intros text e He. unfold compare. cbn [cast]. rewrite He, Ha.
    split; reflexivity.
Qed.

Lemma url_order_witness :
  compare (OfObject (lit "HTTP://A.b/x/../")) (OfHttpURL
    (HttpURL.mk (lit "http") None (lit "a.b") 80 [] [] None true))
  = Ok 0.
Proof.
  apply (proj1 (proj2 (proj2
           (url_order (OfObject (lit "HTTP://A.b/x/../"))
              (OfHttpURL (HttpURL.mk (lit "http") None (lit "a.b") 80 [] [] None true))
              (OfHttpURL (HttpURL.mk (lit "http") None (lit "a.b") 80 [] [] None true))
              (HttpURL.mk (lit "http") None (lit "a.b") 80 [] [] None true)
              (HttpURL.mk (lit "http") None (lit "a.b") 80 [] [] None true)
              (HttpURL.mk (lit "http") None (lit "a.b") 80 [] [] None true)
              ltac:(vm_compute; reflexivity) eq_refl eq_refl)))).
  reflexivity.
Defined.

(** ** A match of an anchored pattern takes the whole text *)

Lemma run_ext r : forall s c k1 k2,
  (forall s' c', k1 s' c' = k2 s' c') -> run r s c k1 = run r s c k2.
Proof.
  induction r as [| p | a IHa b IHb | a IHa b IHb | a IHa | n a IHa |];
    intros s c k1 k2 Hk; cbn [run].
  - apply Hk.
  - destruct s as [| x s]; [reflexivity |]. destruct (p x); [apply Hk | reflexivity].
  - apply IHa. intros s' c'. apply IHb, Hk.
  - rewrite (IHa s c k1 k2 Hk), (IHb s c k1 k2 Hk). reflexivity.
  - generalize (length s). intros fuel. revert s c.
    induction fuel as [| fuel IH]; intros s c; [apply Hk |].
    match goal with
    | |- match run a s c ?K1 with _ => _ end
         = match run a s c ?K2 with _ => _ end =>
        rewrite (IHa s c K1 K2)
    end.
    + rewrite Hk. reflexivity.
    + intros s' c'. destruct (length s' <? length s)%nat; [apply IH | reflexivity].
  - apply IHa. intros s' c'. apply Hk.
  - destruct s; [apply Hk | reflexivity].
Qed.

Lemma run_anchored r :
  anchored r = true ->
  forall s c k,
    run r s c k
    = run r s c (fun s' c' => match s' with [] => k s' c' | _ :: _ => None end).
Proof.
  induction r as [| p | a IHa b IHb | a IHa b IHb | a IHa | n a IHa |];
    intros Hr s c k; cbn [anchored] in Hr; try discriminate Hr; cbn [run].
  - apply run_ext. intros s' c'. apply (IHb Hr).
  - apply andb_prop in Hr as [Ha Hb].
    rewrite (IHa Ha s c k), (IHb Hb s c k). reflexivity.
  - rewrite (IHa Hr). apply run_ext. intros [| x s'] c'; reflexivity.
  - destruct s; reflexivity.
Qed.

Lemma exec_whole r s parts :
  exec r s = Some parts -> anchored r = true -> matches r s.
Proof.
  unfold exec. intros H Hr. rewrite (run_anchored r Hr) in H.
  apply run_matches in H as (w & s' & c' & -> & Hm & _ & _ & Hk).
  destruct s'; [| discriminate Hk]. rewrite app_nil_r. exact Hm.
Qed.

Lemma matches_alphabet r w : matches r w -> forallb (alphabet r) w = true.
Proof.
  induction 1 as [| p x Hp | a b u v _ IHa _ IHb | a b u _ IH | a b u _ IH
                 | a | a u v _ IHu _ IHv | n a u _ IH |];
    cbn [alphabet]; try reflexivity.
  - cbn. rewrite Hp. reflexivity.
  - rewrite forallb_app. apply andb_true_intro. split.
    + revert IHa. apply forallb_impl. intros c ->. reflexivity.
    + revert IHb. apply forallb_impl. intros c ->. apply orb_true_r.
  - revert IH. apply forallb_impl. intros c ->. reflexivity.
  - revert IH. apply forallb_impl. intros c ->. apply orb_true_r.
  - rewrite forallb_app. apply andb_true_intro. split; [exact IHu | exact IHv].
  - exact IH.
Qed.

Lemma strange_char c :
  alphabet regEx c = false -> eqc c "%"%char = false /\ isHexDigit c = false.
Proof.
  assert (H : forallb (fun c => implb (negb (alphabet regEx c))
                                  (negb (eqc c "%"%char) && negb (isHexDigit c)))
                allAscii = true) by (vm_compute; reflexivity).
  rewrite forallb_forall in H. specialize (H c (In_allAscii c)).
  intros Hc. rewrite Hc in H. cbn [negb implb] in H.
  apply andb_prop in H as [H1 H2]. apply negb_true_iff in H1, H2.
  split; assumption.
Qed.

Lemma replacePct_keeps c n : forall s,
  (length s <= n)%nat ->
  eqc c "%"%char = false -> isHexDigit c = false ->
  In c s -> In c (replacePct s).
Proof.
  induction n as [| n IH]; intros s Hlen Hp Hh H.
  - destruct s; [exact H | simpl in Hlen; lia].
  - destruct s as [| x [| h1 [| h2 s]]]; try exact H.
    rewrite replacePct_step.
    destruct (eqc x "%"%char && isHexDigit h1 && isHexDigit h2) eqn:E.
    + apply andb_prop in E as [E E2]. apply andb_prop in E as [E0 E1].
      apply in_or_app. right. apply IH; try assumption;
        [cbn [length] in *; lia |].
      destruct H as [<- | [<- | [<- | H]]]; [| | | exact H].
      * unfold eqc in *. rewrite Hp in E0. discriminate E0.
      * rewrite Hh in E1. discriminate E1.
      * rewrite Hh in E2. discriminate E2.
    + destruct H as [H | H]; [left; exact H |].
      right. apply IH; try assumption. cbn [length] in *. lia.
Qed.

(** X26. A text that holds a character which the pattern of a URL admits
    nowhere, such as a double quote, a backslash, [<], [>], [^], [{], [|]
    or [}], is refused with the error "Invalid URL", wherever the character
    stands. *)
Theorem strange_characters_refused url c :
  In c url -> alphabet regEx c = false ->
  HttpURL.new url = Err (Error (lit "Invalid URL")).
Proof.
  intros Hin Hc. unfold HttpURL.new.
  destruct (exec regEx (replacePct url)) as [parts |] eqn:E; [| reflexivity].
  exfalso. apply exec_whole in E; [| reflexivity].
  apply matches_alphabet in E. rewrite forallb_forall in E.
  destruct (strange_char c Hc) as [Hp Hh].
  rewrite (E c) in Hc; [discriminate Hc |].
  apply (replacePct_keeps c (length url)); auto.
Qed.

Lemma strange_characters_refused_witness :
  HttpURL.new (lit "http://a.b/x<y") = Err (Error (lit "Invalid URL")).
Proof.
  apply (strange_characters_refused (lit "http://a.b/x<y") "<"%char).
  - do 12 right. left. reflexivity.
  - vm_compute. reflexivity.
Defined.

(** ** The percent-encoded triplets *)

Lemma normalizeTriplet_cases h1 h2 :
  isHexDigit h1 = true -> isHexDigit h2 = true ->
  (exists c, normalizeTriplet h1 h2 = [c] /\ eqc c "%"%char = false)
  \/ (exists H1 H2,
        normalizeTriplet h1 h2 = ["%"%char; H1; H2]
        /\ isHexDigit H1 = true /\ isHexDigit H2 = true
        /\ normalizeTriplet H1 H2 = ["%"%char; H1; H2]).
Proof.
  each_char h1; intros E1; try discriminate E1;
    each_char h2; intros E2; try discriminate E2;
    first [ left; eexists; split; reflexivity
          | right; eexists; eexists; repeat split; reflexivity ].
Qed.

Lemma replacePct_plain c s :
  eqc c "%"%char = false -> replacePct (c :: s) = c :: replacePct s.
Proof.
  intros E. destruct s as [| h1 [| h2 s]]; try reflexivity.
  rewrite replacePct_step, E. reflexivity.
Qed.

Lemma wellEncoded_step c h1 h2 s :
  wellEncoded (c :: h1 :: h2 :: s)
  = if eqc c "%"%char
    then isHexDigit h1 && isHexDigit h2 && wellEncoded s
    else wellEncoded (h1 :: h2 :: s).
Proof. reflexivity. Qed.

Lemma replacePct_twice n : forall s,
  (length s <= n)%nat -> wellEncoded s = true ->
  wellEncoded (replacePct s) = true
  /\ replacePct (replacePct s) = replacePct s.
Proof.
  induction n as [| n IH]; intros s Hlen Hw.
  - destruct s; [split; reflexivity | simpl in Hlen; lia].
  - destruct s as [| c s]; [split; reflexivity |].
    destruct (eqc c "%"%char) eqn:Ec.
    + destruct s as [| h1 [| h2 s]];
        try (cbn [wellEncoded] in Hw; rewrite Ec in Hw; discriminate Hw).
      rewrite wellEncoded_step, Ec in Hw.
      apply andb_prop in Hw as [Hh Hw]. apply andb_prop in Hh as [Hh1 Hh2].
      rewrite replacePct_step, Ec, Hh1, Hh2. cbn [andb].
      destruct (IH s ltac:(cbn [length] in Hlen; lia) Hw) as [IH1 IH2].
      destruct (normalizeTriplet_cases h1 h2 Hh1 Hh2)
        as [(x & -> & Ex) | (H1 & H2 & -> & E1 & E2 & En)].
      * cbn [app]. split.
        -- cbn [wellEncoded]. rewrite Ex. exact IH1.
        -- rewrite (replacePct_plain x _ Ex), IH2. reflexivity.
      * cbn [app]. split.
        -- rewrite wellEncoded_step. change (eqc "%"%char "%"%char) with true.
           cbv iota. rewrite E1, E2, IH1. reflexivity.
        -- rewrite replacePct_step. change (eqc "%"%char "%"%char) with true.
           rewrite E1, E2. cbn [andb]. rewrite En, IH2. reflexivity.
    + cbn [wellEncoded] in Hw. rewrite Ec in Hw.
      rewrite (replacePct_plain c s Ec).
      destruct (IH s ltac:(cbn [length] in Hlen; lia) Hw) as [IH1 IH2].
      split.
      * cbn [wellEncoded]. rewrite Ec. exact IH1.
      * rewrite (replacePct_plain c _ Ec), IH2. reflexivity.
Qed.

(** X27. On a text in which every [%] stands before two hexadecimal digits,
    the replacement of the percent-encoded triplets is idempotent: what it
    gives is such a text again, and the replacement leaves it as it is. *)
Theorem triplets_replaced_once s :
  wellEncoded s = true ->
  wellEncoded (replacePct s) = true
  /\ replacePct (replacePct s) = replacePct s.
Proof. intros H. apply (replacePct_twice (length s)); [lia | exact H]. Qed.

Lemma triplets_replaced_once_witness :
  wellEncoded (replacePct (lit "a%2fb%41%7e")) = true
  /\ replacePct (replacePct (lit "a%2fb%41%7e")) = replacePct (lit "a%2fb%41%7e").
Proof. apply (triplets_replaced_once (lit "a%2fb%41%7e")). reflexivity. Defined.
